(** * Vfs.js: a virtual filesystem overlaying in-memory entries with
      subtrees backed by real directory handles.

    A shallow embedding of [src/Vfs.js].  JavaScript objects live in a store
    and are referred to by address; the methods of [Vfs] are state
    transformers that may throw.  The storage provider ([browser-fs-access]
    and the File System Access API behind it) is an oracle. *)

From Stdlib Require Import NArith Ascii String.
From stdpp Require Import base option list strings gmap.

Open Scope string_scope.
Open Scope list_scope.
Open Scope nat_scope.

(** ** JavaScript strings

    A string is a sequence of code units, one [ascii] per unit. *)

Module JsString.

(** [s.split(sep)] for a separator of one code unit. *)
Fixpoint split (sep : ascii) (s : string) : list string :=
  match s with
  | EmptyString => [EmptyString]
  | String c r =>
      if Ascii.eqb c sep then EmptyString :: split sep r
      else match split sep r with
           | x :: xs => String c x :: xs
           | [] => [String c EmptyString]
           end
  end.

(** [s.startsWith(p)]. *)
Fixpoint startsWith (p s : string) : bool :=
  match p, s with
  | EmptyString, _ => true
  | String a p', String b s' => Ascii.eqb a b && startsWith p' s'
  | String _ _, EmptyString => false
  end.

(** [s.slice(n)] for [0 <= n]. *)
Fixpoint slice (n : nat) (s : string) : string :=
  match n, s with
  | O, _ => s
  | S n', String _ s' => slice n' s'
  | S _, EmptyString => EmptyString
  end.

End JsString.

(** ** Ordinary JavaScript objects used as maps

    [VfsNode._children] is a plain object literal [{}]: its prototype is
    [Object.prototype], its own keys are enumerated by
    [Object.getOwnPropertyNames] in the order of ECMA-262
    OrdinaryOwnPropertyKeys (array indices in ascending numeric order, then
    the other string keys in order of creation), and [k in o] also finds the
    properties inherited from the prototype. *)

(** The address of an object in the store. *)
Abbreviation ptr := nat (only parsing).

Module JsObject.

(** Own properties in order of creation. *)
Abbreviation t := (list (string * ptr)) (only parsing).

(** The property names of [Object.prototype]. *)
Definition Object_prototype : list string :=
  [ "constructor"; "hasOwnProperty"; "isPrototypeOf"; "propertyIsEnumerable";
    "toLocaleString"; "toString"; "valueOf"; "__proto__";
    "__defineGetter__"; "__defineSetter__"; "__lookupGetter__";
    "__lookupSetter__" ].

Definition inherited (k : string) : bool :=
  bool_decide (k ∈ Object_prototype).

Fixpoint own (o : t) (k : string) : option ptr :=
  match o with
  | [] => None
  | (k', v) :: o' => if String.eqb k' k then Some v else own o' k
  end.

(** [k in o]. *)
Definition has (o : t) (k : string) : bool :=
  match own o k with
  | Some _ => true
  | None => inherited k
  end.

(** [o[k] = v]: an existing own property keeps its place. *)
Fixpoint set (o : t) (k : string) (v : ptr) : t :=
  match o with
  | [] => [(k, v)]
  | (k', v') :: o' =>
      if String.eqb k' k then (k', v) :: o' else (k', v') :: set o' k v
  end.

Definition digit (c : ascii) : option N :=
  let n := N_of_ascii c in
  if ((48 <=? n) && (n <=? 57))%N then Some (n - 48)%N else None.

Fixpoint digits (acc : N) (s : string) : option N :=
  match s with
  | EmptyString => Some acc
  | String c r =>
      match digit c with
      | Some d => digits (10 * acc + d)%N r
      | None => None
      end
  end.

(** An array index is a canonical numeric string below [2^32 - 1]. *)
Definition array_index (k : string) : option N :=
  match k with
  | EmptyString => None
  | String c r =>
      if Ascii.eqb c "0" && negb (String.eqb r EmptyString) then None
      else match digits 0 k with
           | Some v => if (v <? 2 ^ 32 - 1)%N then Some v else None
           | None => None
           end
  end.

Fixpoint insert_index (x : N * string) (l : list (N * string)) :
  list (N * string) :=
  match l with
  | [] => [x]
  | y :: l' =>
      if (x.1 <=? y.1)%N then x :: l else y :: insert_index x l'
  end.

Definition index_keys (ks : list string) : list (N * string) :=
  omap (λ k, (λ i, (i, k)) <$> array_index k) ks.

(** The order in which a list of keys, given in order of creation, is
    enumerated. *)
Definition key_order (ks : list string) : list string :=
  (foldr insert_index [] (index_keys ks)).*2
  ++ filter (λ k, array_index k = None) ks.

(** [Object.getOwnPropertyNames(o)]. *)
Definition getOwnPropertyNames (o : t) : list string := key_order o.*1.

End JsObject.

(** ** Values, nodes and the state of a [Vfs] *)

(** A [FileSystemDirectoryHandle], opaque. *)
Abbreviation handle := nat (only parsing).

(** A [Blob] or [File]: [new Blob([content], {type})] with the properties
    the code sets or reads on it. *)
Record Blob := mkBlob {
  blob_parts : string;
  blob_type : string;
  blob_name : string;
  webkitRelativePath : option string;
  directoryHandle : option handle
}.

(** The [type] that [new Blob(parts, {type: t})] gives the blob: the empty
    string when [t] has a code unit outside U+0020..U+007E, otherwise [t]
    converted to ASCII lower case. *)
Definition type_unit (c : ascii) : bool :=
  ((32 <=? N_of_ascii c) && (N_of_ascii c <=? 126))%N.

Definition ascii_lowercase (c : ascii) : ascii :=
  if ((65 <=? N_of_ascii c) && (N_of_ascii c <=? 90))%N
  then ascii_of_N (N_of_ascii c + 32)
  else c.

Fixpoint type_units (t : string) : bool :=
  match t with
  | EmptyString => true
  | String c t' => type_unit c && type_units t'
  end.

Fixpoint toLowerCase (t : string) : string :=
  match t with
  | EmptyString => EmptyString
  | String c t' => String (ascii_lowercase c) (toLowerCase t')
  end.

Definition Blob_type (t : string) : string :=
  if type_units t then toLowerCase t else "".

(** The values stored in a [metadata] object. *)
Inductive mval :=
| MNum (n : N)
| MStr (s : string)
| MBlob (b : Blob)
| MHandle (h : handle)
| MUndefined.

Definition truthy (v : mval) : bool :=
  match v with
  | MNum n => negb (n =? 0)%N
  | MStr s => negb (String.eqb s "")
  | MBlob _ | MHandle _ => true
  | MUndefined => false
  end.

(** [Object.assign(target, ...sources)]: later sources win. *)
Definition Object_assign (target : gmap string mval)
    (sources : list (gmap string mval)) : gmap string mval :=
  foldl (λ acc src, src ∪ acc) target sources.
Arguments Object_assign : simpl never.

Record VfsNode := mkNode {
  name : string;
  metadata : gmap string mval;
  parent : option ptr;
  _children : JsObject.t
}.

(** What a variable such as [cnode] may hold: a node, [null], [undefined],
    [false], or a member of [Object.prototype] read through a node's
    [_children]. *)
Inductive jsval :=
| VUndefined
| VNull
| VFalse
| VNode (p : ptr)
| VBuiltin (k : string).

(** [o[k]]. *)
Definition get_property (o : JsObject.t) (k : string) : jsval :=
  match JsObject.own o k with
  | Some p => VNode p
  | None => if JsObject.inherited k then VBuiltin k else VUndefined
  end.

Record MountPoint := mkMount {
  mp_type : string;
  mp_path : string;
  mp_root : jsval
}.

(** One call [h.getDirectoryHandle(name, {create})]. *)
Record Request := mkRequest {
  req_handle : handle;
  req_name : string;
  req_create : bool
}.

(** A [Vfs] object, the store of the nodes it has allocated (in order of
    allocation) and the requests it has sent to directory handles.
    [node_id] is a JavaScript number that only counts nodes: it is exact
    below [2^53], more nodes than a store can hold. *)
Record Vfs := mkVfs {
  node_id : N;
  root : ptr;
  mount_points : list MountPoint;
  heap : list VfsNode;
  requests : list Request
}.

(** A path argument: a string, or an array of segments. *)
Inductive pathlike :=
| PStr (s : string)
| PSegs (l : list string).

(** ** Computations that mutate the state and may throw *)

Inductive outcome (A : Type) :=
| Ok (a : A)
| Throw.
Arguments Ok {A} a.
Arguments Throw {A}.

Definition M (A : Type) : Type := Vfs → outcome A * Vfs.

Definition ret {A} (a : A) : M A := λ s, (Ok a, s).
Definition throw {A} : M A := λ s, (Throw, s).
Definition bind {A B} (m : M A) (k : A → M B) : M B :=
  λ s, match m s with
       | (Ok a, s') => k a s'
       | (Throw, s') => (Throw, s')
       end.
(** A computation that only reads the state. *)
Definition gets {A} (f : Vfs → outcome A) : M A := λ s, (f s, s).
(** [try { m } catch (e) { return false }]. *)
Definition try_catch (m : M jsval) : M jsval :=
  λ s, match m s with
       | (Ok a, s') => (Ok a, s')
       | (Throw, s') => (Ok VFalse, s')
       end.

#[global] Instance M_ret : MRet M := @ret.
#[global] Instance M_bind : MBind M := λ A B k m, bind m k.

Definition set_heap (h : list VfsNode) (s : Vfs) : Vfs :=
  mkVfs (node_id s) (root s) (mount_points s) h (requests s).

(** Dereference: a reference always denotes a live object, so an address
    outside the store does not arise; the model maps it to [Throw]. *)
Definition read (p : ptr) : M VfsNode :=
  λ s, match heap s !! p with
       | Some n => (Ok n, s)
       | None => (Throw, s)
       end.

Definition modify (p : ptr) (f : VfsNode → VfsNode) : M () :=
  λ s, match heap s !! p with
       | Some n => (Ok (), set_heap (<[p := f n]> (heap s)) s)
       | None => (Throw, s)
       end.

(** Property access [v.metadata], [v._children] on something that is not a
    node yields [undefined] or throws; every use in the code then throws. *)
Definition as_node (v : jsval) : M ptr :=
  match v with
  | VNode p => ret p
  | _ => throw
  end.

Definition set_metadata (m : gmap string mval) (n : VfsNode) : VfsNode :=
  mkNode (name n) m (parent n) (_children n).
Definition set_parent (q : option ptr) (n : VfsNode) : VfsNode :=
  mkNode (name n) (metadata n) q (_children n).
Definition set_children (o : JsObject.t) (n : VfsNode) : VfsNode :=
  mkNode (name n) (metadata n) (parent n) o.

(** [this.node_id++]. *)
Definition next_id : M N :=
  λ s, (Ok (node_id s),
        mkVfs (N.succ (node_id s)) (root s) (mount_points s) (heap s)
              (requests s)).

(** [new VfsNode(name, metadata)]. *)
Definition new_VfsNode (nm : string) (md : gmap string mval) : M ptr :=
  λ s, (Ok (length (heap s)), set_heap (heap s ++ [mkNode nm md None []]) s).

(** ** The functions of [Vfs.js] *)

Definition normalize_path (path : pathlike) : list string :=
  match path with
  | PStr s => filter (λ seg, String.length seg ≠ 0) (JsString.split "/" s)
  | PSegs l => l
  end.

(** [new Vfs()]. *)
Definition new_Vfs : Vfs :=
  mkVfs 1 0 [] [mkNode "" {[ "id" := MNum 0 ]} None []] [].

(** One turn of the loop of [_push]. *)
Definition push_step (segment : string) (cnode : jsval) : M jsval :=
  p ← as_node cnode;
  n ← read p;
  (if negb (JsObject.has (_children n) segment) then
     i ← next_id;
     c ← new_VfsNode segment {[ "id" := MNum i; "type" := MStr "folder" ]};
     modify p (λ n, set_children (JsObject.set (_children n) segment c) n);;
     modify c (set_parent (Some p))
   else ret ());;
  n' ← read p;
  ret (get_property (_children n') segment).

Fixpoint push_loop (segments : list string) (cnode : jsval) : M jsval :=
  match segments with
  | [] => ret cnode
  | segment :: rest => cnode' ← push_step segment cnode; push_loop rest cnode'
  end.

Definition _push (mount : jsval) (segments : pathlike)
    (md : gmap string mval) : M jsval :=
  cnode ← push_loop (normalize_path segments) mount;
  p ← as_node cnode;
  modify p (λ n, set_metadata
                   (Object_assign (metadata n) [ {[ "type" := MStr "file" ]}; md ]) n);;
  ret cnode.

(** [_open] only reads the store. *)
Definition children_of (h : list VfsNode) (v : jsval) : outcome JsObject.t :=
  match v with
  | VNode p => match h !! p with
               | Some n => Ok (_children n)
               | None => Throw
               end
  | _ => Throw
  end.

Fixpoint open_loop (h : list VfsNode) (segments : list string)
    (cnode : jsval) : outcome jsval :=
  match segments with
  | [] => Ok cnode
  | segment :: rest =>
      match children_of h cnode with
      | Ok o =>
          if negb (JsObject.has o segment) then Ok VNull
          else open_loop h rest (get_property o segment)
      | Throw => Throw
      end
  end.

Definition _open (h : list VfsNode) (mount : jsval) (segments : pathlike) :
    outcome jsval :=
  open_loop h (normalize_path segments) mount.

Definition open (s : Vfs) (segments : pathlike) : outcome jsval :=
  _open (heap s) (VNode (root s)) segments.

Fixpoint outcome_map {A B} (f : A → outcome B) (l : list A) :
    outcome (list B) :=
  match l with
  | [] => Ok []
  | x :: l' =>
      match f x, outcome_map f l' with
      | Ok y, Ok ys => Ok (y :: ys)
      | _, _ => Throw
      end
  end.

(** [node.name]. *)
Definition name_of (h : list VfsNode) (v : jsval) : outcome string :=
  match v with
  | VNode p => match h !! p with
               | Some n => Ok (name n)
               | None => Throw
               end
  | _ => Throw
  end.

(** [Array.from(n.children())]: the generator reads [this._children[cname]]
    for each own property name. *)
Definition children (n : VfsNode) : list jsval :=
  get_property (_children n) <$> JsObject.getOwnPropertyNames (_children n).

(** [Array.from(n.children()).map(node => node.name)]. *)
Definition child_names (h : list VfsNode) (n : VfsNode) : outcome (list string) :=
  outcome_map (name_of h) (children n).

(** [ls]: [None] is [null]; [cnode == null] also holds of [undefined], and
    anything else that is not a node has no method [children]. *)
Definition ls (s : Vfs) (segments : pathlike) : outcome (option (list string)) :=
  match open s segments with
  | Throw => Throw
  | Ok VNull | Ok VUndefined => Ok None
  | Ok (VNode p) =>
      match heap s !! p with
      | Some n =>
          match child_names (heap s) n with
          | Ok names => Ok (Some names)
          | Throw => Throw
          end
      | None => Throw
      end
  | Ok VFalse | Ok (VBuiltin _) => Throw
  end.

Fixpoint get_mount_loop (mps : list MountPoint) (path : string) :
    option MountPoint * string :=
  match mps with
  | [] => (None, path)
  | mount_point :: mps' =>
      if JsString.startsWith (mp_path mount_point) path then
        (Some mount_point, JsString.slice (String.length (mp_path mount_point)) path)
      else get_mount_loop mps' path
  end.

Definition get_mount (s : Vfs) (path : string) : option MountPoint * string :=
  get_mount_loop (mount_points s) path.

(** *** MemFS mounts *)

Definition _mkdir_memfs (root : jsval) (path : pathlike) : M jsval :=
  _push root path {[ "type" := MStr "folder" ]}.

Definition _write_file_memfs (root : jsval) (path : pathlike) (blob : Blob) :
    M jsval :=
  _push root path {[ "type" := MStr "file"; "blob" := MBlob blob ]}.

(** *** Local mounts *)

Definition push_mount (mp : MountPoint) : M () :=
  λ s, (Ok (), mkVfs (node_id s) (root s) (mount_points s ++ [mp]) (heap s)
                     (requests s)).

Definition handle_value (o : option handle) : mval :=
  match o with
  | Some h => MHandle h
  | None => MUndefined
  end.

(** [fileOpen] is what [FS.fileOpen()] resolves to, [None] when it rejects. *)
Definition mount_local_file (path : string) (fileOpen : option Blob) : M jsval :=
  try_catch (
    _root ← gets (λ s, open s (PStr path));
    blob ← from_option ret throw fileOpen;
    mount_node ← _push _root (PStr (blob_name blob))
                   {[ "blob" := MBlob blob; "type" := MStr "file" ]};
    push_mount (mkMount "local" (path +:+ "/" +:+ blob_name blob) mount_node);;
    ret mount_node).

(** The loop of [mount_local_folder]; it yields [last_path].  A blob without
    [webkitRelativePath] makes [_push] iterate over [undefined], which
    throws; a terminal node without parent makes [node.parent.metadata]
    throw. *)
Fixpoint mount_folder_loop (_root : jsval) (blobs : list Blob)
    (last_path : option string) : M (option string) :=
  match blobs with
  | [] => ret last_path
  | blob :: blobs' =>
      match webkitRelativePath blob with
      | None => throw
      | Some rel =>
          node ← _push _root (PStr rel) {[ "blob" := MBlob blob ]};
          p ← as_node node;
          n ← read p;
          q ← from_option ret throw (parent n);
          modify q (λ pn, set_metadata
                      (Object_assign (metadata pn)
                         [ {[ "directoryHandle" := handle_value (directoryHandle blob) ]} ])
                      pn);;
          mount_folder_loop _root blobs' (Some rel)
      end
  end.

(** [directoryOpen] is what [FS.directoryOpen({recursive: true})] resolves
    to, [None] when it rejects.  A missing [root_name] is [undefined], which
    as a property key and in a concatenation reads ["undefined"]. *)
Definition mount_local_folder (path : string)
    (directoryOpen : option (list Blob)) : M jsval :=
  try_catch (
    _root ← gets (λ s, open s (PStr path));
    blobs ← from_option ret throw directoryOpen;
    last_path ← mount_folder_loop _root blobs None;
    match last_path with
    | None => ret VFalse
    | Some lp =>
        let root_name := default "undefined" (head (normalize_path (PStr lp))) in
        p ← as_node _root;
        n ← read p;
        let mount_node := get_property (_children n) root_name in
        push_mount (mkMount "local" (path +:+ "/" +:+ root_name) mount_node);;
        ret mount_node
    end).

(** [pdir && pdir.metadata.directoryHandle], with the node it was read
    from; [None] when the conjunction is falsy. *)
Definition handle_at (h : list VfsNode) (pdir : jsval) :
    outcome (option (mval * ptr)) :=
  match pdir with
  | VUndefined | VNull | VFalse => Ok None
  | VBuiltin _ => Throw
  | VNode p =>
      match h !! p with
      | Some n =>
          match metadata n !! "directoryHandle" with
          | Some v => if truthy v then Ok (Some (v, p)) else Ok None
          | None => Ok None
          end
      | None => Throw
      end
  end.

(** The loop of [_closest_directory_handler_local].  The array [segments]
    is held in reverse, so that [segments.pop()] takes its head;
    [to_create.push] appends. *)
Fixpoint closest_loop (h : list VfsNode) (mount : jsval)
    (rsegments to_create : list string) :
    outcome (option (mval * ptr * list string)) :=
  match _open h mount (PSegs (rev rsegments)) with
  | Throw => Throw
  | Ok pdir =>
      match handle_at h pdir with
      | Throw => Throw
      | Ok (Some (handler, p)) => Ok (Some (handler, p, rev to_create))
      | Ok None =>
          match rsegments with
          | [] => Ok None
          | seg :: rsegments' =>
              closest_loop h mount rsegments' (to_create ++ [seg])
          end
      end
  end.

(** [None] is the triple [[null, null, null]]. *)
Definition _closest_directory_handler_local (h : list VfsNode) (mount : jsval)
    (path : pathlike) : outcome (option (mval * ptr * list string)) :=
  closest_loop h mount (rev (normalize_path path)) [].

Definition _write_file_local (mount : MountPoint) (path : pathlike)
    (blob : Blob) : M jsval :=
  found ← gets (λ s, _closest_directory_handler_local (heap s) (mp_root mount) path);
  match found with
  | None => ret VNull
  | Some (handler, node, rest) =>
      _push (VNode node) (PSegs rest) {[ "type" := MStr "file" ]};;
      ret VUndefined
  end.

(** [metadata || "plain/text"]. *)
Definition type_option (md : option string) : string :=
  match md with
  | Some t => if String.eqb t "" then "plain/text" else t
  | None => "plain/text"
  end.

(** The [type] of [new Blob([content], { type: metadata || "plain/text" })]. *)
Definition blob_type_option (md : option string) : string :=
  Blob_type (type_option md).

Definition write_file (path file_name content : string)
    (md : option string) : M jsval :=
  λ s, let blob := mkBlob content (blob_type_option md) file_name None None in
       match get_mount s path with
       | (None, rest) => _write_file_memfs (VNode (root s)) (PStr rest) blob s
       | (Some mount_point, rest) =>
           if String.eqb (mp_type mount_point) "local" then
             _write_file_local mount_point (PStr rest) blob s
           else (Ok VUndefined, s)
       end.

Section Provider.

(** The storage provider: the answer to a request, given the requests made
    before it; [None] when the promise rejects. *)
Variable provider : list Request → Request → option handle.

(** [await handler.getDirectoryHandle(nm, {create})]. *)
Definition getDirectoryHandle (handler : mval) (nm : string) (create : bool) :
    M handle :=
  λ s, match handler with
       | MHandle h =>
           let r := mkRequest h nm create in
           let s' := mkVfs (node_id s) (root s) (mount_points s) (heap s)
                           (requests s ++ [r]) in
           match provider (requests s) r with
           | Some h' => (Ok h', s')
           | None => (Throw, s')
           end
       | _ => (Throw, s)
       end.

Fixpoint mkdir_local_loop (rest : list string) (handler : mval)
    (node : jsval) : M jsval :=
  match rest with
  | [] => ret node
  | pdir :: rest' =>
      new_handler ← getDirectoryHandle handler pdir true;
      p ← as_node node;
      n ← read p;
      let node' := get_property (_children n) pdir in
      q ← as_node node';
      modify q (λ n, set_metadata
                       (<[ "directoryHandle" := MHandle new_handler ]> (metadata n)) n);;
      mkdir_local_loop rest' (MHandle new_handler) node'
  end.

Definition _mkdir_local (mount : MountPoint) (path : pathlike) : M jsval :=
  found ← gets (λ s, _closest_directory_handler_local (heap s) (mp_root mount) path);
  match found with
  | None => ret VNull
  | Some (handler, node, rest) =>
      _push (VNode node) (PSegs rest) {[ "type" := MStr "folder" ]};;
      mkdir_local_loop rest handler (VNode node)
  end.

Definition mkdir (path : string) : M jsval :=
  λ s, match get_mount s path with
       | (None, rest) => _mkdir_memfs (VNode (root s)) (PStr rest) s
       | (Some mount_point, rest) =>
           if String.eqb (mp_type mount_point) "local" then
             _mkdir_local mount_point (PStr rest) s
           else (Ok VUndefined, s)
       end.

(** *** Sequences of calls on one [Vfs]

    The mutating calls of the public interface, each with what the storage
    provider answers to it.  The calls run one after the other: an [async]
    method is run to completion before the next call starts.  [open] and
    [ls] only read the state. *)

Inductive op :=
| Mkdir (path : string)
| WriteFile (path file_name content : string) (md : option string)
| MountLocalFile (path : string) (fileOpen : option Blob)
| MountLocalFolder (path : string) (directoryOpen : option (list Blob)).

Definition step (o : op) : M jsval :=
  match o with
  | Mkdir path => mkdir path
  | WriteFile path file_name content md => write_file path file_name content md
  | MountLocalFile path fileOpen => mount_local_file path fileOpen
  | MountLocalFolder path directoryOpen => mount_local_folder path directoryOpen
  end.

Definition run (ops : list op) (s : Vfs) : Vfs :=
  foldl (λ s o, (step o s).2) s ops.

End Provider.

(** ** Notions used in the statements *)

(** [p] is a raw string prefix of [s]. *)
Definition string_prefix (p s : string) : Prop := ∃ r, s = p +:+ r.

(** The string of [n] slashes. *)
Fixpoint slashes (n : nat) : string :=
  match n with
  | O => EmptyString
  | S n' => String "/" (slashes n')
  end.

(** *** The elementary updates of the state

    Every mutation the code performs is one of four updates: a child node is
    created under a node, the [metadata] of a node is replaced, a mount
    point is registered, a request is sent to a directory handle. *)

Inductive label :=
| LCreate (p : ptr) (seg : string)
| LMeta (p : ptr) (old new : gmap string mval)
| LMount (mp : MountPoint)
| LRequest (r : Request).

(** The state after the first branch of the loop of [_push] has run at node
    [n], stored at [p], for the segment [seg]. *)
Definition create_child (p : ptr) (n : VfsNode) (seg : string) (s : Vfs) : Vfs :=
  mkVfs (N.succ (node_id s)) (root s) (mount_points s)
    (<[p := set_children (_children n ++ [(seg, length (heap s))]) n]> (heap s)
     ++ [mkNode seg {[ "id" := MNum (node_id s); "type" := MStr "folder" ]}
           (Some p) []])
    (requests s).

Definition add_mount (mp : MountPoint) (s : Vfs) : Vfs :=
  mkVfs (node_id s) (root s) (mount_points s ++ [mp]) (heap s) (requests s).

Definition add_request (r : Request) (s : Vfs) : Vfs :=
  mkVfs (node_id s) (root s) (mount_points s) (heap s) (requests s ++ [r]).

Inductive atomic : label → Vfs → Vfs → Prop :=
| atomic_create s p n seg :
    heap s !! p = Some n →
    JsObject.has (_children n) seg = false →
    atomic (LCreate p seg) s (create_child p n seg s)
| atomic_meta s p n m' :
    heap s !! p = Some n →
    atomic (LMeta p (metadata n) m') s
      (set_heap (<[p := set_metadata m' n]> (heap s)) s)
| atomic_mount s mp : atomic (LMount mp) s (add_mount mp s)
| atomic_request s r : atomic (LRequest r) s (add_request r s).

(** [s'] is reached from [s] by updates whose labels satisfy [L]. *)
Definition evolves (L : label → Prop) : relation Vfs :=
  rtc (λ s s', ∃ l, L l ∧ atomic l s s').

(** Every run of [m] relates the state before to the state after. *)
Definition respects (R : relation Vfs) {A} (m : M A) : Prop :=
  ∀ s, R s (m s).2.

Definition only_creates (l : label) : Prop :=
  match l with
  | LCreate _ _ => True
  | _ => False
  end.

(** The updates of [_push(_, _, md)]. *)
Definition push_labels (md : gmap string mval) (l : label) : Prop :=
  match l with
  | LCreate _ _ => True
  | LMeta _ old new => new = Object_assign old [ {[ "type" := MStr "file" ]}; md ]
  | _ => False
  end.

(** The updates of the loop of [_mkdir_local]: requests, and handles
    attached to nodes. *)
Definition attach_labels (l : label) : Prop :=
  match l with
  | LRequest _ => True
  | LMeta _ old new => ∃ h, new = <[ "directoryHandle" := MHandle h ]> old
  | _ => False
  end.

(** No update changes the [id] of a node. *)
Definition keeps_ids (l : label) : Prop :=
  match l with
  | LMeta _ old new => new !! "id" = old !! "id"
  | _ => True
  end.

(** *** Relations between a state and a later one *)

(** The nodes of [s] are still there in [s'], with their name and parent,
    and every property lookup that succeeded on their children gives the
    same result. *)
Definition persists (s s' : Vfs) : Prop :=
  ∀ p n, heap s !! p = Some n →
    ∃ n', heap s' !! p = Some n' ∧ name n' = name n ∧ parent n' = parent n ∧
          ∀ k, JsObject.has (_children n) k = true →
               JsObject.has (_children n') k = true ∧
               get_property (_children n') k = get_property (_children n) k.

(** [s'] has the nodes of [s] with their metadata, every further node is
    a folder without a handle, and no mount point or request is added. *)
Definition grows_by_folders (s s' : Vfs) : Prop :=
  requests s' = requests s ∧ mount_points s' = mount_points s ∧
  (∀ p n, heap s !! p = Some n →
     ∃ n', heap s' !! p = Some n' ∧ metadata n' = metadata n) ∧
  (∀ p n', heap s !! p = None → heap s' !! p = Some n' →
     metadata n' !! "type" = Some (MStr "folder") ∧
     metadata n' !! "directoryHandle" = None).

(** *** Well-formed states

    The children created under the node at [p], in order of creation: the
    store is in order of allocation. *)
Fixpoint created_from (i : nat) (h : list VfsNode) (p : ptr) :
    list (string * ptr) :=
  match h with
  | [] => []
  | n :: h' =>
      (if decide (parent n = Some p) then [(name n, i)] else [])
      ++ created_from (S i) h' p
  end.

Definition created_under (h : list VfsNode) (p : ptr) : list (string * ptr) :=
  created_from 0 h p.

(** What holds of every state that a sequence of calls reaches from
    [new Vfs()]. *)
Record wf (s : Vfs) : Prop := mk_wf {
  wf_counter : node_id s = N.of_nat (length (heap s));
  wf_ids : ∀ p n, heap s !! p = Some n →
                  metadata n !! "id" = Some (MNum (N.of_nat p));
  wf_children : ∀ p n, heap s !! p = Some n →
                       _children n = created_under (heap s) p;
  wf_nodup : ∀ p n, heap s !! p = Some n → NoDup (_children n).*1;
  wf_parent : ∀ p n q, heap s !! p = Some n → parent n = Some q → q < p;
  wf_root : root s = 0 ∧ is_Some (heap s !! 0)
}.

(** *** Handles on the walk to a target *)

(** [v] is a node that carries a [directoryHandle] (a truthy one). *)
Definition carries_handle (h : list VfsNode) (v : jsval) : bool :=
  match v with
  | VNode p =>
      match h !! p with
      | Some n =>
          match metadata n !! "directoryHandle" with
          | Some x => truthy x
          | None => false
          end
      | None => false
      end
  | _ => false
  end.



(** *** The handles granted to [_mkdir_local] *)

(** The handles the provider grants when it is asked to create the
    segments one after the other, the first under [h] and each further one
    under the handle granted before; [None] when it rejects one of the
    requests.  [log] is the list of the requests made so far. *)
Fixpoint grants (provider : list Request → Request → option handle)
    (log : list Request) (h : handle) (segs : list string) :
    option (list handle) :=
  match segs with
  | [] => Some []
  | seg :: segs' =>
      match provider log (mkRequest h seg true) with
      | Some h' =>
          (h' ::.) <$> grants provider (log ++ [mkRequest h seg true]) h' segs'
      | None => None
      end
  end.

(** The requests of that chain. *)
Fixpoint chain_requests (h : handle) (segs : list string) (hs : list handle) :
    list Request :=
  match segs, hs with
  | seg :: segs', h' :: hs' => mkRequest h seg true :: chain_requests h' segs' hs'
  | _, _ => []
  end.

(** The nodes met when descending from the node at [p] along [segs]
    through own properties. *)
Fixpoint walk (h : list VfsNode) (p : ptr) (segs : list string) :
    option (list ptr) :=
  match segs with
  | [] => Some []
  | seg :: segs' =>
      match h !! p with
      | Some n =>
          match JsObject.own (_children n) seg with
          | Some c => (c ::.) <$> walk h c segs'
          | None => None
          end
      | None => None
      end
  end.

(** *** The [path] of a node *)

(** The loop of [get path()]: it follows [parent] until it is [null] and
    pushes the names met.  [fuel] bounds the number of turns; [None] means
    that it ran out. *)
Fixpoint path_loop (fuel : nat) (h : list VfsNode) (cnode : VfsNode)
    (names : list string) : option (outcome (list string)) :=
  match parent cnode with
  | None => Some (Ok names)
  | Some q =>
      match fuel with
      | O => None
      | S fuel' =>
          match h !! q with
          | Some pn => path_loop fuel' h pn (names ++ [name pn])
          | None => Some Throw
          end
      end
  end.

(** [get path()] of the node at [p]: [names.reverse().join("/")]. *)
Definition node_path (fuel : nat) (h : list VfsNode) (p : ptr) :
    option (outcome string) :=
  match h !! p with
  | Some n =>
      match path_loop fuel h n [name n] with
      | Some (Ok names) => Some (Ok (String.concat "/" (rev names)))
      | Some Throw => Some Throw
      | None => None
      end
  | None => Some Throw
  end.

(** [s] has no code unit ["/"]. *)
Fixpoint slash_free (s : string) : bool :=
  match s with
  | EmptyString => true
  | String c r => negb (Ascii.eqb c "/") && slash_free r
  end.

(** *** Classes of updates *)

(** Updates of the tree alone. *)
Definition tree_only (l : label) : Prop :=
  match l with
  | LCreate _ _ | LMeta _ _ _ => True
  | _ => False
  end.

(** No mount point is registered. *)
Definition no_mount (l : label) : Prop :=
  match l with
  | LMount _ => False
  | _ => True
  end.

(** No request is sent, and a mount point registered is of type [local]. *)
Definition quiet_local (l : label) : Prop :=
  match l with
  | LRequest _ => False
  | LMount mp => mp_type mp = "local"
  | _ => True
  end.

(** A mount point registered is of type [local]. *)
Definition local_mounts (l : label) : Prop :=
  match l with
  | LMount mp => mp_type mp = "local"
  | _ => True
  end.

(** The [type] written to a node is the one it had, ["file"] or
    ["folder"]; a request sent asks to create the directory. *)
Definition orderly (l : label) : Prop :=
  match l with
  | LMeta _ old new =>
      new !! "type" = old !! "type" ∨
      new !! "type" = Some (MStr "file") ∨
      new !! "type" = Some (MStr "folder")
  | LRequest r => req_create r = true
  | _ => True
  end.

(** ** Strings *)

Lemma startsWith_prefix p s :
  JsString.startsWith p s = true ↔ string_prefix p s.
Proof.
  revert s. induction p as [|a p IH]; intros s; simpl.
  - split; [intros _; by exists s | done].
  - destruct s as [|b s].
    + split; [done | intros [r Hr]; discriminate Hr].
    + rewrite andb_true_iff, IH. split.
      * intros [Hab [r ->]]. apply Ascii.eqb_eq in Hab as ->. by exists r.
      * intros [r Hr]. simpl in Hr. injection Hr as -> ->.
        split; [apply Ascii.eqb_refl | by exists r].
Qed.

Lemma slice_append p r : JsString.slice (String.length p) (p +:+ r) = r.
Proof. induction p as [|a p IH]; simpl; [by destruct r | done]. Qed.

Lemma get_mount_loop_spec mps path :
  match get_mount_loop mps path with
  | (Some mp, rest) =>
      ∃ before after,
        mps = before ++ mp :: after ∧
        Forall (λ m, ¬ string_prefix (mp_path m) path) before ∧
        path = mp_path mp +:+ rest
  | (None, rest) =>
      rest = path ∧ Forall (λ m, ¬ string_prefix (mp_path m) path) mps
  end.
Proof.
  induction mps as [|m mps IH]; simpl; [done|].
  destruct (JsString.startsWith (mp_path m) path) eqn:E.
  - apply startsWith_prefix in E as [r ->].
    exists [], mps. by rewrite slice_append.
  - assert (¬ string_prefix (mp_path m) path) as Hm.
    { intros H%startsWith_prefix. congruence. }
    destruct (get_mount_loop mps path) as [[mp|] rest].
    + destruct IH as (before & after & -> & Hb & Hp).
      exists (m :: before), after. by repeat constructor.
    + destruct IH as [-> Hall]. by repeat constructor.
Qed.

Lemma split_slashes n :
  filter (λ seg, String.length seg ≠ 0) (JsString.split "/" (slashes n)) = [].
Proof.
  induction n as [|n IH]; simpl; [done|].
  rewrite filter_cons_False; [done | simpl; lia].
Qed.

Lemma normalize_slashes n : normalize_path (PStr (slashes n)) = [].
Proof. apply split_slashes. Qed.

(** C3: [get_mount] scans the mount points in registration order and
    returns the first one whose path is a raw string prefix of the query,
    with the query minus that prefix; when no mount point matches it returns
    no mount and the query itself.  With a single mount point at [/docs],
    the query [/docs/readme] yields that mount and [/readme], and the query
    [/docset] matches the same mount. *)
Theorem get_mount_first_raw_prefix :
  (∀ s path,
     match get_mount s path with
     | (Some mp, rest) =>
         ∃ before after,
           mount_points s = before ++ mp :: after ∧
           Forall (λ m, ¬ string_prefix (mp_path m) path) before ∧
           path = mp_path mp +:+ rest
     | (None, rest) =>
         rest = path ∧
         Forall (λ m, ¬ string_prefix (mp_path m) path) (mount_points s)
     end) ∧
  (∀ i r h reqs ty v,
     let docs := mkMount ty "/docs" v in
     let s := mkVfs i r [docs] h reqs in
     get_mount s "/docs/readme" = (Some docs, "/readme") ∧
     get_mount s "/docset" = (Some docs, "et")).
Proof.
  split; [intros s path; apply get_mount_loop_spec | done].
Qed.

(** ** The monad *)

Section Respects.

Context (R : relation Vfs) `{!PreOrder R}.

Lemma respects_ret {A} (a : A) : respects R (mret a).
Proof. intros s. simpl. reflexivity. Qed.

Lemma respects_throw {A} : respects R (@throw A).
Proof. intros s. simpl. reflexivity. Qed.

Lemma respects_gets {A} (f : Vfs → outcome A) : respects R (gets f).
Proof. intros s. simpl. reflexivity. Qed.

Lemma respects_read p : respects R (read p).
Proof. intros s. unfold read. destruct (heap s !! p); simpl; reflexivity. Qed.

Lemma respects_as_node v : respects R (as_node v).
Proof. intros s. destruct v; simpl; reflexivity. Qed.

Lemma respects_from_option {A} (o : option A) :
  respects R (from_option mret throw o).
Proof. intros s. destruct o; simpl; reflexivity. Qed.

Lemma respects_bind {A B} (m : M A) (k : A → M B) :
  respects R m → (∀ a, respects R (k a)) → respects R (m ≫= k).
Proof.
  intros Hm Hk s. unfold mbind, M_bind, bind.
  specialize (Hm s). destruct (m s) as [[a|] s1]; simpl in *; [|done].
  etrans; [exact Hm | apply Hk].
Qed.

Lemma respects_try_catch m : respects R m → respects R (try_catch m).
Proof.
  intros Hm s. unfold try_catch. specialize (Hm s).
  by destruct (m s) as [[a|] s1].
Qed.

End Respects.

#[global] Instance evolves_preorder L : PreOrder (evolves L).
Proof. apply _. Qed.

(** [respects_walk] goes through the binds and the case distinctions of a
    computation and discharges the steps that leave the state alone; what
    remains are the steps that update it. *)
Ltac respects_pure :=
  first [ apply respects_ret, _ | apply respects_throw, _
        | apply respects_gets, _ | apply respects_read, _
        | apply respects_as_node, _ | apply respects_from_option, _ ].

Ltac respects_walk :=
  repeat lazymatch goal with
    | |- respects _ (try_catch _) => apply respects_try_catch
    | |- respects _ (_ ≫= _) =>
        apply respects_bind; [apply _ | try respects_pure | intro; cbv beta]
    | |- respects _ (mret _) => apply respects_ret, _
    | |- respects _ (ret _) => apply respects_ret, _
    | |- respects _ throw => apply respects_throw, _
    | |- respects _ (match ?x with _ => _ end) => is_var x; destruct x
    end.

Lemma evolves_once (L : label → Prop) l s s' :
  L l → atomic l s s' → evolves L s s'.
Proof. intros Hl Ha. apply rtc_once. eauto. Qed.

Lemma evolves_weaken (L L' : label → Prop) s s' :
  (∀ l, L l → L' l) → evolves L s s' → evolves L' s s'.
Proof.
  intros HL. induction 1 as [|s1 s2 s3 (l & Hl & Ha) _ IH]; [done|].
  eapply rtc_l; [|exact IH]. eauto.
Qed.

Lemma respects_weaken (L L' : label → Prop) {A} (m : M A) :
  (∀ l, L l → L' l) → respects (evolves L) m → respects (evolves L') m.
Proof. intros HL Hm s. eapply evolves_weaken; [exact HL | apply Hm]. Qed.

(** ** [_push] *)

Lemma own_None_set o k v :
  JsObject.own o k = None → JsObject.set o k v = o ++ [(k, v)].
Proof.
  induction o as [|[k' v'] o IH]; simpl; [done|].
  destruct (String.eqb k' k); [done|]. intros H. by rewrite IH.
Qed.

Lemma own_app o o' k :
  JsObject.own (o ++ o') k =
  match JsObject.own o k with
  | Some v => Some v
  | None => JsObject.own o' k
  end.
Proof.
  induction o as [|[k' v'] o IH]; simpl; [done|].
  by destruct (String.eqb k' k).
Qed.

Lemma has_false_own o k : JsObject.has o k = false →
  JsObject.own o k = None ∧ JsObject.inherited k = false.
Proof. unfold JsObject.has. by destruct (JsObject.own o k). Qed.

Lemma read_eq p s n : heap s !! p = Some n → read p s = (Ok n, s).
Proof. unfold read. by intros ->. Qed.

Lemma modify_eq p f s n :
  heap s !! p = Some n →
  modify p f s = (Ok (), set_heap (<[p := f n]> (heap s)) s).
Proof. unfold modify. by intros ->. Qed.

(** One turn of the loop either descends without touching the state or
    creates the child and descends into it. *)
Lemma push_step_eq seg cnode s :
  push_step seg cnode s =
  match cnode with
  | VNode p =>
      match heap s !! p with
      | Some n =>
          if JsObject.has (_children n) seg
          then (Ok (get_property (_children n) seg), s)
          else (Ok (VNode (length (heap s))), create_child p n seg s)
      | None => (Throw, s)
      end
  | _ => (Throw, s)
  end.
Proof.
  unfold push_step, mbind, M_bind, bind.
  destruct cnode as [| | |p|]; try done. simpl.
  unfold read at 1. destruct (heap s !! p) as [n|] eqn:Hp; [|done].
  destruct (JsObject.has (_children n) seg) eqn:Hhas; simpl.
  { unfold read. by rewrite Hp. }
  apply has_false_own in Hhas as [Hown Hinh].
  pose proof (lookup_lt_Some _ _ _ Hp) as Hlt.
  set (new := mkNode seg _ None []).
  set (s1 := set_heap _ _).
  assert (heap s1 = heap s ++ [new]) as Hs1 by done.
  erewrite modify_eq.
  2:{ rewrite Hs1. rewrite lookup_app_l by done. exact Hp. }
  rewrite Hs1. rewrite own_None_set by done. rewrite insert_app_l by done.
  set (n' := set_children _ n).
  erewrite modify_eq.
  2:{ simpl. rewrite lookup_app_r by (rewrite length_insert; lia).
      rewrite length_insert, Nat.sub_diag. done. }
  simpl. erewrite read_eq.
  2:{ simpl. rewrite insert_app_r_alt by (rewrite length_insert; lia).
      rewrite lookup_app_l by (rewrite length_insert; lia).
      by apply list_lookup_insert_eq. }
  simpl. unfold get_property. rewrite own_app, Hown. simpl.
  rewrite String.eqb_refl.
  unfold create_child, set_heap. simpl. f_equal. f_equal.
  rewrite insert_app_r_alt by (rewrite length_insert; lia).
  by rewrite length_insert, Nat.sub_diag.
Qed.

Lemma lookup_union_first (m1 m2 : gmap string mval) k :
  (m1 ∪ m2) !! k = match m1 !! k with
                   | Some v => Some v
                   | None => m2 !! k
                   end.
Proof. rewrite lookup_union. by destruct (m1 !! k), (m2 !! k). Qed.

Lemma Object_assign_lookup old a md k :
  Object_assign old [a; md] !! k =
  match md !! k with
  | Some v => Some v
  | None => match a !! k with
            | Some v => Some v
            | None => old !! k
            end
  end.
Proof. unfold Object_assign. simpl. by rewrite !lookup_union_first. Qed.

Lemma respects_push_step seg cnode :
  respects (evolves only_creates) (push_step seg cnode).
Proof.
  intros s. rewrite push_step_eq.
  destruct cnode as [| | |p|]; try reflexivity.
  destruct (heap s !! p) as [n|] eqn:Hp; [|reflexivity].
  destruct (JsObject.has (_children n) seg) eqn:Hhas; [reflexivity|].
  simpl. eapply evolves_once; [|by apply atomic_create]. done.
Qed.

Lemma respects_push_loop segs cnode :
  respects (evolves only_creates) (push_loop segs cnode).
Proof.
  revert cnode. induction segs as [|seg segs IH]; intros cnode; simpl.
  - apply respects_ret, _.
  - apply respects_bind; [apply _ | apply respects_push_step | done].
Qed.

Lemma respects_modify_metadata (L : label → Prop) p g :
  (∀ old, L (LMeta p old (g old))) →
  respects (evolves L) (modify p (λ n, set_metadata (g (metadata n)) n)).
Proof.
  intros HL s. unfold modify.
  destruct (heap s !! p) as [n|] eqn:Hp; [|reflexivity].
  simpl. eapply evolves_once; [apply HL | by apply atomic_meta].
Qed.

Lemma respects_push mount segments md :
  respects (evolves (push_labels md)) (_push mount segments md).
Proof.
  unfold _push. respects_walk.
  - eapply respects_weaken; [|apply respects_push_loop]. by intros [].
  - by apply (respects_modify_metadata _ _
                (λ old, Object_assign old [ {[ "type" := MStr "file" ]}; md ])).
Qed.

Lemma push_labels_keep_ids md l :
  md !! "id" = None → push_labels md l → keeps_ids l.
Proof.
  intros Hmd. destruct l as [| p old new | |]; cbn [push_labels keeps_ids]; try done.
  intros ->. by rewrite Object_assign_lookup, Hmd.
Qed.

Lemma respects_push_ids mount segments md :
  md !! "id" = None →
  respects (evolves keeps_ids) (_push mount segments md).
Proof.
  intros Hmd. eapply respects_weaken; [|apply respects_push].
  intros l. by apply push_labels_keep_ids.
Qed.

Lemma respects_push_mount L mp :
  L (LMount mp) → respects (evolves L) (push_mount mp).
Proof. intros HL s. simpl. eapply evolves_once; [exact HL | constructor]. Qed.

Lemma respects_mount_local_file path fileOpen :
  respects (evolves keeps_ids) (mount_local_file path fileOpen).
Proof.
  unfold mount_local_file. respects_walk.
  - by apply respects_push_ids.
  - by apply respects_push_mount.
Qed.

Lemma respects_mount_folder_loop _root blobs last_path :
  respects (evolves keeps_ids) (mount_folder_loop _root blobs last_path).
Proof.
  revert last_path. induction blobs as [|blob blobs IH]; intros last_path; simpl.
  { apply respects_ret, _. }
  destruct (webkitRelativePath blob) as [rel|]; respects_walk.
  - by apply respects_push_ids.
  - apply (respects_modify_metadata _ _
             (λ old, Object_assign old
                       [ {[ "directoryHandle" := handle_value (directoryHandle blob) ]} ])).
    intros old. simpl. unfold Object_assign. simpl.
    by rewrite lookup_union_first.
  - apply IH.
Qed.

Lemma respects_mount_local_folder path directoryOpen :
  respects (evolves keeps_ids) (mount_local_folder path directoryOpen).
Proof.
  unfold mount_local_folder. respects_walk.
  - apply respects_mount_folder_loop.
  - by apply respects_push_mount.
Qed.

Lemma respects_write_file_local mount path blob :
  respects (evolves (push_labels {[ "type" := MStr "file" ]}))
    (_write_file_local mount path blob).
Proof.
  unfold _write_file_local. respects_walk. apply respects_push.
Qed.

Lemma respects_write_file path file_name content md :
  respects (evolves keeps_ids) (write_file path file_name content md).
Proof.
  intros s. unfold write_file.
  destruct (get_mount s path) as [[mp|] rest].
  - destruct (String.eqb (mp_type mp) "local"); [|reflexivity].
    eapply evolves_weaken; [|apply respects_write_file_local].
    intros l. by apply push_labels_keep_ids.
  - by apply respects_push_ids.
Qed.

Section ProviderRespects.

Variable provider : list Request → Request → option handle.

Lemma respects_getDirectoryHandle L handler nm create :
  (∀ r, L (LRequest r)) →
  respects (evolves L) (getDirectoryHandle provider handler nm create).
Proof.
  intros HL s. unfold getDirectoryHandle.
  destruct handler as [| | |h|]; try reflexivity.
  assert (evolves L s (add_request (mkRequest h nm create) s)) as H.
  { eapply evolves_once; [apply HL | constructor]. }
  by destruct (provider _ _).
Qed.

Lemma respects_mkdir_local_loop rest handler node :
  respects (evolves attach_labels)
    (mkdir_local_loop provider rest handler node).
Proof.
  revert handler node.
  induction rest as [|pdir rest IH]; intros handler node; simpl.
  { apply respects_ret, _. }
  respects_walk.
  - by apply respects_getDirectoryHandle.
  - apply (respects_modify_metadata _ _
             (λ old, <[ "directoryHandle" := MHandle _ ]> old)).
    intros old. by eexists.
  - apply IH.
Qed.

Lemma attach_labels_keep_ids l : attach_labels l → keeps_ids l.
Proof.
  destruct l as [| p old new | |]; simpl; try done.
  intros [h ->]. by rewrite lookup_insert_ne.
Qed.

Lemma respects_mkdir_local mount path :
  respects (evolves keeps_ids) (_mkdir_local provider mount path).
Proof.
  unfold _mkdir_local. respects_walk.
  - by apply respects_push_ids.
  - eapply respects_weaken; [|apply respects_mkdir_local_loop].
    apply attach_labels_keep_ids.
Qed.

Lemma respects_mkdir path :
  respects (evolves keeps_ids) (mkdir provider path).
Proof.
  intros s. unfold mkdir.
  destruct (get_mount s path) as [[mp|] rest].
  - destruct (String.eqb (mp_type mp) "local"); [|reflexivity].
    apply respects_mkdir_local.
  - by apply respects_push_ids.
Qed.

Lemma respects_step o : respects (evolves keeps_ids) (step provider o).
Proof.
  destruct o; simpl.
  - apply respects_mkdir.
  - apply respects_write_file.
  - apply respects_mount_local_file.
  - apply respects_mount_local_folder.
Qed.

Lemma evolves_run ops s : evolves keeps_ids s (run provider ops s).
Proof.
  revert s. induction ops as [|o ops IH]; intros s; simpl; [reflexivity|].
  etrans; [apply respects_step | apply IH].
Qed.

End ProviderRespects.

(** ** Well-formed states *)

Lemma created_from_app i h h' p :
  created_from i (h ++ h') p =
  created_from i h p ++ created_from (i + length h) h' p.
Proof.
  revert i. induction h as [|n h IH]; intros i; simpl.
  - by rewrite Nat.add_0_r.
  - rewrite IH, <- app_assoc. do 3 f_equal. lia.
Qed.

Lemma created_from_insert i h q n n' p :
  h !! q = Some n → name n' = name n → parent n' = parent n →
  created_from i (<[q := n']> h) p = created_from i h p.
Proof.
  revert i q. induction h as [|m h IH]; intros i q Hq Hname Hpar; [done|].
  destruct q as [|q]; simpl in *.
  - injection Hq as ->. by rewrite Hname, Hpar.
  - f_equal. by apply IH.
Qed.

Lemma elem_of_created_from (i : nat) h p (k : string) (c : nat) :
  (k, c) ∈ created_from i h p ↔
  ∃ n, (i ≤ c)%nat ∧ h !! (c - i) = Some n ∧ name n = k ∧ parent n = Some p.
Proof.
  revert i. induction h as [|m h IH]; intros i; simpl.
  { split; [by intros ?%elem_of_nil | by intros (n & _ & ? & _)]. }
  rewrite elem_of_app, IH. split.
  - intros [H | (n & Hle & Hn & Hk & Hp)].
    + destruct (decide (parent m = Some p)) as [Hm|]; [|by apply elem_of_nil in H].
      apply list_elem_of_singleton in H. injection H as -> ->.
      exists m. by rewrite Nat.sub_diag.
    + exists n. split; [lia|]. split; [|done].
      replace (c - i) with (S (c - S i)) by lia. done.
  - intros (n & Hle & Hn & Hk & Hp).
    destruct (decide (c = i)) as [->|Hne].
    + left. rewrite Nat.sub_diag in Hn. injection Hn as ->.
      rewrite decide_True by done. rewrite Hk. by apply list_elem_of_singleton.
    + right. exists n. split; [lia|]. split; [|done].
      replace (c - i) with (S (c - S i)) in Hn by lia. done.
Qed.

Lemma elem_of_created_under h p (k : string) (c : nat) :
  (k, c) ∈ created_under h p ↔
  ∃ n, h !! c = Some n ∧ name n = k ∧ parent n = Some p.
Proof.
  unfold created_under. rewrite elem_of_created_from.
  rewrite Nat.sub_0_r. split.
  - intros (n & _ & H). by exists n.
  - intros (n & H). exists n. split; [lia | done].
Qed.

Lemma created_from_nil i h p :
  (∀ q n, h !! q = Some n → parent n ≠ Some p) → created_from i h p = [].
Proof.
  intros H. destruct (created_from i h p) as [|[k c] l] eqn:E; [done|].
  assert ((k, c) ∈ created_from i h p) as Hin by (rewrite E; left).
  apply elem_of_created_from in Hin as (n & _ & Hn & _ & Hp).
  by destruct (H _ _ Hn).
Qed.

Lemma own_None_keys (o : list (string * nat)) k :
  JsObject.own o k = None ↔ k ∉ o.*1.
Proof.
  induction o as [|[k' v] o IH]; simpl.
  - split; [intros _; apply not_elem_of_nil | done].
  - rewrite not_elem_of_cons. destruct (String.eqb k' k) eqn:E.
    + apply String.eqb_eq in E. subst k'. split; [done | by intros [? _]].
    + apply String.eqb_neq in E. rewrite IH.
      split; [intros H; split; [congruence | done] | by intros [_ H]].
Qed.

Lemma wf_new_Vfs : wf new_Vfs.
Proof.
  split; simpl.
  - done.
  - intros [|p] n H; [|done]. by injection H as <-.
  - intros [|p] n H; [|done]. by injection H as <-.
  - intros [|p] n H; [|done]. injection H as <-. constructor.
  - intros [|p] n q H; [|done]. by injection H as <-.
  - eauto.
Qed.

Lemma wf_create p n seg s :
  heap s !! p = Some n → JsObject.has (_children n) seg = false →
  wf s → wf (create_child p n seg s).
Proof.
  intros Hp Hhas [Hc Hi Hch Hnd Hpar [Hr0 Hr]].
  apply has_false_own in Hhas as [Hown _].
  pose proof (lookup_lt_Some _ _ _ Hp) as Hlt.
  set (n' := set_children (_children n ++ [(seg, length (heap s))]) n).
  set (new := mkNode seg {[ "id" := MNum (node_id s); "type" := MStr "folder" ]}
                (Some p) []).
  assert (∀ x m, (<[p := n']> (heap s) ++ [new]) !! x = Some m →
            (x = p ∧ m = n') ∨ (x ≠ p ∧ x < length (heap s) ∧ heap s !! x = Some m) ∨
            (x = length (heap s) ∧ m = new)) as Hcases.
  { intros x m Hx. apply lookup_app_Some in Hx as [Hx | [Hge Hx]].
    - destruct (decide (x = p)) as [->|Hne].
      + rewrite list_lookup_insert_eq in Hx by done. left. by injection Hx as <-.
      + rewrite list_lookup_insert_ne in Hx by done. right. left.
        split; [done|]. split; [|done]. by apply lookup_lt_Some in Hx.
    - rewrite length_insert in *. right. right.
      destruct (x - length (heap s)) as [|y] eqn:E; [|done].
      injection Hx as <-. split; [lia | done]. }
  assert (∀ x, created_under (<[p := n']> (heap s) ++ [new]) x =
               created_under (heap s) x
               ++ (if decide (Some p = Some x) then [(seg, length (heap s))] else []))
    as Hcu.
  { intros x. unfold created_under. rewrite created_from_app.
    erewrite created_from_insert by done. simpl.
    by rewrite length_insert, app_nil_r. }
  split; simpl.
  - rewrite length_app, length_insert. simpl. lia.
  - intros x m Hx. destruct (Hcases _ _ Hx) as [[-> ->] | [(_ & _ & Hx') | [-> ->]]].
    + simpl. by apply Hi.
    + by apply Hi.
    + simpl. rewrite lookup_insert_eq. by rewrite Hc.
  - intros x m Hx. rewrite Hcu.
    destruct (Hcases _ _ Hx) as [[-> ->] | [(Hne & _ & Hx') | [-> ->]]].
    + simpl. rewrite decide_True by done. f_equal. by apply Hch.
    + rewrite decide_False by congruence. rewrite app_nil_r. by apply Hch.
    + simpl. rewrite decide_False by (intros [= ->]; lia).
      rewrite app_nil_r. unfold created_under. symmetry.
      apply created_from_nil. intros q m Hq Hm.
      specialize (Hpar _ _ _ Hq Hm). apply lookup_lt_Some in Hq. lia.
  - intros x m Hx.
    destruct (Hcases _ _ Hx) as [[-> ->] | [(_ & _ & Hx') | [-> ->]]].
    + simpl. rewrite fmap_app. apply NoDup_app. split; [by eapply Hnd|].
      split; [|apply NoDup_singleton].
      intros k Hk ->%list_elem_of_singleton. by apply own_None_keys in Hown.
    + by eapply Hnd.
    + constructor.
  - intros x m q Hx Hq.
    destruct (Hcases _ _ Hx) as [[-> ->] | [(_ & _ & Hx') | [-> ->]]].
    + by eapply Hpar.
    + by eapply Hpar.
    + simpl in Hq. by injection Hq as <-.
  - split; [done|]. destruct Hr as [r Hr].
    destruct (decide (p = 0)) as [->|Hne].
    + exists n'. rewrite lookup_app_l by (rewrite length_insert; lia).
      by apply list_lookup_insert_eq.
    + exists r. rewrite lookup_app_l.
      * by rewrite list_lookup_insert_ne.
      * rewrite length_insert. by apply lookup_lt_Some in Hr.
Qed.

Lemma wf_meta p n m' s :
  heap s !! p = Some n → m' !! "id" = metadata n !! "id" →
  wf s → wf (set_heap (<[p := set_metadata m' n]> (heap s)) s).
Proof.
  intros Hp Hid [Hc Hi Hch Hnd Hpar [Hr0 Hr]].
  pose proof (lookup_lt_Some _ _ _ Hp) as Hlt.
  assert (∀ x m, <[p := set_metadata m' n]> (heap s) !! x = Some m →
            (x = p ∧ m = set_metadata m' n) ∨ heap s !! x = Some m) as Hcases.
  { intros x m Hx. destruct (decide (x = p)) as [->|Hne].
    - rewrite list_lookup_insert_eq in Hx by done. left. by injection Hx as <-.
    - rewrite list_lookup_insert_ne in Hx by done. by right. }
  split; simpl.
  - by rewrite length_insert.
  - intros x m Hx. destruct (Hcases _ _ Hx) as [[-> ->] | Hx'].
    + simpl. rewrite Hid. by apply Hi.
    + by apply Hi.
  - intros x m Hx.
    replace (created_under (<[p:=set_metadata m' n]> (heap s)) x)
      with (created_under (heap s) x)
      by (symmetry; by eapply created_from_insert).
    destruct (Hcases _ _ Hx) as [[-> ->] | Hx']; [exact (Hch _ _ Hp) | exact (Hch _ _ Hx')].
  - intros x m Hx.
    destruct (Hcases _ _ Hx) as [[-> ->] | Hx']; [exact (Hnd _ _ Hp) | by eapply Hnd].
  - intros x m q Hx.
    destruct (Hcases _ _ Hx) as [[-> ->] | Hx']; [exact (Hpar _ _ q Hp) | by eapply Hpar].
  - split; [done|]. apply lookup_lt_is_Some. rewrite length_insert.
    by apply lookup_lt_is_Some.
Qed.

Lemma wf_atomic l s s' : keeps_ids l → atomic l s s' → wf s → wf s'.
Proof.
  intros Hl Ha Hwf. destruct Ha as [s p n seg Hp Hhas | s p n m' Hp | s mp | s r].
  - by apply wf_create.
  - by apply wf_meta.
  - by destruct Hwf.
  - by destruct Hwf.
Qed.

Lemma wf_evolves s s' : evolves keeps_ids s s' → wf s → wf s'.
Proof.
  induction 1 as [|s1 s2 s3 (l & Hl & Ha) _ IH]; [done|].
  intros Hwf. apply IH. by eapply wf_atomic.
Qed.

Lemma wf_run provider ops : wf (run provider ops new_Vfs).
Proof. eapply wf_evolves; [apply evolves_run | apply wf_new_Vfs]. Qed.

(** ** What every update keeps *)

#[global] Instance persists_preorder : PreOrder persists.
Proof.
  split.
  - intros s p n Hp. exists n. eauto.
  - intros s1 s2 s3 H12 H23 p n Hp.
    destruct (H12 _ _ Hp) as (n2 & Hp2 & Hn2 & Hq2 & Hk2).
    destruct (H23 _ _ Hp2) as (n3 & Hp3 & Hn3 & Hq3 & Hk3).
    exists n3. repeat split; try congruence.
    + by apply Hk3, Hk2.
    + destruct (Hk2 _ H) as [H2 E2]. destruct (Hk3 _ H2) as [_ E3]. congruence.
Qed.

Lemma has_get_app o seg c k :
  JsObject.has o seg = false → JsObject.has o k = true →
  JsObject.has (o ++ [(seg, c)]) k = true ∧
  get_property (o ++ [(seg, c)]) k = get_property o k.
Proof.
  intros Hseg Hk. unfold JsObject.has, get_property in *.
  rewrite own_app. destruct (JsObject.own o k) as [v|] eqn:Hown; [done|].
  simpl. destruct (String.eqb seg k) eqn:E; [|done].
  apply String.eqb_eq in E as ->.
  destruct (JsObject.own o k); [done | congruence].
Qed.

Lemma atomic_persists l s s' : atomic l s s' → persists s s'.
Proof.
  intros [s0 p n seg Hp Hhas | s0 p n m' Hp | s0 mp | s0 r] x m Hx; simpl.
  - pose proof (lookup_lt_Some _ _ _ Hx) as Hlt.
    rewrite lookup_app_l by (by rewrite length_insert).
    destruct (decide (x = p)) as [->|Hne].
    + rewrite list_lookup_insert_eq by done. assert (m = n) as -> by congruence.
      eexists. split; [done|]. repeat split; try done.
      all: by apply has_get_app.
    + rewrite list_lookup_insert_ne by done. exists m. eauto.
  - pose proof (lookup_lt_Some _ _ _ Hx) as Hlt.
    destruct (decide (x = p)) as [->|Hne].
    + rewrite list_lookup_insert_eq by done. assert (m = n) as -> by congruence.
      eexists. split; [done|]. eauto.
    + rewrite list_lookup_insert_ne by done. exists m. eauto.
  - exists m. eauto.
  - exists m. eauto.
Qed.

Lemma evolves_persists L s s' : evolves L s s' → persists s s'.
Proof.
  induction 1 as [|s1 s2 s3 (l & _ & Ha) _ IH]; [reflexivity|].
  etrans; [by eapply atomic_persists | done].
Qed.

Lemma atomic_metadata_id l s s' p n n' :
  keeps_ids l → atomic l s s' →
  heap s !! p = Some n → heap s' !! p = Some n' →
  metadata n' !! "id" = metadata n !! "id".
Proof.
  intros Hl Ha. revert Hl.
  destruct Ha as [s0 q m seg Hq Hhas | s0 q m m' Hq | s0 mp | s0 r];
    intros Hl Hp; simpl.
  - pose proof (lookup_lt_Some _ _ _ Hp) as Hlt.
    rewrite lookup_app_l by (by rewrite length_insert).
    destruct (decide (p = q)) as [->|Hne].
    + rewrite list_lookup_insert_eq by done. intros [= <-]. simpl. congruence.
    + rewrite list_lookup_insert_ne by done. congruence.
  - pose proof (lookup_lt_Some _ _ _ Hp) as Hlt.
    destruct (decide (p = q)) as [->|Hne].
    + rewrite list_lookup_insert_eq by done. intros [= <-].
      assert (m = n) as -> by congruence. exact Hl.
    + rewrite list_lookup_insert_ne by done. congruence.
  - intros ?. congruence.
  - intros ?. congruence.
Qed.

Lemma evolves_metadata_id s s' p n n' :
  evolves keeps_ids s s' →
  heap s !! p = Some n → heap s' !! p = Some n' →
  metadata n' !! "id" = metadata n !! "id".
Proof.
  intros H. revert n. induction H as [|s1 s2 s3 (l & Hl & Ha) _ IH]; intros n Hp Hp'.
  - congruence.
  - destruct (atomic_persists _ _ _ Ha _ _ Hp) as (n2 & Hp2 & _).
    rewrite (IH _ Hp2 Hp'). by eapply atomic_metadata_id.
Qed.

(** C7: along every sequence of calls on one [Vfs], every node has an id
    below the counter, ids increase strictly in the order in which the nodes
    were created (the order of the store), no two nodes share an id, and
    a further call keeps the ids of the nodes that exist and gives every
    node it creates an id at or above the counter, hence above every id
    assigned before. *)
Theorem node_ids_unique_and_increasing provider ops :
  let s := run provider ops new_Vfs in
  (∀ p n, heap s !! p = Some n →
     ∃ i, metadata n !! "id" = Some (MNum i) ∧ (i < node_id s)%N) ∧
  (∀ p q n m i j,
     heap s !! p = Some n → heap s !! q = Some m →
     metadata n !! "id" = Some (MNum i) → metadata m !! "id" = Some (MNum j) →
     p < q → (i < j)%N) ∧
  (∀ p q n m,
     heap s !! p = Some n → heap s !! q = Some m →
     metadata n !! "id" = metadata m !! "id" → p = q) ∧
  (∀ o, let s' := (step provider o s).2 in
     (∀ p n, heap s !! p = Some n →
        ∃ n', heap s' !! p = Some n' ∧
              metadata n' !! "id" = metadata n !! "id") ∧
     (∀ p n' i, heap s !! p = None → heap s' !! p = Some n' →
        metadata n' !! "id" = Some (MNum i) → (node_id s ≤ i)%N)).
Proof.
  intros s. pose proof (wf_run provider ops) as Hwf. fold s in Hwf.
  destruct Hwf as [Hc Hi _ _ _ _].
  split; [|split; [|split]].
  - intros p n Hp. exists (N.of_nat p). split; [by apply Hi|].
    rewrite Hc. apply lookup_lt_Some in Hp. lia.
  - intros p q n m i j Hp Hq Hn Hm Hlt.
    rewrite (Hi _ _ Hp) in Hn. rewrite (Hi _ _ Hq) in Hm.
    injection Hn as <-. injection Hm as <-. lia.
  - intros p q n m Hp Hq E.
    rewrite (Hi _ _ Hp), (Hi _ _ Hq) in E. injection E as E. lia.
  - intros o s'. pose proof (respects_step provider o s) as He. fold s' in He.
    split.
    + intros p n Hp.
      destruct (evolves_persists _ _ _ He _ _ Hp) as (n' & Hp' & _).
      exists n'. split; [done|]. by eapply evolves_metadata_id.
    + intros p n' i Hp Hp' Hid.
      assert (wf s') as [_ Hi' _ _ _ _].
      { eapply wf_evolves; [exact He|]. apply wf_run. }
      rewrite (Hi' _ _ Hp') in Hid. injection Hid as <-.
      rewrite Hc. apply lookup_ge_None in Hp. lia.
Qed.

(** ** Enumeration of the children *)

Lemma insert_index_perm x l : JsObject.insert_index x l ≡ₚ x :: l.
Proof.
  induction l as [|y l IH]; simpl; [done|].
  destruct (x.1 <=? y.1)%N; [done|]. rewrite IH. apply Permutation_swap.
Qed.

Lemma sort_index_perm l : foldr JsObject.insert_index [] l ≡ₚ l.
Proof.
  induction l as [|x l IH]; simpl; [done|].
  by rewrite insert_index_perm, IH.
Qed.

Lemma index_keys_snd ks :
  (JsObject.index_keys ks).*2 =
  filter (λ k, JsObject.array_index k ≠ None) ks.
Proof.
  unfold JsObject.index_keys. induction ks as [|k ks IH]; [done|].
  rewrite filter_cons. cbn [omap list_omap].
  destruct (JsObject.array_index k) as [i|] eqn:E; cbn [fmap option_fmap option_map].
  - rewrite decide_True by done. rewrite fmap_cons. by rewrite IH.
  - rewrite decide_False by naive_solver. done.
Qed.

Lemma filter_split_perm {A} (P : A → Prop) `{!∀ x, Decision (P x)} (l : list A) :
  filter (λ x, ¬ P x) l ++ filter P l ≡ₚ l.
Proof.
  induction l as [|x l IH]; simpl; [done|].
  destruct (decide (P x)) as [HP|HP].
  - rewrite (filter_cons_True P) by done.
    rewrite (filter_cons_False (λ x, ¬ P x)) by naive_solver.
    rewrite <- Permutation_middle. by rewrite IH.
  - rewrite (filter_cons_False P) by done.
    rewrite (filter_cons_True (λ x, ¬ P x)) by done.
    simpl. by rewrite IH.
Qed.

(** The enumeration lists every key once. *)
Lemma key_order_perm ks : JsObject.key_order ks ≡ₚ ks.
Proof.
  unfold JsObject.key_order.
  rewrite (fmap_Permutation snd _ _ (sort_index_perm _)).
  rewrite index_keys_snd.
  apply (filter_split_perm (λ k, JsObject.array_index k = None)).
Qed.

(** Without array indices among the keys, the enumeration is the order of
    creation. *)
Lemma key_order_no_index ks :
  Forall (λ k, JsObject.array_index k = None) ks → JsObject.key_order ks = ks.
Proof.
  intros H. unfold JsObject.key_order.
  replace (JsObject.index_keys ks) with (@nil (N * string)).
  - simpl. induction H as [|k ks Hk _ IH]; [done|].
    rewrite filter_cons_True by done. by rewrite IH.
  - unfold JsObject.index_keys. induction H as [|k ks Hk _ IH]; [done|].
    simpl. by rewrite Hk.
Qed.

Lemma own_Some_elem (o : list (string * nat)) k c :
  JsObject.own o k = Some c → (k, c) ∈ o.
Proof.
  induction o as [|[k' v] o IH]; simpl; [done|].
  destruct (String.eqb k' k) eqn:E.
  - apply String.eqb_eq in E. intros [= ->]. subst. left.
  - intros H. right. by apply IH.
Qed.

Lemma own_elem_NoDup (o : list (string * nat)) k c :
  NoDup o.*1 → (k, c) ∈ o → JsObject.own o k = Some c.
Proof.
  induction o as [|[k' v] o IH]; simpl; [by intros _ ?%elem_of_nil|].
  intros [Hk Hnd]%NoDup_cons [E | Hin]%elem_of_cons.
  - injection E as -> ->. by rewrite String.eqb_refl.
  - destruct (String.eqb k' k) eqn:E; [|by apply IH].
    apply String.eqb_eq in E. subst k'. destruct Hk.
    apply list_elem_of_fmap. by exists (k, c).
Qed.

(** In a well-formed state a node lists the names of the nodes created
    under it, in the order of enumeration of its keys. *)
Lemma child_names_wf s p n :
  wf s → heap s !! p = Some n →
  child_names (heap s) n =
  Ok (JsObject.key_order (created_under (heap s) p).*1).
Proof.
  intros Hwf Hp. unfold child_names, children, JsObject.getOwnPropertyNames.
  rewrite <- (wf_children _ Hwf _ _ Hp).
  set (ks := JsObject.key_order (_children n).*1).
  assert (∀ k, k ∈ ks → name_of (heap s) (get_property (_children n) k) = Ok k) as Hk.
  { intros k Hk. unfold ks in Hk. rewrite key_order_perm in Hk.
    apply list_elem_of_fmap in Hk as ([k' c] & -> & Hin). simpl.
    unfold get_property.
    rewrite (own_elem_NoDup _ _ _ (wf_nodup _ Hwf _ _ Hp) Hin).
    rewrite (wf_children _ Hwf _ _ Hp) in Hin.
    apply elem_of_created_under in Hin as (cn & Hc & Hname & _).
    simpl. by rewrite Hc, Hname. }
  clearbody ks. induction ks as [|k ks IH]; [done|].
  rewrite fmap_cons. cbn [outcome_map].
  rewrite Hk by left. rewrite IH; [done|]. intros k' Hk'. apply Hk. by right.
Qed.

(** ** [open] and [ls] *)

Lemma open_loop_valid s segs cnode q :
  wf s →
  (∀ p, cnode = VNode p → is_Some (heap s !! p)) →
  open_loop (heap s) segs cnode = Ok (VNode q) → is_Some (heap s !! q).
Proof.
  intros Hwf. revert cnode.
  induction segs as [|seg segs IH]; intros cnode Hc; simpl.
  { intros [= ->]. by apply Hc. }
  destruct cnode as [| | |p|]; try done. simpl.
  destruct (heap s !! p) as [n|] eqn:Hp; [|done].
  destruct (JsObject.has (_children n) seg); [|done]. simpl.
  apply IH. intros c Hget. unfold get_property in Hget.
  destruct (JsObject.own (_children n) seg) as [c'|] eqn:Hown.
  - injection Hget as ->. apply own_Some_elem in Hown.
    rewrite (wf_children _ Hwf _ _ Hp) in Hown.
    apply elem_of_created_under in Hown as (cn & -> & _). eauto.
  - by destruct (JsObject.inherited seg).
Qed.

Lemma open_valid s path q :
  wf s → open s path = Ok (VNode q) → is_Some (heap s !! q).
Proof.
  intros Hwf. apply open_loop_valid; [done|].
  intros p [= <-]. destruct (wf_root _ Hwf) as [-> H]. done.
Qed.

Lemma ls_wf s path p :
  wf s → open s path = Ok (VNode p) →
  ls s path = Ok (Some (JsObject.key_order (created_under (heap s) p).*1)).
Proof.
  intros Hwf Hopen. destruct (open_valid _ _ _ Hwf Hopen) as [n Hp].
  unfold ls. rewrite Hopen, Hp. by rewrite (child_names_wf _ p).
Qed.

(** C10: a path without segments (the empty string, ["/"], any string of
    slashes, or the empty array) denotes the node the lookup starts from:
    [_open] returns the node it is given, [open] returns the root node, and
    along every sequence of calls [ls] returns the names of the root's
    children, not the not-found signal: the names of the nodes created
    under the root, in the order of enumeration of own property names. *)
Theorem segmentless_path_is_root :
  (∀ h mount k, _open h mount (PStr (slashes k)) = Ok mount ∧
                _open h mount (PSegs []) = Ok mount) ∧
  (∀ s k, open s (PStr (slashes k)) = Ok (VNode (root s)) ∧
          open s (PSegs []) = Ok (VNode (root s))) ∧
  (∀ provider ops k,
     let s := run provider ops new_Vfs in
     let names := JsObject.key_order (created_under (heap s) (root s)).*1 in
     (∃ r, heap s !! root s = Some r ∧ child_names (heap s) r = Ok names) ∧
     ls s (PStr (slashes k)) = Ok (Some names) ∧
     ls s (PSegs []) = Ok (Some names) ∧
     ∀ c n, heap s !! c = Some n → parent n = Some (root s) → name n ∈ names).
Proof.
  assert (∀ h mount k, _open h mount (PStr (slashes k)) = Ok mount) as Hopen.
  { intros h mount k. unfold _open. by rewrite normalize_slashes. }
  split; [by split|]. split; [intros s k; split; [apply Hopen | done]|].
  intros provider ops k s names.
  pose proof (wf_run provider ops) as Hwf. fold s in Hwf.
  destruct (open_valid s (PSegs []) (root s) Hwf eq_refl) as [r Hr].
  split; [exists r; split; [done | by apply child_names_wf]|].
  split; [apply ls_wf; [done | apply Hopen]|].
  split; [by apply ls_wf|].
  intros c n Hc Hpar. unfold names. rewrite key_order_perm.
  apply list_elem_of_fmap. exists (name n, c). split; [done|].
  apply elem_of_created_under. by exists n.
Qed.

(** C8 (as amended): for every path that resolves to a node, [ls] returns
    the names of the children created under that node in the order of
    enumeration of own property names: the names that are array indices
    first, in ascending numeric order, then the other names in the order in
    which the children were created.  It lists every child once, it is the
    order of creation when no child's name is an array index, and it is
    computed from the current state after any sequence of calls. *)
Theorem ls_own_property_order provider ops path p :
  let s := run provider ops new_Vfs in
  open s path = Ok (VNode p) →
  let created := (created_under (heap s) p).*1 in
  ls s path = Ok (Some (JsObject.key_order created)) ∧
  JsObject.key_order created ≡ₚ created ∧
  (Forall (λ k, JsObject.array_index k = None) created →
   ls s path = Ok (Some created)).
Proof.
  intros s Hopen created. pose proof (wf_run provider ops) as Hwf. fold s in Hwf.
  split; [by apply ls_wf|]. split; [apply key_order_perm|].
  intros H. rewrite (ls_wf s path p Hwf Hopen).
  fold created. by rewrite key_order_no_index.
Qed.

Lemma ls_own_property_order_witness :
  let s := run (λ _ _, None) [Mkdir "/a/c"; Mkdir "/a/b"] new_Vfs in
  open s (PStr "/a") = Ok (VNode 1) ∧ ls s (PStr "/a") = Ok (Some ["c"; "b"]).
Proof.
  split; [reflexivity|].
  refine (proj2 (proj2 (ls_own_property_order (λ _ _, None)
            [Mkdir "/a/c"; Mkdir "/a/b"] (PStr "/a") 1 eq_refl)) _).
  repeat constructor.
Defined.

(** C8, counterexample: [mkdir("/2")] then [mkdir("/1")] creates the child
    ["2"] (id 1) before the child ["1"] (id 2), and [ls("/")] returns ["1"]
    before ["2"]. *)
Lemma ls_lists_array_indices_first :
  let s1 := run (λ _ _, None) [Mkdir "/2"] new_Vfs in
  let s2 := run (λ _ _, None) [Mkdir "/2"; Mkdir "/1"] new_Vfs in
  ls s1 (PStr "/") = Ok (Some ["2"]) ∧
  open s2 (PStr "/2") = Ok (VNode 1) ∧
  open s2 (PStr "/1") = Ok (VNode 2) ∧
  (metadata <$> heap s2 !! 1) ≫= (.!! "id") = Some (MNum 1) ∧
  (metadata <$> heap s2 !! 2) ≫= (.!! "id") = Some (MNum 2) ∧
  (created_under (heap s2) (root s2)).*1 = ["2"; "1"] ∧
  ls s2 (PStr "/") = Ok (Some ["1"; "2"]).
Proof. vm_compute. done. Qed.

(** ** [write_file] *)

(** C5 (the code departs from the claim): [write_file("/a", "note.txt",
    "hello")] on a fresh [Vfs] pushes the path ["/a"] alone: the node it
    returns is [/a], of type [file] and carrying the blob named
    ["note.txt"] with content ["hello"]; no node [/a/note.txt] exists
    afterwards.  On any state without mount points the call is
    [_push(root, path, {type: "file", blob})], whatever [file_name] is. *)
Theorem write_file_pushes_path_only :
  (let (r, s) := write_file "/a" "note.txt" "hello" None new_Vfs in
   r = Ok (VNode 1) ∧
   open s (PStr "/a") = Ok (VNode 1) ∧
   open s (PStr "/a/note.txt") = Ok VNull ∧
   ls s (PStr "/") = Ok (Some ["a"]) ∧
   ls s (PStr "/a") = Ok (Some []) ∧
   ∃ n, heap s !! 1 = Some n ∧ name n = "a" ∧
        metadata n !! "type" = Some (MStr "file") ∧
        metadata n !! "blob" =
          Some (MBlob (mkBlob "hello" "plain/text" "note.txt" None None))) ∧
  (∀ i r h reqs path file_name content md,
     let s := mkVfs i r [] h reqs in
     write_file path file_name content md s =
     _push (VNode r) (PStr path)
       {[ "type" := MStr "file";
          "blob" := MBlob (mkBlob content (blob_type_option md) file_name None None) ]}
       s).
Proof.
  split; [|done].
  vm_compute. repeat split. eexists. repeat split.
Qed.

Lemma write_file_local_no_node mount path blob s p :
  (_write_file_local mount path blob s).1 ≠ Ok (VNode p).
Proof.
  unfold _write_file_local, mbind, M_bind, bind, gets.
  destruct (_closest_directory_handler_local _ _ _) as [[[[handler node] rest]|]|];
    [|done|done].
  by destruct (_push _ _ _ s) as [[v|] s'].
Qed.

(** C9 (the code departs from the claim): [_write_file_local] never returns
    a node.  After [mount_local_folder("")] has mounted [proj] with a
    handle, [write_file("/proj/y", ...)] finds the handle of [/proj],
    creates the node [/proj/y] and returns [undefined]; [mkdir] on the same
    path returns the node it creates, and so does [write_file] outside of
    a mount. *)
Theorem write_file_local_returns_undefined :
  (∀ mount path blob s p,
     (_write_file_local mount path blob s).1 ≠ Ok (VNode p)) ∧
  (let provider : list Request → Request → option handle := λ _ _, Some 8 in
   let x := mkBlob "x" "text/plain" "x.txt" (Some "proj/x.txt") (Some 7) in
   let s := run provider [MountLocalFolder "" (Some [x])] new_Vfs in
   _closest_directory_handler_local (heap s) (VNode 1) (PStr "/y") =
     Ok (Some (MHandle 7, 1, ["y"])) ∧
   (let (r, s') := write_file "/proj/y" "y.txt" "hello" None s in
    r = Ok VUndefined ∧ open s' (PStr "/proj/y") = Ok (VNode 3)) ∧
   (mkdir provider "/proj/y" s).1 = Ok (VNode 3) ∧
   (write_file "/other/y" "y.txt" "hello" None s).1 = Ok (VNode 4)).
Proof.
  split; [apply write_file_local_no_node|].
  vm_compute. done.
Qed.

(** ** The closest-handle search *)



Lemma rev_take_S (segs : list string) k seg :
  segs !! k = Some seg → rev (take (S k) segs) = seg :: rev (take k segs).
Proof. intros H. erewrite take_S_r by done. by rewrite rev_unit. Qed.












(** ** Pushing a path that exists *)

Lemma push_loop_found s segs cnode t :
  open_loop (heap s) segs cnode = Ok (VNode t) →
  push_loop segs cnode s = (Ok (VNode t), s).
Proof.
  revert cnode. induction segs as [|seg segs IH]; intros cnode; simpl.
  { by intros [= ->]. }
  unfold mbind, M_bind, bind. rewrite push_step_eq.
  destruct cnode as [| | |p|]; try done. simpl.
  destruct (heap s !! p) as [n|]; [|done].
  destruct (JsObject.has (_children n) seg); [|done]. simpl. apply IH.
Qed.

Lemma push_step_child seg cnode s v s1 :
  push_step seg cnode s = (Ok v, s1) →
  ∃ p n1, cnode = VNode p ∧ heap s1 !! p = Some n1 ∧
          JsObject.has (_children n1) seg = true ∧
          get_property (_children n1) seg = v.
Proof.
  rewrite push_step_eq. destruct cnode as [| | |p|]; try done.
  destruct (heap s !! p) as [n|] eqn:Hp; [|done].
  destruct (JsObject.has (_children n) seg) eqn:Hhas.
  - intros [= <- <-]. by exists p, n.
  - intros [= <- <-]. pose proof (lookup_lt_Some _ _ _ Hp) as Hlt.
    apply has_false_own in Hhas as [Hown _].
    eexists p, _. split; [done|]. simpl.
    rewrite lookup_app_l by (by rewrite length_insert).
    rewrite list_lookup_insert_eq by done. split; [done|]. simpl.
    unfold JsObject.has, get_property. rewrite own_app, Hown. simpl.
    by rewrite String.eqb_refl.
Qed.

Lemma push_loop_open segs cnode s t s' :
  push_loop segs cnode s = (Ok (VNode t), s') →
  open_loop (heap s') segs cnode = Ok (VNode t).
Proof.
  revert cnode s. induction segs as [|seg segs IH]; intros cnode s; simpl.
  { by intros [= -> ->]. }
  unfold mbind, M_bind, bind.
  destruct (push_step seg cnode s) as [[v|] s1] eqn:Hstep; [|done].
  intros Hloop.
  destruct (push_step_child _ _ _ _ _ Hstep) as (p & n1 & -> & Hp1 & Hhas & Hget).
  pose proof (respects_push_loop segs v s1) as He. rewrite Hloop in He.
  simpl in He.
  destruct (evolves_persists _ _ _ He _ _ Hp1) as (n' & Hp' & _ & _ & Hk).
  destruct (Hk _ Hhas) as [Hhas' Hget']. simpl. rewrite Hp', Hhas'. simpl.
  rewrite Hget', Hget. by eapply IH.
Qed.

Lemma open_loop_meta h t n m segs cnode :
  h !! t = Some n →
  open_loop (<[t := set_metadata m n]> h) segs cnode = open_loop h segs cnode.
Proof.
  intros Ht. revert cnode. induction segs as [|seg segs IH]; intros cnode; [done|].
  simpl. replace (children_of (<[t:=set_metadata m n]> h) cnode)
    with (children_of h cnode).
  { destruct (children_of h cnode) as [o|]; [|done].
    destruct (JsObject.has o seg); [|done]. simpl. apply IH. }
  destruct cnode as [| | |p|]; try done. simpl.
  destruct (decide (p = t)) as [->|Hne].
  - rewrite list_lookup_insert_eq by (by eapply lookup_lt_Some). by rewrite Ht.
  - by rewrite list_lookup_insert_ne.
Qed.

(** What [_push] does when it returns. *)
Lemma push_ok mount segments md s r s1 :
  _push mount segments md s = (Ok r, s1) →
  ∃ t n0 s0,
    r = VNode t ∧
    push_loop (normalize_path segments) mount s = (Ok (VNode t), s0) ∧
    heap s0 !! t = Some n0 ∧
    s1 = set_heap
           (<[t := set_metadata
                     (Object_assign (metadata n0) [ {[ "type" := MStr "file" ]}; md ])
                     n0]> (heap s0)) s0.
Proof.
  unfold _push, mbind, M_bind, bind.
  destruct (push_loop _ mount s) as [[v|] s0]; [|done].
  destruct v as [| | |t|]; try done. simpl.
  unfold modify. destruct (heap s0 !! t) as [n0|] eqn:Ht; [|done].
  simpl. intros [= <- <-]. by exists t, n0, s0.
Qed.

Lemma nodup_atomic l s s' :
  atomic l s s' →
  (∀ p n, heap s !! p = Some n → NoDup (_children n).*1) →
  (∀ p n, heap s' !! p = Some n → NoDup (_children n).*1).
Proof.
  intros [s0 q m seg Hq Hhas | s0 q m m' Hq | s0 mp | s0 r] Hnd p n; simpl;
    try apply Hnd.
  - pose proof (lookup_lt_Some _ _ _ Hq) as Hlt.
    intros [Hp | [Hge Hp]]%lookup_app_Some.
    + destruct (decide (p = q)) as [->|Hne].
      * rewrite list_lookup_insert_eq in Hp by done. injection Hp as <-. simpl.
        apply has_false_own in Hhas as [Hown _].
        rewrite fmap_app. apply NoDup_app. split; [by eapply Hnd|].
        split; [|apply NoDup_singleton].
        intros k Hk ->%list_elem_of_singleton. by apply own_None_keys in Hown.
      * rewrite list_lookup_insert_ne in Hp by done. by eapply Hnd.
    + destruct (p - length (<[q:=_]> (heap s0))) as [|y]; [|done].
      injection Hp as <-. constructor.
  - pose proof (lookup_lt_Some _ _ _ Hq) as Hlt.
    destruct (decide (p = q)) as [->|Hne].
    + rewrite list_lookup_insert_eq by done. intros [= <-]. exact (Hnd _ _ Hq).
    + rewrite list_lookup_insert_ne by done. apply Hnd.
Qed.

Lemma nodup_evolves L s s' :
  evolves L s s' →
  (∀ p n, heap s !! p = Some n → NoDup (_children n).*1) →
  (∀ p n, heap s' !! p = Some n → NoDup (_children n).*1).
Proof.
  induction 1 as [|s1 s2 s3 (l & _ & Ha) _ IH]; [done|].
  intros Hnd. apply IH. by eapply nodup_atomic.
Qed.

(** C4 (as amended): when [_push(mount, path, m1)] returns, it returns a
    node [t]; it never gives two siblings the same name; and pushing the
    same path again with any metadata [m2] returns the same node [t],
    creates no node, and changes nothing but the metadata of [t], which
    becomes [Object.assign(metadata, {type: "file"}, m2)]: every key of
    [m2] takes its value from [m2], the key [type] is reset to ["file"]
    when [m2] has no [type], and every other key is retained. *)
Theorem push_again_merges_metadata s mount path m1 m2 r s1 :
  _push mount path m1 s = (Ok r, s1) →
  ∃ t n1,
    r = VNode t ∧ heap s1 !! t = Some n1 ∧
    ((∀ p n, heap s !! p = Some n → NoDup (_children n).*1) →
     (∀ p n, heap s1 !! p = Some n → NoDup (_children n).*1)) ∧
    let md2 := Object_assign (metadata n1) [ {[ "type" := MStr "file" ]}; m2 ] in
    _push mount path m2 s1 =
      (Ok (VNode t), set_heap (<[t := set_metadata md2 n1]> (heap s1)) s1) ∧
    ∀ k, md2 !! k =
         match m2 !! k with
         | Some v => Some v
         | None => if decide (k = "type") then Some (MStr "file")
                   else metadata n1 !! k
         end.
Proof.
  intros Hpush.
  destruct (push_ok _ _ _ _ _ _ Hpush) as (t & n0 & s0 & -> & Hloop & Ht & ->).
  pose proof (lookup_lt_Some _ _ _ Ht) as Hlt.
  eexists t, _. split; [done|]. simpl.
  split; [by apply list_lookup_insert_eq|].
  split.
  { pose proof (respects_push mount path m1 s) as He. rewrite Hpush in He.
    cbn [snd] in He. exact (nodup_evolves _ _ _ He). }
  split.
  - unfold _push, mbind, M_bind, bind.
    rewrite (push_loop_found _ _ _ t).
    2:{ simpl. rewrite open_loop_meta by done. by apply push_loop_open in Hloop. }
    simpl. unfold modify. simpl.
    by rewrite list_lookup_insert_eq by done.
  - intros k. rewrite Object_assign_lookup.
    destruct (m2 !! k); [done|].
    destruct (decide (k = "type")) as [->|Hne]; [done|].
    by rewrite lookup_singleton_ne.
Qed.

Lemma push_again_merges_metadata_witness :
  let b := mkBlob "x" "text/plain" "x.txt" (Some "a/b") None in
  let m1 : gmap string mval := {[ "type" := MStr "folder" ]} in
  let m2 : gmap string mval := {[ "blob" := MBlob b ]} in
  let s1 := (_push (VNode 0) (PStr "/a/b") m1 new_Vfs).2 in
  _push (VNode 0) (PStr "/a/b") m1 new_Vfs = (Ok (VNode 2), s1) ∧
  ∃ t n1, VNode 2 = VNode t ∧ heap s1 !! t = Some n1 ∧
          (_push (VNode 0) (PStr "/a/b") m2 s1).1 = Ok (VNode t).
Proof.
  intros b m1 m2 s1. split; [reflexivity|].
  destruct (push_again_merges_metadata new_Vfs (VNode 0) (PStr "/a/b")
              m1 m2 (VNode 2) s1 eq_refl)
    as (t & n1 & Ht & Hn1 & _ & Hp & _).
  exists t, n1. split; [exact Ht|]. split; [exact Hn1|].
  exact (f_equal fst Hp).
Defined.

(** C4, counterexample: the second push of [/a] carries the metadata
    [{blob}], which has no key [type], and yet changes the [type] of the
    node from ["folder"] to ["file"].  The same happens through the public
    calls: [mkdir("/d/x")], then [mount_local_folder("")] with the one
    entry [d/x]. *)
Lemma push_again_resets_type :
  let b := mkBlob "x" "text/plain" "x" (Some "d/x") None in
  let m1 : gmap string mval := {[ "type" := MStr "folder" ]} in
  let m2 : gmap string mval := {[ "blob" := MBlob b ]} in
  let s1 := (_push (VNode 0) (PStr "/a") m1 new_Vfs).2 in
  let s2 := (_push (VNode 0) (PStr "/a") m2 s1).2 in
  let provider : list Request → Request → option handle := λ _ _, None in
  let u1 := run provider [Mkdir "/d/x"] new_Vfs in
  let u2 := run provider [MountLocalFolder "" (Some [b])] u1 in
  m2 !! "type" = None ∧
  (_push (VNode 0) (PStr "/a") m1 new_Vfs).1 = Ok (VNode 1) ∧
  (_push (VNode 0) (PStr "/a") m2 s1).1 = Ok (VNode 1) ∧
  (metadata <$> heap s1 !! 1) ≫= (.!! "type") = Some (MStr "folder") ∧
  (metadata <$> heap s2 !! 1) ≫= (.!! "type") = Some (MStr "file") ∧
  open u1 (PStr "/d/x") = Ok (VNode 2) ∧
  (metadata <$> heap u1 !! 2) ≫= (.!! "type") = Some (MStr "folder") ∧
  (metadata <$> heap u2 !! 2) ≫= (.!! "type") = Some (MStr "file").
Proof. vm_compute. done. Qed.

(** ** The result of the closest-handle search *)

(** The search returns the deepest node on the walk that carries a handle,
    its handle, and the segments below it. *)
Lemma closest_loop_some h mount segs k tc hd p pending :
  k ≤ length segs → rev tc = drop k segs →
  closest_loop h mount (rev (take k segs)) tc = Ok (Some (hd, p, pending)) →
  ∃ j n, j ≤ k ∧ pending = drop j segs ∧
         _open h mount (PSegs (take j segs)) = Ok (VNode p) ∧
         h !! p = Some n ∧
         metadata n !! "directoryHandle" = Some hd ∧ truthy hd = true.
Proof.
  revert tc. induction k as [|k IH]; intros tc Hk Htc.
  - rewrite take_0. simpl. unfold handle_at.
    destruct mount as [| | |q|]; try done.
    destruct (h !! q) as [n|] eqn:Hq; [|done].
    destruct (metadata n !! "directoryHandle") as [x|] eqn:Hx; [|done].
    destruct (truthy x) eqn:Ht; [|done].
    intros [= <- <- <-]. exists 0, n. rewrite take_0. by rewrite Htc.
  - destruct (lookup_lt_is_Some_2 segs k) as [seg Hseg]; [lia|].
    rewrite (rev_take_S _ _ _ Hseg). cbn [closest_loop].
    rewrite <- (rev_take_S _ _ _ Hseg), rev_involutive.
    destruct (_open h mount (PSegs (take (S k) segs))) as [v|] eqn:Hopen; [|done].
    destruct (handle_at h v) as [[[x q]|]|] eqn:Hat; [| |done].
    + intros [= <- <- <-]. unfold handle_at in Hat.
      destruct v as [| | |q'|]; try done.
      destruct (h !! q') as [n|] eqn:Hq; [|done].
      destruct (metadata n !! "directoryHandle") as [y|] eqn:Hy; [|done].
      destruct (truthy y) eqn:Ht; [|done]. injection Hat as <- <-.
      exists (S k), n. by rewrite Htc.
    + intros Hrec. apply IH in Hrec as (j & n & Hj & H); [|lia|].
      * exists j, n. split; [lia | done].
      * rewrite rev_app_distr. simpl. rewrite Htc.
        symmetry. by apply drop_S.
Qed.

Lemma closest_some h mount path hd p pending :
  _closest_directory_handler_local h mount path = Ok (Some (hd, p, pending)) →
  ∃ j n, pending = drop j (normalize_path path) ∧
         _open h mount (PSegs (take j (normalize_path path))) = Ok (VNode p) ∧
         h !! p = Some n ∧
         metadata n !! "directoryHandle" = Some hd ∧ truthy hd = true.
Proof.
  unfold _closest_directory_handler_local.
  set (segs := normalize_path path).
  replace (rev segs) with (rev (take (length segs) segs))
    by (by rewrite firstn_all).
  intros H. apply closest_loop_some in H as (j & n & _ & H); [|done|].
  - by exists j, n.
  - by rewrite drop_all.
Qed.

(** ** Lookups and growth of the tree *)

Lemma open_loop_app h l1 l2 cnode p :
  open_loop h l1 cnode = Ok (VNode p) →
  open_loop h (l1 ++ l2) cnode = open_loop h l2 (VNode p).
Proof.
  revert cnode. induction l1 as [|seg l1 IH]; intros cnode; simpl.
  { by intros [= ->]. }
  destruct (children_of h cnode) as [o|]; [|done].
  destruct (JsObject.has o seg); [|done]. simpl. apply IH.
Qed.

Lemma open_loop_persists s s' segs cnode p :
  persists s s' →
  open_loop (heap s) segs cnode = Ok (VNode p) →
  open_loop (heap s') segs cnode = Ok (VNode p).
Proof.
  intros Hper. revert cnode. induction segs as [|seg segs IH]; intros cnode; [done|].
  simpl. destruct cnode as [| | |q|]; try done. simpl.
  destruct (heap s !! q) as [n|] eqn:Hq; [|done].
  destruct (Hper _ _ Hq) as (n' & -> & _ & _ & Hk).
  destruct (JsObject.has (_children n) seg) eqn:Hhas; [|done].
  destruct (Hk _ Hhas) as [-> ->]. simpl. apply IH.
Qed.

(** In a well-formed state a property other than those inherited is a
    child node. *)
Lemma get_property_wf s p n seg :
  wf s → heap s !! p = Some n →
  JsObject.inherited seg = false → JsObject.has (_children n) seg = true →
  ∃ c cn, get_property (_children n) seg = VNode c ∧ heap s !! c = Some cn ∧
          parent cn = Some p ∧ p < c.
Proof.
  intros Hwf Hp Hinh Hhas. unfold JsObject.has, get_property in *.
  destruct (JsObject.own (_children n) seg) as [c|] eqn:Hown; [|congruence].
  apply own_Some_elem in Hown. rewrite (wf_children _ Hwf _ _ Hp) in Hown.
  apply elem_of_created_under in Hown as (cn & Hc & _ & Hpar).
  exists c, cn. repeat split; try done. by eapply wf_parent.
Qed.

(** On segments that are not inherited property names, the loop of [_push]
    returns a node. *)
Lemma push_loop_total s segs p :
  wf s → is_Some (heap s !! p) →
  Forall (λ seg, JsObject.inherited seg = false) segs →
  ∃ t s', push_loop segs (VNode p) s = (Ok (VNode t), s') ∧
          wf s' ∧ is_Some (heap s' !! t).
Proof.
  intros Hwf Hp Hsegs. revert s p Hwf Hp.
  induction Hsegs as [|seg segs Hseg _ IH]; intros s p Hwf [n Hp]; simpl.
  { exists p, s. eauto. }
  unfold mbind, M_bind, bind. rewrite push_step_eq, Hp.
  destruct (JsObject.has (_children n) seg) eqn:Hhas.
  - destruct (get_property_wf _ _ _ _ Hwf Hp Hseg Hhas) as (c & cn & -> & Hc & _).
    apply IH; eauto.
  - apply IH.
    + by apply wf_create.
    + simpl. apply lookup_lt_is_Some.
      rewrite length_app, length_insert. simpl. lia.
Qed.

Lemma push_total s segs p md :
  wf s → is_Some (heap s !! p) →
  Forall (λ seg, JsObject.inherited seg = false) segs →
  ∃ t s', _push (VNode p) (PSegs segs) md s = (Ok (VNode t), s').
Proof.
  intros Hwf Hp Hsegs.
  destruct (push_loop_total _ _ _ Hwf Hp Hsegs) as (t & s0 & Hloop & _ & [n0 Ht]).
  unfold _push, mbind, M_bind, bind. simpl. rewrite Hloop. simpl.
  unfold modify. rewrite Ht. simpl. eauto.
Qed.

#[global] Instance grows_by_folders_preorder : PreOrder grows_by_folders.
Proof.
  split.
  - intros s. split; [done|]. split; [done|]. split.
    + intros p n Hp. eauto.
    + intros p n' H1 H2. congruence.
  - intros s1 s2 s3 (Hr12 & Hm12 & Ho12 & Hn12) (Hr23 & Hm23 & Ho23 & Hn23).
    split; [congruence|]. split; [congruence|]. split.
    + intros p n Hp. destruct (Ho12 _ _ Hp) as (n2 & Hp2 & E2).
      destruct (Ho23 _ _ Hp2) as (n3 & Hp3 & E3). exists n3. split; congruence.
    + intros p n3 Hp1 Hp3. destruct (heap s2 !! p) as [n2|] eqn:Hp2.
      * destruct (Ho23 _ _ Hp2) as (n3' & Hp3' & E3).
        assert (n3' = n3) as -> by congruence. rewrite E3. by eapply Hn12.
      * by eapply Hn23.
Qed.

Lemma creates_grow s s' : evolves only_creates s s' → grows_by_folders s s'.
Proof.
  induction 1 as [|s1 s2 s3 (l & Hl & Ha) _ IH]; [reflexivity|].
  etrans; [|exact IH]. clear IH.
  destruct Ha as [s0 q m seg Hq Hhas | | |]; try done.
  pose proof (lookup_lt_Some _ _ _ Hq) as Hlt.
  split; [done|]. split; [done|]. split; simpl.
  - intros p n Hp. pose proof (lookup_lt_Some _ _ _ Hp) as Hp'.
    rewrite lookup_app_l by (by rewrite length_insert).
    destruct (decide (p = q)) as [->|Hne].
    + rewrite list_lookup_insert_eq by done. eexists. split; [done|].
      simpl. congruence.
    + rewrite list_lookup_insert_ne by done. eauto.
  - intros p n' Hp. apply lookup_ge_None in Hp.
    rewrite lookup_app_r by (by rewrite length_insert).
    rewrite length_insert.
    destruct (p - length (heap s0)) as [|y]; [|done].
    intros [= <-]. simpl. split; [|done].
    by rewrite lookup_insert_ne.
Qed.

(** C6 (as amended): for every [write_file] on a path under a local mount
    whose closest-handle search succeeds, no request is sent to any
    directory handle, no mount point is added, no node has its
    [directoryHandle] changed and no created node carries one; and, when
    none of the segments below the handle is a property name inherited
    from [Object.prototype], the segments are mirrored into the tree: the
    target then resolves, from the node found and from the mount root, to a
    node of type ["file"], and every other node the call creates is a folder
    node. *)
Theorem write_file_local_tree_only provider ops path mount rest handler node
    pending file_name content md :
  let s := run provider ops new_Vfs in
  get_mount s path = (Some mount, rest) →
  mp_type mount = "local" →
  _closest_directory_handler_local (heap s) (mp_root mount) (PStr rest) =
    Ok (Some (handler, node, pending)) →
  let s' := (write_file path file_name content md s).2 in
  requests s' = requests s ∧
  mount_points s' = mount_points s ∧
  (∀ p n, heap s !! p = Some n →
     ∃ n', heap s' !! p = Some n' ∧
           metadata n' !! "directoryHandle" = metadata n !! "directoryHandle") ∧
  (∀ p n', heap s !! p = None → heap s' !! p = Some n' →
     metadata n' !! "directoryHandle" = None) ∧
  (Forall (λ seg, JsObject.inherited seg = false) pending →
   ∃ t nt,
     _open (heap s') (VNode node) (PSegs pending) = Ok (VNode t) ∧
     _open (heap s') (mp_root mount) (PStr rest) = Ok (VNode t) ∧
     heap s' !! t = Some nt ∧
     metadata nt !! "type" = Some (MStr "file") ∧
     (∀ p n', heap s !! p = None → heap s' !! p = Some n' → p ≠ t →
        metadata n' !! "type" = Some (MStr "folder"))).
Proof.
  intros s Hm Hty Hfound s'.
  pose proof (wf_run provider ops) as Hwf. fold s in Hwf.
  destruct (closest_some _ _ _ _ _ _ Hfound) as (j & nd & Hpend & Hopen & Hnd & _).
  assert (write_file path file_name content md s =
          match _push (VNode node) (PSegs pending) {[ "type" := MStr "file" ]} s with
          | (Ok _, s1) => (Ok VUndefined, s1)
          | (Throw, s1) => (Throw, s1)
          end) as Hw.
  { unfold write_file. rewrite Hm, Hty. simpl.
    unfold _write_file_local, mbind, M_bind, bind, gets. rewrite Hfound.
    by destruct (_push _ _ _ s) as [[v|] s1]. }
  assert (s' = (_push (VNode node) (PSegs pending) {[ "type" := MStr "file" ]} s).2)
    as Hs'.
  { unfold s'. rewrite Hw. by destruct (_push _ _ _ s) as [[v|] s1]. }
  clearbody s'. subst s'. clear Hw.
  (* the shape of the push *)
  unfold _push, mbind, M_bind, bind. simpl normalize_path.
  pose proof (respects_push_loop pending (VNode node) s) as He.
  destruct (push_loop pending (VNode node) s) as [[v|] s0] eqn:Hloop; simpl in He.
  2:{ (* the loop throws *)
    destruct (creates_grow _ _ He) as (Hr & Hmp & Hold & Hnew). simpl.
    split; [done|]. split; [done|]. split.
    { intros p n Hp. destruct (Hold _ _ Hp) as (n' & ? & E). exists n'. by rewrite E. }
    split; [intros p n' H1 H2; by eapply Hnew|].
    intros Hsafe.
    destruct (push_loop_total _ _ _ Hwf (mk_is_Some _ _ Hnd) Hsafe)
      as (t & s1 & Hl & _). congruence. }
  destruct (creates_grow _ _ He) as (Hr & Hmp & Hold & Hnew).
  destruct v as [| | |t|]; simpl.
  1,2,3,5: (split; [done|]; split; [done|]; split;
    [intros p n Hp; destruct (Hold _ _ Hp) as (n' & ? & E); exists n'; by rewrite E|];
    split; [intros p n' H1 H2; by eapply Hnew|];
    intros Hsafe;
    destruct (push_loop_total _ _ _ Hwf (mk_is_Some _ _ Hnd) Hsafe)
      as (t & s1 & Hl & _); congruence).
  unfold modify. destruct (heap s0 !! t) as [n0|] eqn:Ht; simpl.
  2:{ split; [done|]. split; [done|]. split.
      { intros p n Hp. destruct (Hold _ _ Hp) as (n' & ? & E). exists n'. by rewrite E. }
      split; [intros p n' H1 H2; by eapply Hnew|].
      intros Hsafe.
      destruct (push_loop_total _ _ _ Hwf (mk_is_Some _ _ Hnd) Hsafe)
        as (t' & s1 & Hl & _ & [? Ht']).
      rewrite Hloop in Hl. injection Hl as -> ->. congruence. }
  pose proof (lookup_lt_Some _ _ _ Ht) as Hlt.
  set (md' := Object_assign (metadata n0) _).
  assert (md' !! "directoryHandle" = metadata n0 !! "directoryHandle") as Hdh.
  { unfold md'. by rewrite Object_assign_lookup. }
  assert (md' !! "type" = Some (MStr "file")) as Htype.
  { unfold md'. by rewrite Object_assign_lookup. }
  split; [done|]. split; [done|]. split; [|split].
  - intros p n Hp. destruct (Hold _ _ Hp) as (n' & Hp' & E).
    destruct (decide (p = t)) as [->|Hne].
    + rewrite list_lookup_insert_eq by done. eexists. split; [done|].
      simpl. rewrite Hdh. congruence.
    + rewrite list_lookup_insert_ne by done. exists n'. by rewrite E.
  - intros p n' Hp. destruct (decide (p = t)) as [->|Hne].
    + rewrite list_lookup_insert_eq by done. intros [= <-]. simpl.
      rewrite Hdh. by eapply Hnew.
    + rewrite list_lookup_insert_ne by done. intros Hp'. by eapply Hnew.
  - intros _. exists t, (set_metadata md' n0).
    assert (open_loop (<[t:=set_metadata md' n0]> (heap s0)) pending (VNode node)
            = Ok (VNode t)) as Hop.
    { rewrite open_loop_meta by done. by apply push_loop_open in Hloop. }
    split; [exact Hop|]. split.
    + unfold _open. rewrite <- (take_drop j (normalize_path (PStr rest))).
      rewrite <- Hpend. erewrite open_loop_app; [exact Hop|].
      rewrite open_loop_meta by done.
      eapply open_loop_persists; [|exact Hopen]. by eapply evolves_persists.
    + split; [by apply list_lookup_insert_eq|]. split; [done|].
      intros p n' Hp Hp' Hne. rewrite list_lookup_insert_ne in Hp' by done.
      by eapply Hnew.
Qed.

Lemma write_file_local_tree_only_witness :
  let provider : list Request → Request → option handle := λ _ _, Some 8 in
  let x := mkBlob "x" "text/plain" "x.txt" (Some "proj/x.txt") (Some 7) in
  let s := run provider [MountLocalFolder "" (Some [x])] new_Vfs in
  let s' := (write_file "/proj/a/b" "b.txt" "hello" None s).2 in
  get_mount s "/proj/a/b" = (Some (mkMount "local" "/proj" (VNode 1)), "/a/b") ∧
  _closest_directory_handler_local (heap s) (VNode 1) (PStr "/a/b") =
    Ok (Some (MHandle 7, 1, ["a"; "b"])) ∧
  requests s' = requests s.
Proof.
  intros provider x s s'. split; [reflexivity|]. split; [reflexivity|].
  exact (proj1 (write_file_local_tree_only provider
           [MountLocalFolder "" (Some [x])] "/proj/a/b"
           (mkMount "local" "/proj" (VNode 1)) "/a/b" (MHandle 7) 1 ["a"; "b"]
           "b.txt" "hello" None eq_refl eq_refl eq_refl)).
Defined.

(** C6, counterexample: under the mount [/proj], whose root carries a
    handle, [write_file("/proj/x/constructor", ...)] finds the handle of
    [/proj] with the segments [x] and [constructor] below it; [_push]
    creates [x] and then throws on [Object.prototype.constructor], so the
    call rejects and the target is not a file node. *)
Lemma write_file_local_throws_on_inherited_name :
  let provider : list Request → Request → option handle := λ _ _, Some 8 in
  let x := mkBlob "x" "text/plain" "x.txt" (Some "proj/x.txt") (Some 7) in
  let s := run provider [MountLocalFolder "" (Some [x])] new_Vfs in
  let (r, s') := write_file "/proj/x/constructor" "c.txt" "hello" None s in
  get_mount s "/proj/x/constructor" =
    (Some (mkMount "local" "/proj" (VNode 1)), "/x/constructor") ∧
  _closest_directory_handler_local (heap s) (VNode 1) (PStr "/x/constructor") =
    Ok (Some (MHandle 7, 1, ["x"; "constructor"])) ∧
  r = Throw ∧
  open s' (PStr "/proj/x") = Ok (VNode 3) ∧
  open s' (PStr "/proj/x/constructor") = Ok (VBuiltin "constructor") ∧
  length (heap s') = 4.
Proof. vm_compute. done. Qed.

(** ** The loop of [_mkdir_local] *)

Lemma walk_length h p segs ps : walk h p segs = Some ps → length ps = length segs.
Proof.
  revert p ps. induction segs as [|seg segs IH]; intros p ps; simpl.
  { by intros [= <-]. }
  destruct (h !! p) as [n|]; [|done].
  destruct (JsObject.own (_children n) seg) as [c|]; [|done].
  destruct (walk h c segs) as [ps'|] eqn:Hw; [|done].
  intros [= <-]. simpl. f_equal. by eapply IH.
Qed.

Lemma walk_gt s p segs ps :
  wf s → walk (heap s) p segs = Some ps → Forall (λ q, p < q) ps.
Proof.
  intros Hwf. revert p ps. induction segs as [|seg segs IH]; intros p ps; simpl.
  { intros [= <-]. constructor. }
  destruct (heap s !! p) as [n|] eqn:Hp; [|done].
  destruct (JsObject.own (_children n) seg) as [c|] eqn:Hown; [|done].
  destruct (walk (heap s) c segs) as [ps'|] eqn:Hw; [|done].
  intros [= <-].
  apply own_Some_elem in Hown. rewrite (wf_children _ Hwf _ _ Hp) in Hown.
  apply elem_of_created_under in Hown as (cn & Hc & _ & Hpar).
  pose proof (wf_parent _ Hwf _ _ _ Hc Hpar) as Hlt.
  constructor; [done|].
  eapply Forall_impl; [by eapply IH|]. simpl. lia.
Qed.

Lemma walk_valid s p segs ps :
  wf s → walk (heap s) p segs = Some ps →
  Forall (λ q, is_Some (heap s !! q)) ps.
Proof.
  intros Hwf. revert p ps. induction segs as [|seg segs IH]; intros p ps; simpl.
  { intros [= <-]. constructor. }
  destruct (heap s !! p) as [n|] eqn:Hp; [|done].
  destruct (JsObject.own (_children n) seg) as [c|] eqn:Hown; [|done].
  destruct (walk (heap s) c segs) as [ps'|] eqn:Hw; [|done].
  intros [= <-].
  apply own_Some_elem in Hown. rewrite (wf_children _ Hwf _ _ Hp) in Hown.
  apply elem_of_created_under in Hown as (cn & Hc & _).
  constructor; [eauto | by eapply IH].
Qed.

(** A walk reads the children only. *)
Lemma walk_children h h' p segs :
  (∀ q, _children <$> h' !! q = _children <$> h !! q) →
  walk h' p segs = walk h p segs.
Proof.
  intros Hch. revert p. induction segs as [|seg segs IH]; intros p; [done|].
  simpl. specialize (Hch p).
  destruct (h' !! p) as [n'|], (h !! p) as [n|]; simpl in Hch; try done.
  injection Hch as ->.
  destruct (JsObject.own (_children n) seg) as [c|]; [|done]. by rewrite IH.
Qed.

Lemma open_loop_children h h' segs cnode :
  (∀ q, _children <$> h' !! q = _children <$> h !! q) →
  open_loop h' segs cnode = open_loop h segs cnode.
Proof.
  intros Hch. revert cnode. induction segs as [|seg segs IH]; intros cnode; [done|].
  simpl. replace (children_of h' cnode) with (children_of h cnode).
  { destruct (children_of h cnode) as [o|]; [|done].
    destruct (JsObject.has o seg); [|done]. apply IH. }
  destruct cnode as [| | |p|]; try done. simpl. specialize (Hch p).
  destruct (h' !! p) as [n'|], (h !! p) as [n|]; simpl in Hch; try done.
  by injection Hch as ->.
Qed.

(** A lookup that ends on a node, along segments that are not inherited
    names, is a walk. *)
Lemma open_walk h p segs t :
  Forall (λ seg, JsObject.inherited seg = false) segs →
  open_loop h segs (VNode p) = Ok (VNode t) →
  ∃ ps, walk h p segs = Some ps ∧ default p (last ps) = t.
Proof.
  intros Hsegs. revert p. induction Hsegs as [|seg segs Hseg _ IH]; intros p; simpl.
  { intros [= ->]. by exists []. }
  destruct (h !! p) as [n|]; [|done]. unfold JsObject.has, get_property.
  destruct (JsObject.own (_children n) seg) as [c|]; simpl.
  - intros H. destruct (IH _ H) as (ps & -> & Hlast). exists (c :: ps).
    split; [done|]. rewrite last_cons. by destruct (last ps).
  - by rewrite Hseg.
Qed.

Lemma walk_open h p segs ps i q :
  walk h p segs = Some ps → ps !! i = Some q →
  open_loop h (take (S i) segs) (VNode p) = Ok (VNode q).
Proof.
  revert p ps i. induction segs as [|seg segs IH]; intros p ps i; simpl.
  { by intros [= <-]. }
  destruct (h !! p) as [n|]; [|done]. unfold JsObject.has, get_property.
  destruct (JsObject.own (_children n) seg) as [c|]; [|done]. simpl.
  destruct (walk h c segs) as [ps'|] eqn:Hw; [|done]. intros [= <-].
  destruct i as [|i]; simpl.
  - by intros [= ->].
  - intros Hq. by eapply IH.
Qed.

Section MkdirLocal.

Variable provider : list Request → Request → option handle.

(** With every request granted, the loop attaches to the node of each
    segment the handle granted for it, and returns the last node. *)
Lemma mkdir_local_loop_granted segs :
  ∀ s hd p hs ps,
    wf s → walk (heap s) p segs = Some ps →
    grants provider (requests s) hd segs = Some hs →
    ∃ s2,
      mkdir_local_loop provider segs (MHandle hd) (VNode p) s
        = (Ok (VNode (default p (last ps))), s2) ∧
      requests s2 = requests s ++ chain_requests hd segs hs ∧
      mount_points s2 = mount_points s ∧
      length (heap s2) = length (heap s) ∧
      (∀ q, q ∉ ps → heap s2 !! q = heap s !! q) ∧
      (∀ i q, ps !! i = Some q →
         ∃ n hq, heap s !! q = Some n ∧ hs !! i = Some hq ∧
                 heap s2 !! q =
                   Some (set_metadata
                           (<[ "directoryHandle" := MHandle hq ]> (metadata n)) n)).
Proof.
  induction segs as [|seg segs IH]; intros s hd p hs ps Hwf Hwalk Hgr; simpl in *.
  { injection Hwalk as <-. injection Hgr as <-. exists s.
    rewrite app_nil_r. repeat split; done. }
  destruct (heap s !! p) as [n|] eqn:Hp; [|done].
  destruct (JsObject.own (_children n) seg) as [c|] eqn:Hown; [|done].
  destruct (walk (heap s) c segs) as [ps'|] eqn:Hw; [|done].
  injection Hwalk as <-.
  set (r := mkRequest hd seg true) in *.
  destruct (provider (requests s) r) as [h'|] eqn:Hprov; [|done].
  destruct (grants provider (requests s ++ [r]) h' segs) as [hs'|] eqn:Hgr'; [|done].
  injection Hgr as <-.
  (* the node of the segment *)
  pose proof (walk_valid s p (seg :: segs) (c :: ps') Hwf) as Hval.
  simpl in Hval. rewrite Hp, Hown, Hw in Hval.
  specialize (Hval eq_refl). apply Forall_cons in Hval as [[cn Hc] _].
  pose proof (lookup_lt_Some _ _ _ Hc) as Hclt.
  set (cn' := set_metadata (<[ "directoryHandle" := MHandle h' ]> (metadata cn)) cn).
  set (sb := set_heap (<[c := cn']> (heap s)) (add_request r s)).
  assert (wf sb) as Hwfb.
  { unfold sb. apply (wf_meta c cn _ (add_request r s)); [done | |by destruct Hwf].
    by rewrite lookup_insert_ne. }
  assert (∀ q, _children <$> heap sb !! q = _children <$> heap s !! q) as Hch.
  { intros q. simpl. destruct (decide (q = c)) as [->|Hne].
    - rewrite list_lookup_insert_eq by done. by rewrite Hc.
    - by rewrite list_lookup_insert_ne. }
  assert (walk (heap sb) c segs = Some ps') as Hwb.
  { by rewrite (walk_children (heap s)). }
  destruct (IH sb h' c hs' ps' Hwfb Hwb Hgr')
    as (s2 & Hloop & Hreq & Hmp & Hlen & Hother & Hat).
  pose proof (walk_gt sb c segs ps' Hwfb Hwb) as Hgt.
  assert (c ∉ ps') as Hcps.
  { intros Hin. rewrite Forall_forall in Hgt. specialize (Hgt _ Hin). lia. }
  exists s2. split; [|split; [|split; [|split; [|split]]]].
  - unfold mbind, M_bind, bind, getDirectoryHandle. fold r. rewrite Hprov.
    simpl. unfold read. simpl. rewrite Hp. simpl.
    unfold get_property. rewrite Hown. simpl.
    unfold modify. simpl. rewrite Hc. simpl.
    fold cn'. change (set_heap _ _) with sb. rewrite Hloop.
    rewrite last_cons. by destruct (last ps').
  - rewrite Hreq. simpl. by rewrite <- app_assoc.
  - by rewrite Hmp.
  - rewrite Hlen. simpl. by rewrite length_insert.
  - intros q [Hqc Hq]%not_elem_of_cons. rewrite Hother by done. simpl.
    by rewrite list_lookup_insert_ne.
  - intros [|i] q; simpl.
    + intros [= <-]. exists cn, h'. split; [done|]. split; [done|].
      rewrite Hother by done. simpl. by rewrite list_lookup_insert_eq.
    + intros Hq. destruct (Hat _ _ Hq) as (nq & hq & Hnq & Hhq & Hq2).
      assert (q ≠ c) as Hne.
      { intros ->. apply Hcps. by eapply list_elem_of_lookup_2. }
      simpl in Hnq. rewrite list_lookup_insert_ne in Hnq by done.
      exists nq, hq. done.
Qed.

End MkdirLocal.

Lemma grants_length provider log h segs hs :
  grants provider log h segs = Some hs → length hs = length segs.
Proof.
  revert log h hs. induction segs as [|seg segs IH]; intros log h hs; simpl.
  { by intros [= <-]. }
  destruct (provider log _) as [h'|]; [|done].
  destruct (grants provider _ h' segs) as [hs'|] eqn:Hg; [|done].
  intros [= <-]. simpl. f_equal. by eapply IH.
Qed.

(** C1 (as amended): for every [mkdir] on a path under a local mount whose
    closest-handle search succeeds with the handle [h0] at the node [node]
    and the segments [pending] below it, when none of these segments is a
    property name inherited from [Object.prototype] and the provider grants
    every request: the segments are first mirrored into the tree by
    [_push(node, pending, {type: "folder"})], which returns the terminal
    node [t]; then, for the segments in order from the shallowest to the
    deepest, a directory handle is requested with [create: true] from the
    handle granted before (from [h0] for the first) and attached to the node
    of the segment.  The call returns [t], which the path resolves to,
    which is a folder node and carries the last handle granted ([h0] when
    there is no segment below [node]); every node the call creates is a
    folder node; and apart from the handles attached the state is the one
    left by the push. *)
Theorem mkdir_local_mirrors_then_creates_handles provider ops path mount rest
    h0 node pending hs :
  let s := run provider ops new_Vfs in
  get_mount s path = (Some mount, rest) →
  mp_type mount = "local" →
  _closest_directory_handler_local (heap s) (mp_root mount) (PStr rest) =
    Ok (Some (MHandle h0, node, pending)) →
  Forall (λ seg, JsObject.inherited seg = false) pending →
  grants provider (requests s) h0 pending = Some hs →
  ∃ t s1 s2,
    _push (VNode node) (PSegs pending) {[ "type" := MStr "folder" ]} s
      = (Ok (VNode t), s1) ∧
    mkdir provider path s = (Ok (VNode t), s2) ∧
    requests s2 = requests s ++ chain_requests h0 pending hs ∧
    (∀ i hd, hs !! i = Some hd →
       ∃ q n, _open (heap s2) (VNode node) (PSegs (take (S i) pending))
                = Ok (VNode q) ∧
              heap s2 !! q = Some n ∧
              metadata n !! "directoryHandle" = Some (MHandle hd)) ∧
    _open (heap s2) (mp_root mount) (PStr rest) = Ok (VNode t) ∧
    (∃ nt, heap s2 !! t = Some nt ∧
           metadata nt !! "type" = Some (MStr "folder") ∧
           metadata nt !! "directoryHandle" = Some (MHandle (default h0 (last hs)))) ∧
    (∀ p n', heap s !! p = None → heap s2 !! p = Some n' →
       metadata n' !! "type" = Some (MStr "folder")) ∧
    mount_points s2 = mount_points s ∧
    length (heap s2) = length (heap s1) ∧
    (∀ p n1, heap s1 !! p = Some n1 →
       ∃ n2, heap s2 !! p = Some n2 ∧ name n2 = name n1 ∧
             parent n2 = parent n1 ∧ _children n2 = _children n1 ∧
             ∀ k, k ≠ "directoryHandle" → metadata n2 !! k = metadata n1 !! k).
Proof.
  intros s Hm Hty Hfound Hsafe Hgr.
  pose proof (wf_run provider ops) as Hwf. fold s in Hwf.
  destruct (closest_some _ _ _ _ _ _ Hfound) as (j & nd & Hpend & Hopen & Hnd & Hdh & _).
  destruct (push_total s pending node {[ "type" := MStr "folder" ]} Hwf
              (mk_is_Some _ _ Hnd) Hsafe) as (t & s1 & Hpush).
  destruct (push_ok _ _ _ _ _ _ Hpush) as (t' & n0 & s0 & Et & Hloop & Ht & Hs1).
  injection Et as <-. simpl in Hloop.
  pose proof (lookup_lt_Some _ _ _ Ht) as Htlt.
  set (md1 := Object_assign (metadata n0) [ {[ "type" := MStr "file" ]};
                                            {[ "type" := MStr "folder" ]} ]) in *.
  assert (md1 !! "type" = Some (MStr "folder")) as Hmd1t
    by (unfold md1; by rewrite Object_assign_lookup).
  assert (md1 !! "directoryHandle" = metadata n0 !! "directoryHandle") as Hmd1h
    by (unfold md1; by rewrite Object_assign_lookup).
  assert (wf s1) as Hwf1.
  { pose proof (respects_push_ids (VNode node) (PSegs pending)
                  {[ "type" := MStr "folder" ]} eq_refl s) as He.
    rewrite Hpush in He. by eapply wf_evolves. }
  pose proof (respects_push_loop pending (VNode node) s) as He0.
  rewrite Hloop in He0. cbn [snd] in He0.
  destruct (creates_grow _ _ He0) as (Hr0 & Hmp0 & Hold & Hnew).
  assert (heap s1 = <[t := set_metadata md1 n0]> (heap s0)) as Hh1 by (by subst s1).
  assert (requests s1 = requests s) as Hr1 by (by subst s1).
  assert (mount_points s1 = mount_points s) as Hmp1 by (by subst s1).
  assert (open_loop (heap s1) pending (VNode node) = Ok (VNode t)) as Hop1.
  { rewrite Hh1, open_loop_meta by done. by apply push_loop_open in Hloop. }
  destruct (open_walk _ _ _ _ Hsafe Hop1) as (ps & Hwalk & Hlast).
  rewrite <- Hr1 in Hgr.
  destruct (mkdir_local_loop_granted provider pending s1 h0 node hs ps Hwf1 Hwalk Hgr)
    as (s2 & Hloop2 & Hreq & Hmp & Hlen & Hother & Hat).
  rewrite Hlast in Hloop2.
  pose proof (walk_length _ _ _ _ Hwalk) as Hlps.
  pose proof (grants_length _ _ _ _ _ Hgr) as Hlhs.
  (* what the loop does to each node *)
  assert (∀ p n1, heap s1 !! p = Some n1 →
            ∃ n2, heap s2 !! p = Some n2 ∧ name n2 = name n1 ∧
                  parent n2 = parent n1 ∧ _children n2 = _children n1 ∧
                  ∀ k, k ≠ "directoryHandle" → metadata n2 !! k = metadata n1 !! k)
    as Hframe.
  { intros p n1 Hp. destruct (decide (p ∈ ps)) as [Hin|Hnin].
    - apply list_elem_of_lookup_1 in Hin as [i Hi].
      destruct (Hat _ _ Hi) as (n & hq & Hn & _ & Hp2).
      assert (n = n1) as -> by congruence.
      eexists. split; [exact Hp2|]. repeat split; try done.
      intros k Hk. simpl. by rewrite lookup_insert_ne.
    - exists n1. rewrite Hother by done. eauto. }
  assert (∀ q, _children <$> heap s2 !! q = _children <$> heap s1 !! q) as Hch.
  { intros q. destruct (heap s1 !! q) as [n1|] eqn:Hq.
    - destruct (Hframe _ _ Hq) as (n2 & -> & _ & _ & E & _). simpl. by rewrite E.
    - apply lookup_ge_None in Hq. rewrite <- Hlen in Hq.
      apply lookup_ge_None in Hq. by rewrite Hq. }
  exists t, s1, s2.
  split; [subst s1; exact Hpush|].
  split.
  { unfold mkdir. rewrite Hm, Hty. simpl.
    unfold _mkdir_local, mbind, M_bind, bind, gets. rewrite Hfound.
    rewrite Hpush. exact Hloop2. }
  split; [by rewrite Hreq, Hr1|].
  split.
  { intros i hd Hi.
    destruct (lookup_lt_is_Some_2 ps i) as [q Hq].
    { rewrite Hlps, <- Hlhs. by eapply lookup_lt_Some. }
    destruct (Hat _ _ Hq) as (n & hq & Hn & Hhq & Hq2).
    assert (hq = hd) as -> by congruence.
    eexists q, _. split; [|split; [exact Hq2|]].
    - unfold _open. simpl. rewrite (open_loop_children (heap s1)) by done.
      by eapply walk_open.
    - simpl. by rewrite lookup_insert_eq. }
  split.
  { unfold _open. rewrite (open_loop_children (heap s1)) by done.
    rewrite <- (take_drop j (normalize_path (PStr rest))).
    rewrite <- Hpend. erewrite open_loop_app; [exact Hop1|].
    rewrite Hh1, open_loop_meta by done.
    eapply open_loop_persists; [|exact Hopen]. by eapply evolves_persists. }
  split.
  { rewrite !last_lookup, Hlhs, <- Hlps in *.
    destruct (ps !! pred (length ps)) as [q|] eqn:Hq; simpl in Hlast.
    - subst q. destruct (Hat _ _ Hq) as (n & hq & Hn & Hhq & Hq2).
      rewrite Hhq. simpl. eexists. split; [exact Hq2|]. simpl.
      rewrite lookup_insert_ne by done. rewrite lookup_insert_eq.
      split; [|done].
      rewrite Hh1, list_lookup_insert_eq in Hn by done. by injection Hn as <-.
    - subst t. apply lookup_ge_None in Hq.
      assert (ps = []) as -> by (destruct ps; [done | simpl in Hq; lia]).
      assert (hs = []) as -> by (destruct hs; [done | simpl in *; lia]).
      simpl. rewrite Hother by apply not_elem_of_nil.
      rewrite Hh1, list_lookup_insert_eq by done.
      eexists. split; [done|]. simpl. split; [done|].
      rewrite Hmd1h. destruct (Hold _ _ Hnd) as (n0' & Hn0' & E).
      assert (n0' = n0) as -> by congruence. by rewrite E. }
  split.
  { intros p n' Hp Hp2.
    assert (is_Some (heap s1 !! p)) as [n1 Hp1].
    { apply lookup_lt_is_Some. rewrite <- Hlen. by eapply lookup_lt_Some. }
    destruct (Hframe _ _ Hp1) as (n2 & Hp2' & _ & _ & _ & Hk).
    assert (n2 = n') as -> by congruence. rewrite Hk by done.
    rewrite Hh1 in Hp1. destruct (decide (p = t)) as [->|Hne].
    - rewrite list_lookup_insert_eq in Hp1 by done. by injection Hp1 as <-.
    - rewrite list_lookup_insert_ne in Hp1 by done. by eapply Hnew. }
  split; [by rewrite Hmp|]. split; [done | exact Hframe].
Qed.

Lemma mkdir_local_mirrors_then_creates_handles_witness :
  let provider : list Request → Request → option handle :=
    λ log _, Some (100 + length log) in
  let x := mkBlob "x" "text/plain" "x.txt" (Some "proj/x.txt") (Some 7) in
  let s := run provider [MountLocalFolder "" (Some [x])] new_Vfs in
  get_mount s "/proj/sub/inner" =
    (Some (mkMount "local" "/proj" (VNode 1)), "/sub/inner") ∧
  _closest_directory_handler_local (heap s) (VNode 1) (PStr "/sub/inner") =
    Ok (Some (MHandle 7, 1, ["sub"; "inner"])) ∧
  grants provider (requests s) 7 ["sub"; "inner"] = Some [100; 101] ∧
  ∃ t s2,
    mkdir provider "/proj/sub/inner" s = (Ok (VNode t), s2) ∧
    requests s2 = [mkRequest 7 "sub" true; mkRequest 100 "inner" true] ∧
    ∃ nt, heap s2 !! t = Some nt ∧
          metadata nt !! "directoryHandle" = Some (MHandle 101).
Proof.
  intros provider x s.
  split; [reflexivity|]. split; [reflexivity|]. split; [reflexivity|].
  assert (Forall (λ seg, JsObject.inherited seg = false) ["sub"; "inner"])
    as Hsafe by (repeat constructor).
  destruct (mkdir_local_mirrors_then_creates_handles provider
              [MountLocalFolder "" (Some [x])] "/proj/sub/inner"
              (mkMount "local" "/proj" (VNode 1)) "/sub/inner" 7 1
              ["sub"; "inner"] [100; 101]
              eq_refl eq_refl eq_refl Hsafe eq_refl)
    as (t & s1 & s2 & _ & Hmk & Hreq & _ & _ & (nt & Hnt & _ & Hh) & _).
  exists t, s2. split; [exact Hmk|]. split; [exact Hreq|].
  exists nt. split; [exact Hnt | exact Hh].
Defined.

(** C1, counterexample: under the mount [/proj], whose root carries the
    handle 7, the closest-handle search of [mkdir("/proj/x/constructor")]
    succeeds, but [_push] creates [x] and then throws on
    [Object.prototype.constructor]: the call rejects, no handle is
    requested and [x] carries none.  And when the provider rejects the
    request, [mkdir("/proj/sub")] rejects after [sub] has been created,
    which is left without a handle. *)
Lemma mkdir_local_rejects :
  let x := mkBlob "x" "text/plain" "x.txt" (Some "proj/x.txt") (Some 7) in
  let granting : list Request → Request → option handle := λ _ _, Some 8 in
  let s := run granting [MountLocalFolder "" (Some [x])] new_Vfs in
  let rejecting : list Request → Request → option handle := λ _ _, None in
  (_closest_directory_handler_local (heap s) (VNode 1) (PStr "/x/constructor") =
     Ok (Some (MHandle 7, 1, ["x"; "constructor"])) ∧
   let (r, s') := mkdir granting "/proj/x/constructor" s in
   r = Throw ∧ requests s' = [] ∧
   open s' (PStr "/proj/x") = Ok (VNode 3) ∧
   carries_handle (heap s') (VNode 3) = false) ∧
  (_closest_directory_handler_local (heap s) (VNode 1) (PStr "/sub") =
     Ok (Some (MHandle 7, 1, ["sub"])) ∧
   let (r, s') := mkdir rejecting "/proj/sub" s in
   r = Throw ∧ requests s' = [mkRequest 7 "sub" true] ∧
   open s' (PStr "/proj/sub") = Ok (VNode 3) ∧
   carries_handle (heap s') (VNode 3) = false).
Proof. vm_compute. done. Qed.

(** ** [normalize_path] and joined segments *)

Lemma split_slash_free s :
  slash_free s = true → JsString.split "/" s = [s].
Proof.
  induction s as [|c s IH]; simpl; [done|].
  intros [Hc Hs]%andb_true_iff. apply negb_true_iff in Hc. rewrite Hc.
  by rewrite IH.
Qed.

Lemma split_append a r :
  slash_free a = true →
  JsString.split "/" (a +:+ String "/" r) = a :: JsString.split "/" r.
Proof.
  induction a as [|c a IH]; simpl; [done|].
  intros [Hc Ha]%andb_true_iff. apply negb_true_iff in Hc. rewrite Hc.
  by rewrite IH.
Qed.

Lemma split_parts_slash_free s :
  Forall (λ seg, slash_free seg = true) (JsString.split "/" s).
Proof.
  induction s as [|c s IH]; simpl; [by repeat constructor|].
  destruct (Ascii.eqb c "/") eqn:Hc; [by constructor|].
  destruct (JsString.split "/" s) as [|x xs]; simpl.
  - repeat constructor. simpl. by rewrite Hc.
  - apply Forall_cons in IH as [Hx Hxs]. constructor; [|done].
    simpl. by rewrite Hc.
Qed.

Lemma split_concat l :
  l ≠ [] → Forall (λ seg, slash_free seg = true) l →
  JsString.split "/" (String.concat "/" l) = l.
Proof.
  induction l as [|x l IH]; [done|]. intros _ [Hx Hl]%Forall_cons.
  destruct l as [|y l].
  - by apply split_slash_free.
  - change (String.concat "/" (x :: y :: l))
      with (x +:+ String "/" (String.concat "/" (y :: l))).
    rewrite split_append by done. f_equal. by apply IH.
Qed.

(** X1: the segments [normalize_path] extracts from a string are never
    empty and contain no slash, and it returns an array as it is. *)
Theorem normalize_path_segments_clean :
  (∀ s, Forall (λ seg, seg ≠ "" ∧ slash_free seg = true)
               (normalize_path (PStr s))) ∧
  (∀ l, normalize_path (PSegs l) = l).
Proof.
  split; [|done]. intros s. unfold normalize_path.
  apply Forall_forall. intros seg [Hne Hin]%list_elem_of_filter. split.
  - by intros ->.
  - pose proof (split_parts_slash_free s) as H.
    rewrite Forall_forall in H. by apply H.
Qed.

(** X2: joining segments that are not empty and contain no slash with
    ["/"], after a leading slash, and normalizing the result gives the
    segments back. *)
Theorem normalize_path_of_joined segs :
  Forall (λ seg, seg ≠ "" ∧ slash_free seg = true) segs →
  normalize_path (PStr (String.concat "/" ("" :: segs))) = segs.
Proof.
  intros H. unfold normalize_path.
  rewrite split_concat; [|done|].
  - rewrite filter_cons_False by (simpl; lia).
    induction H as [|x l [Hx _] _ IH]; [done|].
    rewrite filter_cons_True; [by rewrite IH|].
    destruct x; [done | simpl; lia].
  - constructor; [done|]. eapply Forall_impl; [exact H|]. by intros x [_ ?].
Qed.

Lemma normalize_path_of_joined_witness :
  normalize_path (PStr (String.concat "/" [""; "docs"; "a.txt"])) =
  ["docs"; "a.txt"].
Proof.
  apply (normalize_path_of_joined ["docs"; "a.txt"]).
  repeat constructor; done.
Defined.

(** ** The shape of the tree *)

Lemma orphan_atomic l s s' :
  atomic l s s' →
  (∀ p n, heap s !! p = Some n → parent n = None → p = 0) →
  (∀ p n, heap s' !! p = Some n → parent n = None → p = 0).
Proof.
  intros [s0 q m seg Hq Hhas | s0 q m m' Hq | s0 mp | s0 r] Horph p n; simpl;
    try apply Horph.
  - pose proof (lookup_lt_Some _ _ _ Hq) as Hlt.
    intros [Hp | [Hge Hp]]%lookup_app_Some.
    + destruct (decide (p = q)) as [->|Hne].
      * rewrite list_lookup_insert_eq in Hp by done. injection Hp as <-.
        simpl. by apply Horph.
      * rewrite list_lookup_insert_ne in Hp by done. by apply Horph.
    + destruct (p - length (<[q:=_]> (heap s0))) as [|y]; [|done].
      by injection Hp as <-.
  - pose proof (lookup_lt_Some _ _ _ Hq) as Hlt.
    destruct (decide (p = q)) as [->|Hne].
    + rewrite list_lookup_insert_eq by done. intros [= <-]. simpl.
      by apply Horph.
    + rewrite list_lookup_insert_ne by done. apply Horph.
Qed.

Lemma orphan_evolves L s s' :
  evolves L s s' →
  (∀ p n, heap s !! p = Some n → parent n = None → p = 0) →
  (∀ p n, heap s' !! p = Some n → parent n = None → p = 0).
Proof.
  induction 1 as [|s1 s2 s3 (l & _ & Ha) _ IH]; [done|].
  intros H. apply IH. by eapply orphan_atomic.
Qed.

Lemma root_run provider ops :
  ∃ r, heap (run provider ops new_Vfs) !! 0 = Some r ∧
       name r = "" ∧ parent r = None.
Proof.
  pose proof (evolves_persists _ _ _ (evolves_run provider ops new_Vfs)) as Hper.
  destruct (Hper 0 _ eq_refl) as (r & Hr & Hname & Hpar & _). by exists r.
Qed.

(** X3: along every sequence of calls the nodes form a tree in which the
    [parent] references and the [_children] objects agree: the root has the
    empty name and no parent; every other node has a parent, created before
    it, whose [_children] maps the name of the node to the node; every
    entry of a [_children] object leads to a node of that name whose parent
    is the owner; and no two children of a node have the same name. *)
Theorem tree_parent_children_agree provider ops :
  let s := run provider ops new_Vfs in
  (∃ r, heap s !! root s = Some r ∧ name r = "" ∧ parent r = None) ∧
  (∀ q n, heap s !! q = Some n → q ≠ root s →
     ∃ p pn, parent n = Some p ∧ p < q ∧ heap s !! p = Some pn ∧
             JsObject.own (_children pn) (name n) = Some q) ∧
  (∀ p pn k c, heap s !! p = Some pn → JsObject.own (_children pn) k = Some c →
     ∃ cn, heap s !! c = Some cn ∧ name cn = k ∧ parent cn = Some p) ∧
  (∀ p pn, heap s !! p = Some pn → NoDup (_children pn).*1).
Proof.
  intros s. pose proof (wf_run provider ops) as Hwf. fold s in Hwf.
  destruct (wf_root _ Hwf) as [Hr0 _].
  split; [|split; [|split]].
  - rewrite Hr0. apply root_run.
  - intros q n Hq Hne. rewrite Hr0 in Hne.
    destruct (parent n) as [p|] eqn:Hpar.
    + pose proof (wf_parent _ Hwf _ _ _ Hq Hpar) as Hlt.
      destruct (lookup_lt_is_Some_2 (heap s) p) as [pn Hp].
      { apply lookup_lt_Some in Hq. lia. }
      exists p, pn. repeat split; try done.
      apply own_elem_NoDup; [by eapply wf_nodup|].
      rewrite (wf_children _ Hwf _ _ Hp). apply elem_of_created_under.
      by exists n.
    + destruct Hne.
      eapply (orphan_evolves _ new_Vfs s); [apply evolves_run | |done..].
      intros p' n' Hp' _. apply lookup_lt_Some in Hp'. simpl in Hp'. lia.
  - intros p pn k c Hp Hown. apply own_Some_elem in Hown.
    rewrite (wf_children _ Hwf _ _ Hp) in Hown.
    by apply elem_of_created_under in Hown.
  - intros p pn Hp. by eapply wf_nodup.
Qed.

(** ** The [path] of a node *)

Lemma open_loop_snoc h segs seg c0 p :
  open_loop h (segs ++ [seg]) c0 = Ok (VNode p) →
  ∃ q nq, open_loop h segs c0 = Ok (VNode q) ∧ h !! q = Some nq ∧
          JsObject.own (_children nq) seg = Some p.
Proof.
  revert c0. induction segs as [|x segs IH]; intros c0; simpl.
  - destruct c0 as [| | |q|]; try done. simpl.
    destruct (h !! q) as [nq|] eqn:Hq; [|done].
    destruct (JsObject.has (_children nq) seg); [|done]. simpl.
    unfold get_property.
    destruct (JsObject.own (_children nq) seg) as [c|] eqn:Hown.
    + intros [= ->]. by exists q, nq.
    + by destruct (JsObject.inherited seg).
  - destruct (children_of h c0) as [o|]; [|done].
    destruct (JsObject.has o x); [|done]. simpl. apply IH.
Qed.

Lemma path_loop_to_root s segs :
  wf s →
  (∃ r, heap s !! 0 = Some r ∧ name r = "" ∧ parent r = None) →
  ∀ p n acc fuel,
    open_loop (heap s) segs (VNode 0) = Ok (VNode p) →
    heap s !! p = Some n → length segs ≤ fuel →
    length segs ≤ p ∧
    path_loop fuel (heap s) n (acc ++ [name n]) = Some (Ok (acc ++ rev ("" :: segs))).
Proof.
  intros Hwf (r & Hr & Hrn & Hrp).
  induction segs as [|seg segs IH] using rev_ind; intros p n acc fuel Hopen Hp Hfuel.
  - simpl in Hopen. injection Hopen as <-. assert (n = r) as -> by congruence.
    split; [simpl; lia|]. destruct fuel; simpl; by rewrite Hrp, Hrn.
  - destruct (open_loop_snoc _ _ _ _ _ Hopen) as (q & nq & Hq & Hnq & Hown).
    apply own_Some_elem in Hown. rewrite (wf_children _ Hwf _ _ Hnq) in Hown.
    apply elem_of_created_under in Hown as (n' & Hp' & Hname & Hpar).
    assert (n' = n) as -> by congruence.
    pose proof (wf_parent _ Hwf _ _ _ Hp Hpar) as Hlt.
    rewrite length_app in *. simpl in *.
    destruct fuel as [|fuel]; [lia|].
    destruct (IH q nq (acc ++ [seg]) fuel Hq Hnq) as [Hlen Hloop]; [lia|].
    split; [lia|]. simpl. rewrite Hpar, Hnq, Hname, Hloop.
    rewrite rev_app_distr. simpl. by rewrite <- !app_assoc.
Qed.

(** X4: along every sequence of calls, when [open] resolves a path to a
    node, the loop of the [path] getter of that node ends (within as many
    turns as there are nodes) and [path] is the segments of the path joined
    by ["/"] after a leading slash: the empty string for the root. *)
Theorem path_of_opened_node provider ops path p fuel :
  let s := run provider ops new_Vfs in
  open s path = Ok (VNode p) →
  length (heap s) ≤ fuel →
  node_path fuel (heap s) p =
    Some (Ok (String.concat "/" ("" :: normalize_path path))).
Proof.
  intros s Hopen Hfuel.
  pose proof (wf_run provider ops) as Hwf. fold s in Hwf.
  destruct (open_valid _ _ _ Hwf Hopen) as [n Hp].
  unfold open, _open in Hopen. rewrite (proj1 (wf_root _ Hwf)) in Hopen.
  pose proof (lookup_lt_Some _ _ _ Hp) as Hlt.
  assert (length (normalize_path path) ≤ p) as Hlen.
  { eapply (path_loop_to_root s _ Hwf (root_run provider ops) p n [] _ Hopen Hp).
    reflexivity. }
  destruct (path_loop_to_root s _ Hwf (root_run provider ops) p n [] fuel Hopen Hp)
    as [_ Hloop]; [lia|].
  unfold node_path. rewrite Hp. simpl in Hloop. rewrite Hloop.
  f_equal. f_equal. f_equal.
  rewrite rev_app_distr. simpl. by rewrite rev_involutive.
Qed.

Lemma path_of_opened_node_witness :
  let s := run (λ _ _, None) [Mkdir "/a//b/"] new_Vfs in
  open s (PStr "a/b") = Ok (VNode 2) ∧
  node_path 3 (heap s) 2 = Some (Ok "/a/b").
Proof.
  intros s. split; [reflexivity|].
  apply (path_of_opened_node (λ _ _, None) [Mkdir "/a//b/"] (PStr "a/b") 2 3);
    [reflexivity | simpl; lia].
Defined.

(** ** Outcomes of [open] and [ls] *)

Lemma open_loop_plain s segs p :
  wf s → is_Some (heap s !! p) →
  Forall (λ seg, JsObject.inherited seg = false) segs →
  open_loop (heap s) segs (VNode p) = Ok VNull ∨
  ∃ q, open_loop (heap s) segs (VNode p) = Ok (VNode q) ∧ is_Some (heap s !! q).
Proof.
  intros Hwf Hp Hsegs. revert p Hp.
  induction Hsegs as [|seg segs Hseg _ IH]; intros p [n Hp]; simpl.
  { right. exists p. eauto. }
  rewrite Hp. destruct (JsObject.has (_children n) seg) eqn:Hhas; simpl; [|by left].
  destruct (get_property_wf _ _ _ _ Hwf Hp Hseg Hhas) as (c & cn & -> & Hc & _).
  apply IH. eauto.
Qed.

(** X5: along every sequence of calls, on a path none of whose segments is
    a property name inherited from [Object.prototype], [open] and [ls] do
    not throw: either the path is missing, [open] returns [null] and [ls]
    returns [null], or [open] returns a node and [ls] returns the names of
    its children: the names of the nodes created under it, in the order of
    enumeration of own property names. *)
Theorem open_and_ls_without_inherited_names provider ops path :
  let s := run provider ops new_Vfs in
  Forall (λ seg, JsObject.inherited seg = false) (normalize_path path) →
  (open s path = Ok VNull ∧ ls s path = Ok None) ∨
  (∃ p n,
     let names := JsObject.key_order (created_under (heap s) p).*1 in
     open s path = Ok (VNode p) ∧ heap s !! p = Some n ∧
     child_names (heap s) n = Ok names ∧ ls s path = Ok (Some names) ∧
     ∀ c cn, heap s !! c = Some cn → parent cn = Some p → name cn ∈ names).
Proof.
  intros s Hsafe. pose proof (wf_run provider ops) as Hwf. fold s in Hwf.
  assert (is_Some (heap s !! root s)) as Hroot.
  { destruct (wf_root _ Hwf) as [-> H]. done. }
  destruct (open_loop_plain s _ (root s) Hwf Hroot Hsafe)
    as [Hnull | (p & Hopen & [n Hp])].
  - left. unfold ls, open, _open. by rewrite Hnull.
  - right. exists p, n. cbv zeta.
    split; [done|]. split; [done|]. split; [by apply child_names_wf|].
    split; [by apply ls_wf|].
    intros c cn Hc Hpar. rewrite key_order_perm.
    apply list_elem_of_fmap. exists (name cn, c). split; [done|].
    apply elem_of_created_under. by exists cn.
Qed.

Lemma open_and_ls_without_inherited_names_witness :
  let s := run (λ _ _, None) [Mkdir "/a/b"; Mkdir "/a/10"; Mkdir "/a/9"] new_Vfs in
  Forall (λ seg, JsObject.inherited seg = false) (normalize_path (PStr "/a")) ∧
  Forall (λ seg, JsObject.inherited seg = false) (normalize_path (PStr "/a/x")) ∧
  open s (PStr "/a") = Ok (VNode 1) ∧
  ls s (PStr "/a") = Ok (Some ["9"; "10"; "b"]) ∧
  open s (PStr "/a/x") = Ok VNull ∧ ls s (PStr "/a/x") = Ok None.
Proof.
  intros s.
  assert (Forall (λ seg, JsObject.inherited seg = false)
            (normalize_path (PStr "/a"))) as Ha by (repeat constructor).
  assert (Forall (λ seg, JsObject.inherited seg = false)
            (normalize_path (PStr "/a/x"))) as Hx by (repeat constructor).
  split; [exact Ha|]. split; [exact Hx|].
  destruct (open_and_ls_without_inherited_names (λ _ _, None)
              [Mkdir "/a/b"; Mkdir "/a/10"; Mkdir "/a/9"] (PStr "/a") Ha)
    as [[Hnull _] | (p & n & Hopen & _ & _ & Hls & _)]; [discriminate Hnull|].
  destruct (open_and_ls_without_inherited_names (λ _ _, None)
              [Mkdir "/a/b"; Mkdir "/a/10"; Mkdir "/a/9"] (PStr "/a/x") Hx)
    as [[Hnull Hlsx] | (q & m & Hopenx & _)]; [|discriminate Hopenx].
  split; [reflexivity|]. split; [|split; [exact Hnull | exact Hlsx]].
  assert (p = 1) as -> by (vm_compute in Hopen; congruence).
  etrans; [exact Hls|]. reflexivity.
Defined.

Lemma own_keys_atomic l s s' :
  atomic l s s' →
  (∀ p n k, heap s !! p = Some n → k ∈ (_children n).*1 →
            JsObject.inherited k = false) →
  (∀ p n k, heap s' !! p = Some n → k ∈ (_children n).*1 →
            JsObject.inherited k = false).
Proof.
  intros [s0 q m seg Hq Hhas | s0 q m m' Hq | s0 mp | s0 r] Hown p n k; simpl;
    try apply Hown.
  - pose proof (lookup_lt_Some _ _ _ Hq) as Hlt.
    intros [Hp | [Hge Hp]]%lookup_app_Some.
    + destruct (decide (p = q)) as [->|Hne].
      * rewrite list_lookup_insert_eq in Hp by done. injection Hp as <-. simpl.
        rewrite fmap_app. intros [Hk | Hk]%elem_of_app; [by eapply Hown|].
        apply list_elem_of_singleton in Hk as ->.
        by apply has_false_own in Hhas as [_ ?].
      * rewrite list_lookup_insert_ne in Hp by done. by eapply Hown.
    + destruct (p - length (<[q:=_]> (heap s0))) as [|y]; [|done].
      injection Hp as <-. simpl. by intros ?%elem_of_nil.
  - pose proof (lookup_lt_Some _ _ _ Hq) as Hlt.
    destruct (decide (p = q)) as [->|Hne].
    + rewrite list_lookup_insert_eq by done. intros [= <-]. simpl. by eapply Hown.
    + rewrite list_lookup_insert_ne by done. apply Hown.
Qed.

Lemma own_keys_run provider ops p n k :
  heap (run provider ops new_Vfs) !! p = Some n →
  k ∈ (_children n).*1 → JsObject.inherited k = false.
Proof.
  pose proof (evolves_run provider ops new_Vfs) as He.
  assert (∀ p n k, heap new_Vfs !! p = Some n → k ∈ (_children n).*1 →
                   JsObject.inherited k = false) as H0.
  { intros [|p'] n' k' Hp'; [|done]. injection Hp' as <-.
    by intros ?%elem_of_nil. }
  revert p n k. induction He as [|s1 s2 s3 (l & _ & Ha) _ IH]; [done|].
  apply IH. by eapply own_keys_atomic.
Qed.

(** X6: along every sequence of calls no node is ever stored under a
    property name inherited from [Object.prototype], so that a lookup of
    such a name below a node that exists finds the member of
    [Object.prototype]: [open] returns that member (not [null], not a
    node), [ls] throws on it, and [open] throws when further segments
    follow. *)
Theorem open_inherited_name provider ops pre p k :
  let s := run provider ops new_Vfs in
  open s (PSegs pre) = Ok (VNode p) →
  JsObject.inherited k = true →
  open s (PSegs (pre ++ [k])) = Ok (VBuiltin k) ∧
  ls s (PSegs (pre ++ [k])) = Throw ∧
  ∀ seg rest, open s (PSegs (pre ++ k :: seg :: rest)) = Throw.
Proof.
  intros s Hopen Hk. pose proof (wf_run provider ops) as Hwf. fold s in Hwf.
  destruct (open_valid _ _ _ Hwf Hopen) as [n Hp].
  assert (JsObject.own (_children n) k = None) as Hown.
  { apply own_None_keys. intros Hin.
    pose proof (own_keys_run provider ops p n k Hp Hin). congruence. }
  unfold ls, open, _open in *. simpl in *.
  assert (∀ rest, open_loop (heap s) (pre ++ k :: rest) (VNode (root s)) =
                  open_loop (heap s) rest (VBuiltin k)) as Hstep.
  { intros rest. rewrite (open_loop_app _ _ _ _ _ Hopen). simpl. rewrite Hp.
    unfold JsObject.has, get_property. by rewrite Hown, Hk. }
  split; [apply Hstep|]. split; [by rewrite Hstep|].
  intros seg rest. by rewrite Hstep.
Qed.

Lemma open_inherited_name_witness :
  let s := run (λ _ _, None) [Mkdir "/a"] new_Vfs in
  open s (PSegs ["a"]) = Ok (VNode 1) ∧
  open s (PSegs ["a"; "toString"]) = Ok (VBuiltin "toString").
Proof.
  intros s. split; [reflexivity|].
  exact (proj1 (open_inherited_name (λ _ _, None) [Mkdir "/a"] ["a"] 1 "toString"
                  eq_refl eq_refl)).
Defined.

(** ** What each call may update *)

Lemma push_labels_tree_only md l : push_labels md l → tree_only l.
Proof. by destruct l. Qed.

Lemma respects_push_tree mount segments md :
  respects (evolves tree_only) (_push mount segments md).
Proof.
  eapply respects_weaken; [apply push_labels_tree_only | apply respects_push].
Qed.

Lemma respects_write_file_tree path file_name content md :
  respects (evolves tree_only) (write_file path file_name content md).
Proof.
  intros s. unfold write_file.
  destruct (get_mount s path) as [[mp|] rest].
  - destruct (String.eqb (mp_type mp) "local"); [|reflexivity].
    eapply evolves_weaken; [|apply respects_write_file_local].
    apply push_labels_tree_only.
  - apply respects_push_tree.
Qed.

Lemma tree_only_quiet l : tree_only l → quiet_local l.
Proof. by destruct l. Qed.

Lemma tree_only_no_mount l : tree_only l → no_mount l.
Proof. by destruct l. Qed.

Lemma respects_mount_local_file_quiet path fileOpen :
  respects (evolves quiet_local) (mount_local_file path fileOpen).
Proof.
  unfold mount_local_file. respects_walk.
  - eapply respects_weaken; [apply tree_only_quiet | apply respects_push_tree].
  - by apply respects_push_mount.
Qed.

Lemma respects_mount_folder_loop_tree _root blobs last_path :
  respects (evolves tree_only) (mount_folder_loop _root blobs last_path).
Proof.
  revert last_path. induction blobs as [|blob blobs IH]; intros last_path; simpl.
  { apply respects_ret, _. }
  destruct (webkitRelativePath blob) as [rel|]; respects_walk.
  - apply respects_push_tree.
  - by apply (respects_modify_metadata _ _
                (λ old, Object_assign old
                          [ {[ "directoryHandle" := handle_value (directoryHandle blob) ]} ])).
  - apply IH.
Qed.

Lemma respects_mount_local_folder_quiet path directoryOpen :
  respects (evolves quiet_local) (mount_local_folder path directoryOpen).
Proof.
  unfold mount_local_folder. respects_walk.
  - eapply respects_weaken; [apply tree_only_quiet|].
    apply respects_mount_folder_loop_tree.
  - by apply respects_push_mount.
Qed.

Lemma respects_mkdir_local_no_mount provider mount path :
  respects (evolves no_mount) (_mkdir_local provider mount path).
Proof.
  unfold _mkdir_local. respects_walk.
  - eapply respects_weaken; [|apply respects_push_tree].
    apply tree_only_no_mount.
  - eapply respects_weaken; [|apply respects_mkdir_local_loop].
    by intros [].
Qed.

Lemma respects_mkdir_no_mount provider path :
  respects (evolves no_mount) (mkdir provider path).
Proof.
  intros s. unfold mkdir.
  destruct (get_mount s path) as [[mp|] rest].
  - destruct (String.eqb (mp_type mp) "local"); [|reflexivity].
    apply respects_mkdir_local_no_mount.
  - eapply evolves_weaken; [apply tree_only_no_mount | apply respects_push_tree].
Qed.

Lemma respects_step_local provider o :
  respects (evolves local_mounts) (step provider o).
Proof.
  destruct o; simpl.
  - eapply respects_weaken; [|apply respects_mkdir_no_mount]. by intros [].
  - eapply respects_weaken; [|apply respects_write_file_tree]. by intros [].
  - eapply respects_weaken; [|apply respects_mount_local_file_quiet]. by intros [].
  - eapply respects_weaken; [|apply respects_mount_local_folder_quiet]. by intros [].
Qed.

Lemma evolves_requests L s s' :
  (∀ l, L l → match l with LRequest _ => False | _ => True end) →
  evolves L s s' → requests s' = requests s.
Proof.
  intros HL. induction 1 as [|s1 s2 s3 (l & Hl & Ha) _ IH]; [done|].
  rewrite IH. apply HL in Hl. by destruct Ha.
Qed.

Lemma evolves_requests_prefix L s s' :
  evolves L s s' → requests s `prefix_of` requests s'.
Proof.
  induction 1 as [|s1 s2 s3 (l & Hl & Ha) _ IH]; [done|].
  etrans; [|exact IH]. destruct Ha; simpl; try done. by apply prefix_app_r.
Qed.

Lemma evolves_mounts L s s' :
  (∀ l, L l → no_mount l) → evolves L s s' → mount_points s' = mount_points s.
Proof.
  intros HL. induction 1 as [|s1 s2 s3 (l & Hl & Ha) _ IH]; [done|].
  rewrite IH. apply HL in Hl. by destruct Ha.
Qed.

Lemma evolves_mounts_prefix L s s' :
  evolves L s s' → mount_points s `prefix_of` mount_points s'.
Proof.
  induction 1 as [|s1 s2 s3 (l & Hl & Ha) _ IH]; [done|].
  etrans; [|exact IH]. destruct Ha; simpl; try done. by apply prefix_app_r.
Qed.

Lemma evolves_mounts_local s s' :
  evolves local_mounts s s' →
  Forall (λ m, mp_type m = "local") (mount_points s) →
  Forall (λ m, mp_type m = "local") (mount_points s').
Proof.
  induction 1 as [|s1 s2 s3 (l & Hl & Ha) _ IH]; [done|].
  intros H. apply IH. destruct Ha; simpl; try done.
  apply Forall_app. split; [done|]. by repeat constructor.
Qed.

Lemma evolves_root L s s' : evolves L s s' → root s' = root s.
Proof.
  induction 1 as [|s1 s2 s3 (l & Hl & Ha) _ IH]; [done|].
  rewrite IH. by destruct Ha.
Qed.

Lemma evolves_run_local provider ops s :
  evolves local_mounts s (run provider ops s).
Proof.
  revert s. induction ops as [|o ops IH]; intros s; simpl; [reflexivity|].
  etrans; [apply respects_step_local | apply IH].
Qed.

(** X7: whatever the state and the arguments, whether the path is mounted
    or not and whether the call succeeds or not, [write_file] sends no
    request to a directory handle and registers no mount point: it updates
    the tree alone. *)
Theorem write_file_updates_tree_only path file_name content md s :
  let s' := (write_file path file_name content md s).2 in
  requests s' = requests s ∧ mount_points s' = mount_points s ∧
  root s' = root s.
Proof.
  intros s'. pose proof (respects_write_file_tree path file_name content md s) as He.
  fold s' in He. split; [|split].
  - eapply evolves_requests; [|exact He]. by intros [].
  - eapply evolves_mounts; [|exact He]. by intros [].
  - by eapply evolves_root.
Qed.

(** X8: [mkdir] never registers a mount point and only adds to the
    requests sent; on a path that no mount point matches it sends no
    request at all. *)
Theorem mkdir_keeps_mount_table provider path s :
  let s' := (mkdir provider path s).2 in
  mount_points s' = mount_points s ∧
  requests s `prefix_of` requests s' ∧
  ((get_mount s path).1 = None → requests s' = requests s).
Proof.
  intros s'. pose proof (respects_mkdir_no_mount provider path s) as He.
  fold s' in He. split; [|split].
  - by eapply evolves_mounts.
  - by eapply evolves_requests_prefix.
  - intros Hm. unfold s', mkdir.
    destruct (get_mount s path) as [[mp|] rest]; [done|].
    eapply evolves_requests; [|apply respects_push_tree]. by intros [].
Qed.

(** X9: the mount table only grows at its end and holds mount points of
    type [local] only: after any sequence of calls the earlier table is a
    prefix of the later one, and every mount point registered from
    [new Vfs()] on has type ["local"]. *)
Theorem mount_table_append_only provider ops :
  (∀ s, mount_points s `prefix_of` mount_points (run provider ops s)) ∧
  Forall (λ m, mp_type m = "local")
         (mount_points (run provider ops new_Vfs)).
Proof.
  split.
  - intros s. eapply evolves_mounts_prefix, evolves_run_local.
  - eapply evolves_mounts_local; [apply evolves_run_local | constructor].
Qed.

Lemma get_mount_loop_app mps mps' path m rest :
  get_mount_loop mps path = (Some m, rest) →
  get_mount_loop (mps ++ mps') path = (Some m, rest).
Proof.
  induction mps as [|x mps IH]; simpl; [done|].
  by destruct (JsString.startsWith (mp_path x) path).
Qed.

(** X10: a path that a mount point matches keeps that mount point and that
    remainder after any sequence of calls: mount points registered later
    never take over a path matched earlier. *)
Theorem get_mount_stable provider ops s path m rest :
  get_mount s path = (Some m, rest) →
  get_mount (run provider ops s) path = (Some m, rest).
Proof.
  intros Hm. unfold get_mount in *.
  destruct (evolves_mounts_prefix _ _ _ (evolves_run_local provider ops s))
    as [more ->].
  by apply get_mount_loop_app.
Qed.

Lemma get_mount_stable_witness :
  let provider : list Request → Request → option handle := λ _ _, None in
  let f name := mkBlob "x" "text/plain" name None None in
  let s := run provider [MountLocalFile "" (Some (f "docs"))] new_Vfs in
  let s' := run provider [MountLocalFile "/docs" (Some (f "a")); Mkdir "/docs/a/b"] s in
  get_mount s "/docs/a/b" = (Some (mkMount "local" "/docs" (VNode 1)), "/a/b") ∧
  get_mount s' "/docs/a/b" = (Some (mkMount "local" "/docs" (VNode 1)), "/a/b").
Proof.
  intros provider f s s'. split; [reflexivity|].
  apply (get_mount_stable provider
           [MountLocalFile "/docs" (Some (f "a")); Mkdir "/docs/a/b"] s).
  reflexivity.
Defined.

(** X11: nodes are never deleted, renamed or moved: after any sequence of
    calls every node is still in the store with its name and its parent, and
    every path that [open] resolved to a node resolves to the same node. *)
Theorem opened_paths_keep_resolving provider ops s path p :
  open s path = Ok (VNode p) →
  open (run provider ops s) path = Ok (VNode p) ∧
  ∀ q n, heap s !! q = Some n →
    ∃ n', heap (run provider ops s) !! q = Some n' ∧
          name n' = name n ∧ parent n' = parent n.
Proof.
  intros Hopen. pose proof (evolves_run_local provider ops s) as He.
  pose proof (evolves_persists _ _ _ He) as Hper. split.
  - unfold open. rewrite (evolves_root _ _ _ He).
    by eapply open_loop_persists.
  - intros q n Hq. destruct (Hper _ _ Hq) as (n' & ? & ? & ? & _). eauto.
Qed.

Lemma opened_paths_keep_resolving_witness :
  let provider : list Request → Request → option handle := λ _ _, None in
  let s := run provider [Mkdir "/a/b"] new_Vfs in
  let s' := run provider [WriteFile "/a/b/c" "c" "x" None; Mkdir "/a/0"] s in
  open s (PStr "/a/b") = Ok (VNode 2) ∧ open s' (PStr "/a/b") = Ok (VNode 2).
Proof.
  intros provider s s'. split; [reflexivity|].
  exact (proj1 (opened_paths_keep_resolving provider
                  [WriteFile "/a/b/c" "c" "x" None; Mkdir "/a/0"] s
                  (PStr "/a/b") 2 eq_refl)).
Defined.

(** ** Pushing and finding again *)

Lemma set_heap_same s : set_heap (heap s) s = s.
Proof. by destruct s. Qed.

Lemma Object_assign_twice old a md :
  Object_assign (Object_assign old [a; md]) [a; md] = Object_assign old [a; md].
Proof.
  apply map_eq. intros k. rewrite !Object_assign_lookup.
  destruct (md !! k); [done|]. by destruct (a !! k).
Qed.

(** A push that returned, repeated with the same metadata, returns the same
    node and leaves the state as it is. *)
Lemma push_same_again mount path md s r s1 :
  _push mount path md s = (Ok r, s1) →
  _push mount path md s1 = (Ok r, s1).
Proof.
  intros Hpush.
  destruct (push_ok _ _ _ _ _ _ Hpush) as (t & n0 & s0 & -> & Hloop & Ht & ->).
  pose proof (lookup_lt_Some _ _ _ Ht) as Hlt.
  unfold _push, mbind, M_bind, bind.
  rewrite (push_loop_found _ _ _ t).
  2:{ simpl. rewrite open_loop_meta by done. by apply push_loop_open in Hloop. }
  simpl. unfold modify. simpl. rewrite list_lookup_insert_eq by done. simpl.
  rewrite Object_assign_twice. rewrite list_insert_insert_eq.
  done.
Qed.

(** X12: outside of the mounts, [mkdir] and [write_file] are idempotent:
    when the call returns, the same call again returns the same node and
    leaves the whole state as it is. *)
Theorem memfs_calls_idempotent provider path file_name content md s :
  (get_mount s path).1 = None →
  (∀ r s1, mkdir provider path s = (Ok r, s1) →
           mkdir provider path s1 = (Ok r, s1)) ∧
  (∀ r s1, write_file path file_name content md s = (Ok r, s1) →
           write_file path file_name content md s1 = (Ok r, s1)).
Proof.
  intros Hm. split; intros r s1 Hcall.
  - pose proof (respects_mkdir_no_mount provider path s) as He.
    rewrite Hcall in He. cbn [snd] in He.
    pose proof (evolves_mounts no_mount s s1 (λ l H, H) He) as Hmp.
    pose proof (evolves_root _ s s1 He) as Hroot.
    unfold mkdir, get_mount in *. rewrite Hmp.
    destruct (get_mount_loop (mount_points s) path) as [[m|] rest]; [done|].
    unfold _mkdir_memfs in *. rewrite Hroot. by eapply push_same_again.
  - pose proof (respects_write_file_tree path file_name content md s) as He.
    rewrite Hcall in He. cbn [snd] in He.
    pose proof (evolves_mounts tree_only s s1 tree_only_no_mount He) as Hmp.
    pose proof (evolves_root _ s s1 He) as Hroot.
    unfold write_file, get_mount in *. rewrite Hmp.
    destruct (get_mount_loop (mount_points s) path) as [[m|] rest]; [done|].
    unfold _write_file_memfs in *. rewrite Hroot. by eapply push_same_again.
Qed.

Lemma memfs_calls_idempotent_witness :
  let provider : list Request → Request → option handle := λ _ _, None in
  let s1 := (mkdir provider "/a/b" new_Vfs).2 in
  let s2 := (write_file "/a/b" "b" "text" None new_Vfs).2 in
  (get_mount new_Vfs "/a/b").1 = None ∧
  mkdir provider "/a/b" new_Vfs = (Ok (VNode 2), s1) ∧
  mkdir provider "/a/b" s1 = (Ok (VNode 2), s1) ∧
  write_file "/a/b" "b" "text" None new_Vfs = (Ok (VNode 2), s2) ∧
  write_file "/a/b" "b" "text" None s2 = (Ok (VNode 2), s2).
Proof.
  intros provider s1 s2.
  pose proof (memfs_calls_idempotent provider "/a/b" "b" "text" None new_Vfs
                eq_refl) as [Hmk Hwr].
  split; [reflexivity|]. split; [reflexivity|].
  split; [by apply Hmk|]. split; [reflexivity|]. by apply Hwr.
Defined.

(** On segments that are not inherited names, a push from a node returns
    the node the path then resolves to, with the metadata merged. *)
Lemma push_round_trip s p path md :
  wf s → is_Some (heap s !! p) → md !! "id" = None →
  Forall (λ seg, JsObject.inherited seg = false) (normalize_path path) →
  ∃ t n' s',
    _push (VNode p) path md s = (Ok (VNode t), s') ∧ wf s' ∧
    open_loop (heap s') (normalize_path path) (VNode p) = Ok (VNode t) ∧
    heap s' !! t = Some n' ∧
    (∀ k v, md !! k = Some v → metadata n' !! k = Some v) ∧
    (md !! "type" = None → metadata n' !! "type" = Some (MStr "file")).
Proof.
  intros Hwf Hp Hid Hsafe.
  destruct (push_loop_total _ _ _ Hwf Hp Hsafe) as (t & s0 & Hloop & Hwf0 & [n0 Ht]).
  pose proof (lookup_lt_Some _ _ _ Ht) as Hlt.
  set (md' := Object_assign (metadata n0) [ {[ "type" := MStr "file" ]}; md ]).
  exists t, (set_metadata md' n0), (set_heap (<[t := set_metadata md' n0]> (heap s0)) s0).
  split; [|split; [|split; [|split; [|split]]]].
  - unfold _push, mbind, M_bind, bind. rewrite Hloop. simpl.
    unfold modify. by rewrite Ht.
  - apply wf_meta; [done | | done]. unfold md'.
    by rewrite Object_assign_lookup, Hid.
  - simpl. rewrite open_loop_meta by done. by apply push_loop_open in Hloop.
  - simpl. by apply list_lookup_insert_eq.
  - intros k v Hk. simpl. unfold md'. by rewrite Object_assign_lookup, Hk.
  - intros Hk. simpl. unfold md'. by rewrite Object_assign_lookup, Hk.
Qed.

Lemma get_mount_none s path rest :
  get_mount s path = (None, rest) → rest = path.
Proof.
  intros H. pose proof (get_mount_loop_spec (mount_points s) path) as Hs.
  unfold get_mount in H. rewrite H in Hs. by destruct Hs.
Qed.

Lemma ls_lists_child s q nq x t :
  wf s → heap s !! q = Some nq → JsObject.own (_children nq) x = Some t →
  ∃ names, child_names (heap s) nq = Ok names ∧ x ∈ names.
Proof.
  intros Hwf Hq Hown. eexists. split; [by apply child_names_wf|].
  rewrite key_order_perm, <- (wf_children _ Hwf _ _ Hq).
  apply list_elem_of_fmap. exists (x, t). split; [done|].
  by apply own_Some_elem.
Qed.

(** X13: along every sequence of calls, [mkdir] on a path that no mount
    point matches and none of whose segments is a property name inherited
    from [Object.prototype] returns a node; afterwards [open] resolves the
    path to that node, which has type ["folder"], and [ls] of the path
    without its last segment lists that segment. *)
Theorem mkdir_then_open provider ops path :
  let s := run provider ops new_Vfs in
  (get_mount s path).1 = None →
  Forall (λ seg, JsObject.inherited seg = false) (normalize_path (PStr path)) →
  ∃ t nt s',
    mkdir provider path s = (Ok (VNode t), s') ∧
    open s' (PStr path) = Ok (VNode t) ∧
    heap s' !! t = Some nt ∧
    metadata nt !! "type" = Some (MStr "folder") ∧
    ∀ pre x, normalize_path (PStr path) = pre ++ [x] →
      ∃ names, ls s' (PSegs pre) = Ok (Some names) ∧ x ∈ names.
Proof.
  intros s Hm Hsafe. pose proof (wf_run provider ops) as Hwf. fold s in Hwf.
  destruct (get_mount s path) as [[m|] rest] eqn:Hgm; [done|].
  apply get_mount_none in Hgm as Hrest. subst rest.
  assert (is_Some (heap s !! root s)) as Hroot.
  { destruct (wf_root _ Hwf) as [-> H]. done. }
  assert (({[ "type" := MStr "folder" ]} : gmap string mval) !! "id" = None)
    as Hid by done.
  destruct (push_round_trip s (root s) (PStr path) {[ "type" := MStr "folder" ]}
              Hwf Hroot Hid Hsafe)
    as (t & nt & s' & Hpush & Hwf' & Hopen & Ht & Hmd & _).
  pose proof (respects_push_tree (VNode (root s)) (PStr path)
                {[ "type" := MStr "folder" ]} s) as He.
  rewrite Hpush in He. cbn [snd] in He.
  pose proof (evolves_root _ s s' He) as Hr.
  exists t, nt, s'. split; [|split; [|split; [|split]]].
  - unfold mkdir. by rewrite Hgm.
  - unfold open, _open. by rewrite Hr.
  - done.
  - by apply Hmd.
  - intros pre x Hsplit. rewrite Hsplit in Hopen.
    destruct (open_loop_snoc _ _ _ _ _ Hopen) as (q & nq & Hq & Hnq & Hown).
    destruct (ls_lists_child s' q nq x t Hwf' Hnq Hown) as (names & Hnames & Hin).
    exists names. split; [|done].
    unfold ls, open, _open. simpl. by rewrite Hr, Hq, Hnq, Hnames.
Qed.

Lemma mkdir_then_open_witness :
  let provider : list Request → Request → option handle := λ _ _, None in
  let s' := (mkdir provider "/a/b/c" new_Vfs).2 in
  (get_mount new_Vfs "/a/b/c").1 = None ∧
  ∃ t, (mkdir provider "/a/b/c" new_Vfs).1 = Ok (VNode t) ∧
       open s' (PStr "/a/b/c") = Ok (VNode t) ∧
       ∃ names, ls s' (PSegs ["a"; "b"]) = Ok (Some names) ∧ "c" ∈ names.
Proof.
  intros provider s'. split; [reflexivity|].
  assert (Forall (λ seg, JsObject.inherited seg = false)
            (normalize_path (PStr "/a/b/c"))) as Hsafe by (repeat constructor).
  destruct (mkdir_then_open provider [] "/a/b/c" eq_refl Hsafe)
    as (t & nt & s1 & Hmk & Hopen & _ & _ & Hls).
  exists t. unfold s'. simpl in Hmk. rewrite Hmk. split; [done|].
  split; [exact Hopen|]. by apply (Hls ["a"; "b"] "c").
Defined.

Lemma toLowerCase_length t : String.length (toLowerCase t) = String.length t.
Proof. induction t as [|c t IH]; simpl; [done | by rewrite IH]. Qed.

Lemma toLowerCase_get t i :
  String.get i (toLowerCase t) = ascii_lowercase <$> String.get i t.
Proof.
  revert i. induction t as [|c t IH]; intros i; simpl; [done|].
  destruct i as [|i]; [done | apply IH].
Qed.

(** X14: along every sequence of calls, [write_file] on a path that no
    mount point matches and none of whose segments is a property name
    inherited from [Object.prototype] returns a node; afterwards [open]
    resolves the path to that node, which has type ["file"] and carries the
    blob made of the content, named [file_name].  The type of the blob is
    the one [new Blob] makes of the hint given: the hint in ASCII lower
    case, or the empty string when the hint has a code unit outside
    U+0020..U+007E; it is ["plain/text"] when the hint is missing or
    empty. *)
Theorem write_file_then_open provider ops path file_name content md :
  let s := run provider ops new_Vfs in
  (get_mount s path).1 = None →
  Forall (λ seg, JsObject.inherited seg = false) (normalize_path (PStr path)) →
  ∃ t nt s',
    write_file path file_name content md s = (Ok (VNode t), s') ∧
    open s' (PStr path) = Ok (VNode t) ∧
    heap s' !! t = Some nt ∧
    metadata nt !! "type" = Some (MStr "file") ∧
    (∃ ty, metadata nt !! "blob" =
             Some (MBlob (mkBlob content ty file_name None None)) ∧
           match md with
           | None | Some "" => ty = "plain/text"
           | Some hint =>
               if type_units hint then
                 String.length ty = String.length hint ∧
                 ∀ i, String.get i ty = ascii_lowercase <$> String.get i hint
               else ty = ""
           end).
Proof.
  intros s Hm Hsafe. pose proof (wf_run provider ops) as Hwf. fold s in Hwf.
  destruct (get_mount s path) as [[m|] rest] eqn:Hgm; [done|].
  apply get_mount_none in Hgm as Hrest. subst rest.
  assert (is_Some (heap s !! root s)) as Hroot.
  { destruct (wf_root _ Hwf) as [-> H]. done. }
  set (blob := mkBlob content (blob_type_option md) file_name None None).
  assert (({[ "type" := MStr "file"; "blob" := MBlob blob ]}
             : gmap string mval) !! "id" = None) as Hid by done.
  destruct (push_round_trip s (root s) (PStr path)
              {[ "type" := MStr "file"; "blob" := MBlob blob ]}
              Hwf Hroot Hid Hsafe)
    as (t & nt & s' & Hpush & Hwf' & Hopen & Ht & Hmd & _).
  pose proof (respects_push_tree (VNode (root s)) (PStr path)
                {[ "type" := MStr "file"; "blob" := MBlob blob ]} s) as He.
  rewrite Hpush in He. cbn [snd] in He.
  pose proof (evolves_root _ s s' He) as Hr.
  exists t, nt, s'. split; [|split; [|split; [|split]]].
  - unfold write_file. by rewrite Hgm.
  - unfold open, _open. by rewrite Hr.
  - done.
  - by apply Hmd.
  - exists (blob_type_option md). split; [by apply Hmd|].
    destruct md as [hint|]; [|done].
    destruct hint as [|c hint]; [done|].
    unfold blob_type_option, Blob_type. cbn [type_option String.eqb].
    destruct (type_units (String c hint)); [|done].
    split; [apply toLowerCase_length | apply toLowerCase_get].
Qed.

Lemma write_file_then_open_witness :
  let provider : list Request → Request → option handle := λ _ _, None in
  let s' := (write_file "/a/page" "page.html" "hello" (Some "Text/HTML") new_Vfs).2 in
  (get_mount new_Vfs "/a/page").1 = None ∧
  ∃ t nt, open s' (PStr "/a/page") = Ok (VNode t) ∧
          heap s' !! t = Some nt ∧
          metadata nt !! "blob" =
            Some (MBlob (mkBlob "hello" "text/html" "page.html" None None)).
Proof.
  intros provider s'. split; [reflexivity|].
  assert (Forall (λ seg, JsObject.inherited seg = false)
            (normalize_path (PStr "/a/page"))) as Hsafe by (repeat constructor).
  destruct (write_file_then_open provider [] "/a/page" "page.html" "hello"
              (Some "Text/HTML") eq_refl Hsafe)
    as (t & nt & s1 & Hw & Hopen & Hnt & _ & ty & Hblob & _).
  exists t, nt. pose proof (f_equal snd Hw : s' = s1) as Hs. rewrite Hs.
  split; [exact Hopen|]. split; [exact Hnt|].
  pose proof (f_equal fst Hw) as Ht. vm_compute in Ht. injection Ht as <-.
  rewrite <- Hs in Hnt. vm_compute in Hnt. injection Hnt as <-.
  reflexivity.
Defined.

(** ** The deepest handle *)

Lemma handle_at_none_carries h v :
  handle_at h v = Ok None → carries_handle h v = false.
Proof.
  destruct v as [| | |p|]; simpl; try done.
  destruct (h !! p) as [n|]; [|done].
  destruct (metadata n !! "directoryHandle") as [x|]; [|done].
  by destruct (truthy x).
Qed.

Lemma handle_at_some h v hd p :
  handle_at h v = Ok (Some (hd, p)) →
  ∃ n, v = VNode p ∧ h !! p = Some n ∧
       metadata n !! "directoryHandle" = Some hd ∧ truthy hd = true.
Proof.
  destruct v as [| | |q|]; simpl; try done.
  destruct (h !! q) as [n|] eqn:Hq; [|done].
  destruct (metadata n !! "directoryHandle") as [x|] eqn:Hx; [|done].
  destruct (truthy x) eqn:Ht; [|done].
  intros [= <- <-]. by exists n.
Qed.

Lemma closest_loop_result h mount segs k tc found :
  k ≤ length segs → rev tc = drop k segs →
  closest_loop h mount (rev (take k segs)) tc = Ok found →
  match found with
  | Some (hd, p, pending) =>
      ∃ j n, j ≤ k ∧ pending = drop j segs ∧
             _open h mount (PSegs (take j segs)) = Ok (VNode p) ∧
             h !! p = Some n ∧
             metadata n !! "directoryHandle" = Some hd ∧ truthy hd = true ∧
             ∀ i, j < i ≤ k →
               ∃ v, _open h mount (PSegs (take i segs)) = Ok v ∧
                    carries_handle h v = false
  | None =>
      ∀ i, i ≤ k →
        ∃ v, _open h mount (PSegs (take i segs)) = Ok v ∧
             carries_handle h v = false
  end.
Proof.
  revert tc. induction k as [|k IH]; intros tc Hk Htc.
  - rewrite take_0. cbn [rev closest_loop].
    destruct (_open h mount (PSegs [])) as [v|] eqn:Hopen; [|done].
    destruct (handle_at h v) as [[[x q]|]|] eqn:Hat; [| |done].
    + intros [= <-]. apply handle_at_some in Hat as (n & -> & Hq & Hx & Ht).
      exists 0, n. rewrite take_0. split_and!; try done.
      intros i Hi. lia.
    + intros [= <-]. intros i Hi. assert (i = 0) as -> by lia.
      rewrite take_0. exists v. split; [done|]. by apply handle_at_none_carries.
  - destruct (lookup_lt_is_Some_2 segs k) as [seg Hseg]; [lia|].
    rewrite (rev_take_S _ _ _ Hseg). cbn [closest_loop].
    rewrite <- (rev_take_S _ _ _ Hseg), rev_involutive.
    destruct (_open h mount (PSegs (take (S k) segs))) as [v|] eqn:Hopen; [|done].
    destruct (handle_at h v) as [[[x q]|]|] eqn:Hat; [| |done].
    + intros [= <-]. apply handle_at_some in Hat as (n & -> & Hq & Hx & Ht).
      exists (S k), n. split_and!; try done.
      intros i Hi. lia.
    + intros Hrec. apply IH in Hrec; [|lia|].
      2:{ rewrite rev_app_distr. simpl. rewrite Htc. symmetry. by apply drop_S. }
      apply handle_at_none_carries in Hat.
      destruct found as [[[hd p] pending]|].
      * destruct Hrec as (j & n & Hj & Hpend & Hop & Hp & Hhd & Ht & Hdeep).
        exists j, n. split_and!; try done; [lia|].
        intros i Hi. destruct (decide (i = S k)) as [->|Hne]; [by exists v|].
        apply Hdeep. lia.
      * intros i Hi. destruct (decide (i = S k)) as [->|Hne]; [by exists v|].
        apply Hrec. lia.
Qed.

(** X15: when the search for the closest directory handle returns, what it
    returns is the deepest node on the walk along the path that carries a
    handle, with that handle and the segments below the node; every lookup
    further down the path went through without finding a handle.  It returns
    the triple of [null]s only when no node on the walk carries a handle. *)
Theorem closest_handle_is_deepest h mount path found :
  _closest_directory_handler_local h mount path = Ok found →
  let segs := normalize_path path in
  match found with
  | Some (hd, p, pending) =>
      ∃ j n, j ≤ length segs ∧ pending = drop j segs ∧
             _open h mount (PSegs (take j segs)) = Ok (VNode p) ∧
             h !! p = Some n ∧
             metadata n !! "directoryHandle" = Some hd ∧ truthy hd = true ∧
             ∀ i, j < i ≤ length segs →
               ∃ v, _open h mount (PSegs (take i segs)) = Ok v ∧
                    carries_handle h v = false
  | None =>
      ∀ i, i ≤ length segs →
        ∃ v, _open h mount (PSegs (take i segs)) = Ok v ∧
             carries_handle h v = false
  end.
Proof.
  intros H segs. unfold _closest_directory_handler_local in H. fold segs in H.
  replace (rev segs) with (rev (take (length segs) segs)) in H
    by (by rewrite firstn_all).
  apply closest_loop_result in H; [done..|].
  by rewrite drop_all.
Qed.

Lemma closest_handle_is_deepest_witness :
  let provider : list Request → Request → option handle := λ _ _, None in
  let b := mkBlob "x" "text/plain" "f" (Some "d/f") (Some 7) in
  let s := run provider [MountLocalFolder "" (Some [b])] new_Vfs in
  let segs := normalize_path (PStr "d/x/y") in
  _closest_directory_handler_local (heap s) (VNode 0) (PStr "d/x/y") =
    Ok (Some (MHandle 7, 1, ["x"; "y"])) ∧
  ∃ j n, j ≤ length segs ∧ ["x"; "y"] = drop j segs ∧
         _open (heap s) (VNode 0) (PSegs (take j segs)) = Ok (VNode 1) ∧
         heap s !! 1 = Some n ∧
         metadata n !! "directoryHandle" = Some (MHandle 7) ∧
         truthy (MHandle 7) = true ∧
         ∀ i, j < i ≤ length segs →
           ∃ v, _open (heap s) (VNode 0) (PSegs (take i segs)) = Ok v ∧
                carries_handle (heap s) v = false.
Proof.
  intros provider b s segs. split; [reflexivity|].
  exact (closest_handle_is_deepest (heap s) (VNode 0) (PStr "d/x/y")
           (Some (MHandle 7, 1, ["x"; "y"])) eq_refl).
Defined.

(** ** Mounting a local file or folder *)

Lemma tree_only_keeps s s' :
  evolves tree_only s s' →
  requests s' = requests s ∧ mount_points s' = mount_points s ∧
  root s' = root s.
Proof.
  intros He. split; [|split].
  - eapply evolves_requests; [|exact He]. by intros [].
  - eapply evolves_mounts; [|exact He]. by intros [].
  - by eapply evolves_root.
Qed.

Lemma push_loop_from_node segs v s t s0 :
  push_loop segs v s = (Ok (VNode t), s0) → ∃ p, v = VNode p.
Proof.
  destruct segs as [|seg segs]; simpl.
  - intros [= -> _]. eauto.
  - unfold mbind, M_bind, bind.
    destruct (push_step seg v s) as [[c|] s1] eqn:Hstep; [|done].
    intros _. apply push_step_child in Hstep as (p & _ & -> & _). eauto.
Qed.

(** X16: [mount_local_file] never throws and sends no request.  Either it
    returns [false] and registers nothing, or the path opened to a node, the
    file picker gave a blob, and the call returns the node that the name of
    the blob then leads to below that node; this node carries the blob and
    the type ["file"], and the mount table has one more entry, at its end:
    the mount point of type ["local"] rooted at the node returned, whose
    path is the path given, a slash and the name of the blob. *)
Theorem mount_local_file_outcome path fileOpen s :
  ∃ r s',
    mount_local_file path fileOpen s = (Ok r, s') ∧
    requests s' = requests s ∧
    ((r = VFalse ∧ mount_points s' = mount_points s) ∨
     ∃ p t nt blob,
       open s (PStr path) = Ok (VNode p) ∧ fileOpen = Some blob ∧
       r = VNode t ∧
       mount_points s' =
         mount_points s ++
           [mkMount "local" (path +:+ "/" +:+ blob_name blob) (VNode t)] ∧
       open_loop (heap s') (normalize_path (PStr (blob_name blob))) (VNode p)
         = Ok (VNode t) ∧
       heap s' !! t = Some nt ∧
       metadata nt !! "blob" = Some (MBlob blob) ∧
       metadata nt !! "type" = Some (MStr "file")).
Proof.
  unfold mount_local_file, try_catch, mbind, M_bind, bind, gets.
  destruct (open s (PStr path)) as [v|] eqn:Hopen; [|by eauto 10].
  destruct fileOpen as [blob|]; simpl; [|by eauto 10].
  set (md := ({[ "blob" := MBlob blob; "type" := MStr "file" ]} : gmap string mval)).
  pose proof (respects_push_tree v (PStr (blob_name blob)) md s) as He.
  apply tree_only_keeps in He as (Hreq & Hmp & _).
  destruct (_push v (PStr (blob_name blob)) md s) as [[r|] s1] eqn:Hpush;
    cbn [snd] in Hreq, Hmp; [|by eauto 10].
  destruct (push_ok _ _ _ _ _ _ Hpush) as (t & n0 & s0 & -> & Hloop & Ht & ->).
  destruct (push_loop_from_node _ _ _ _ _ Hloop) as [p ->].
  pose proof (lookup_lt_Some _ _ _ Ht) as Hlt.
  cbn [mount_points requests set_heap] in Hmp, Hreq.
  simpl. eexists _, _. split; [done|]. split; [done|]. right.
  eexists p, t, _, blob. split_and!; try done.
  - simpl. by rewrite Hmp.
  - simpl. rewrite open_loop_meta by done. by apply push_loop_open in Hloop.
  - simpl. by apply list_lookup_insert_eq.
  - simpl. by rewrite Object_assign_lookup.
  - simpl. by rewrite Object_assign_lookup.
Qed.

Lemma get_mount_loop_last mps m rest :
  (get_mount_loop mps (mp_path m +:+ rest)).1 = None →
  get_mount_loop (mps ++ [m]) (mp_path m +:+ rest) = (Some m, rest).
Proof.
  induction mps as [|x mps IH]; simpl.
  - intros _. rewrite (proj2 (startsWith_prefix _ _)) by (by exists rest).
    by rewrite slice_append.
  - destruct (JsString.startsWith (mp_path x) (mp_path m +:+ rest)); [done|].
    apply IH.
Qed.

(** X17: along every sequence of calls, when the path opens to a node, the
    file picker gives a blob and no segment of the name of the blob is a
    property name inherited from [Object.prototype], [mount_local_file]
    returns a node; and from then on [get_mount] sends every path that
    starts with the path given, a slash and the name of the blob to the new
    mount point, with what follows that prefix as the remainder, unless an
    earlier mount point matches the path. *)
Theorem mount_local_file_routes provider ops path blob p rest :
  let s := run provider ops new_Vfs in
  let mpath := path +:+ "/" +:+ blob_name blob in
  open s (PStr path) = Ok (VNode p) →
  Forall (λ seg, JsObject.inherited seg = false)
         (normalize_path (PStr (blob_name blob))) →
  (get_mount s (mpath +:+ rest)).1 = None →
  ∃ t s',
    mount_local_file path (Some blob) s = (Ok (VNode t), s') ∧
    get_mount s' (mpath +:+ rest) = (Some (mkMount "local" mpath (VNode t)), rest).
Proof.
  intros s mpath Hopen Hsafe Hfree.
  pose proof (wf_run provider ops) as Hwf. fold s in Hwf.
  pose proof (open_valid _ _ _ Hwf Hopen) as Hp.
  set (md := ({[ "blob" := MBlob blob; "type" := MStr "file" ]} : gmap string mval)).
  assert (md !! "id" = None) as Hid by done.
  destruct (push_round_trip s p (PStr (blob_name blob)) md Hwf Hp Hid Hsafe)
    as (t & nt & s1 & Hpush & _).
  pose proof (respects_push_tree (VNode p) (PStr (blob_name blob)) md s) as He.
  rewrite Hpush in He. apply tree_only_keeps in He as (_ & Hmp & _).
  cbn [snd] in Hmp.
  eexists t, _. split.
  - unfold mount_local_file, try_catch, mbind, M_bind, bind, gets.
    rewrite Hopen. simpl. fold md. rewrite Hpush. simpl. done.
  - unfold get_mount. simpl. rewrite Hmp.
    by apply (get_mount_loop_last _ (mkMount "local" mpath (VNode t))).
Qed.

Lemma mount_local_file_routes_witness :
  let provider : list Request → Request → option handle := λ _ _, None in
  let blob := mkBlob "x" "text/plain" "notes.txt" None None in
  let s := run provider [Mkdir "/home"] new_Vfs in
  let s' := (mount_local_file "/home" (Some blob) s).2 in
  open s (PStr "/home") = Ok (VNode 1) ∧
  (get_mount s "/home/notes.txt/x").1 = None ∧
  (mount_local_file "/home" (Some blob) s).1 = Ok (VNode 2) ∧
  get_mount s' "/home/notes.txt/x" =
    (Some (mkMount "local" "/home/notes.txt" (VNode 2)), "/x").
Proof.
  intros provider blob s s'.
  assert (Forall (λ seg, JsObject.inherited seg = false)
            (normalize_path (PStr (blob_name blob)))) as Hsafe
    by (repeat constructor).
  destruct (mount_local_file_routes provider [Mkdir "/home"] "/home" blob 1 "/x"
              eq_refl Hsafe eq_refl) as (t & s1 & Hcall & Hget).
  pose proof (f_equal fst Hcall) as H1. vm_compute in H1. injection H1 as <-.
  split; [reflexivity|]. split; [reflexivity|]. split; [reflexivity|].
  pose proof (f_equal snd Hcall : s' = s1) as Hs. rewrite Hs. exact Hget.
Defined.

Lemma Object_assign_one_lookup old a k :
  Object_assign old [a] !! k =
  match a !! k with
  | Some v => Some v
  | None => old !! k
  end.
Proof. unfold Object_assign. simpl. by rewrite lookup_union_first. Qed.

Lemma nonempty_snoc {A} (l : list A) : l ≠ [] → ∃ pre x, l = pre ++ [x].
Proof. induction l using rev_ind; [done|]. eauto. Qed.

(** One turn of the loop of [mount_local_folder], on a blob whose relative
    path has a segment and no inherited name. *)
Lemma folder_step s p blob rel blobs lp :
  wf s → is_Some (heap s !! p) →
  webkitRelativePath blob = Some rel →
  normalize_path (PStr rel) ≠ [] →
  Forall (λ seg, JsObject.inherited seg = false) (normalize_path (PStr rel)) →
  ∃ s2 t nt q nq,
    mount_folder_loop (VNode p) (blob :: blobs) lp s =
      mount_folder_loop (VNode p) blobs (Some rel) s2 ∧
    wf s2 ∧ is_Some (heap s2 !! p) ∧
    open_loop (heap s2) (normalize_path (PStr rel)) (VNode p) = Ok (VNode t) ∧
    heap s2 !! t = Some nt ∧
    metadata nt !! "blob" = Some (MBlob blob) ∧
    parent nt = Some q ∧
    heap s2 !! q = Some nq ∧
    metadata nq !! "directoryHandle" = Some (handle_value (directoryHandle blob)).
Proof.
  intros Hwf Hp Hrel Hne Hsafe.
  set (md := ({[ "blob" := MBlob blob ]} : gmap string mval)).
  assert (md !! "id" = None) as Hid by done.
  destruct (push_round_trip s p (PStr rel) md Hwf Hp Hid Hsafe)
    as (t & nt & s1 & Hpush & Hwf1 & Hopen & Ht & Hmd & _).
  pose proof (respects_push_tree (VNode p) (PStr rel) md s) as He.
  rewrite Hpush in He. cbn [snd] in He.
  destruct Hp as [n Hp].
  destruct (evolves_persists _ _ _ He _ _ Hp) as (n1 & Hp1 & _).
  destruct (nonempty_snoc _ Hne) as (pre & x & Hsegs).
  rewrite Hsegs in Hopen.
  destruct (open_loop_snoc _ _ _ _ _ Hopen) as (q & nq & _ & Hq & Hown).
  apply own_Some_elem in Hown. rewrite (wf_children _ Hwf1 _ _ Hq) in Hown.
  apply elem_of_created_under in Hown as (cn & Hcn & _ & Hpar).
  rewrite Ht in Hcn. injection Hcn as <-.
  pose proof (wf_parent _ Hwf1 _ _ _ Ht Hpar) as Hlt.
  pose proof (lookup_lt_Some _ _ _ Hq) as Hq_lt.
  set (hv := handle_value (directoryHandle blob)).
  set (nq' := set_metadata
                (Object_assign (metadata nq) [ {[ "directoryHandle" := hv ]} ]) nq).
  exists (set_heap (<[q := nq']> (heap s1)) s1), t, nt, q, nq'.
  split_and!.
  - simpl. rewrite Hrel. unfold mbind, M_bind, bind. fold md. rewrite Hpush.
    simpl. unfold read. rewrite Ht. rewrite Hpar. simpl.
    unfold modify. rewrite Hq. done.
  - apply wf_meta; [done | | done].
    by rewrite Object_assign_one_lookup.
  - simpl. apply lookup_lt_is_Some. rewrite length_insert.
    by eapply lookup_lt_Some.
  - unfold nq'. cbn [heap set_heap]. rewrite open_loop_meta by done.
    by rewrite Hsegs.
  - simpl. rewrite list_lookup_insert_ne by lia. done.
  - by apply Hmd.
  - done.
  - simpl. by apply list_lookup_insert_eq.
  - simpl. by rewrite Object_assign_one_lookup.
Qed.

Lemma folder_loop_total s p blobs lp :
  wf s → is_Some (heap s !! p) →
  Forall (λ b, ∃ rel, webkitRelativePath b = Some rel ∧
                      normalize_path (PStr rel) ≠ [] ∧
                      Forall (λ seg, JsObject.inherited seg = false)
                             (normalize_path (PStr rel))) blobs →
  ∃ s' lp',
    mount_folder_loop (VNode p) blobs lp s = (Ok lp', s') ∧ wf s' ∧
    (∀ b, last blobs = Some b →
       lp' = webkitRelativePath b ∧
       ∃ rel t nt q nq,
         webkitRelativePath b = Some rel ∧
         open_loop (heap s') (normalize_path (PStr rel)) (VNode p) = Ok (VNode t) ∧
         heap s' !! t = Some nt ∧
         metadata nt !! "blob" = Some (MBlob b) ∧
         parent nt = Some q ∧
         heap s' !! q = Some nq ∧
         metadata nq !! "directoryHandle" = Some (handle_value (directoryHandle b))) ∧
    (∀ b rel, b ∈ blobs → webkitRelativePath b = Some rel →
       ∃ t, open_loop (heap s') (normalize_path (PStr rel)) (VNode p) = Ok (VNode t)).
Proof.
  intros Hwf Hp Hall. revert s lp Hwf Hp.
  induction Hall as [|b bs (rel & Hrel & Hne & Hsafe) _ IH]; intros s lp Hwf Hp.
  { exists s, lp. split_and!; try done. intros b rel Hb. by apply elem_of_nil in Hb. }
  destruct (folder_step s p b rel bs lp Hwf Hp Hrel Hne Hsafe)
    as (s2 & t & nt & q & nq & Hstep & Hwf2 & Hp2 & Hopen & Ht & Hblob & Hpar & Hq & Hhd).
  destruct (IH s2 (Some rel) Hwf2 Hp2) as (s' & lp' & Hloop & Hwf' & Hlast & Hres).
  exists s', lp'. split_and!; [by rewrite Hstep | done | |].
  - destruct bs as [|b' bs'].
    + simpl in Hloop. injection Hloop as <- <-. intros b0 [= <-].
      split; [done|]. by exists rel, t, nt, q, nq.
    + intros b0 Hb0. by apply Hlast.
  - intros b0 rel0 Hb0 Hrel0. apply elem_of_cons in Hb0 as [-> | Hb0].
    + rewrite Hrel in Hrel0. injection Hrel0 as <-. exists t.
      pose proof (respects_mount_folder_loop_tree (VNode p) bs (Some rel) s2) as He.
      rewrite Hloop in He. cbn [snd] in He.
      eapply open_loop_persists; [|exact Hopen]. by eapply evolves_persists.
    + by eapply Hres.
Qed.

(** X18: along every sequence of calls, when the path opens to a node and
    the directory picker gives blobs that all have a relative path with at
    least one segment and without a property name inherited from
    [Object.prototype], [mount_local_folder] returns the child of that node
    named by the first segment of the relative path of the last blob, and
    appends to the mount table the mount point of type ["local"] rooted at
    that child, whose path is the path given, a slash and that segment.
    Afterwards the relative path of every blob leads from the node to a
    node; the one of the last blob leads to a node that carries this blob
    and whose parent carries the [directoryHandle] of this blob. *)
Theorem mount_local_folder_mounts provider ops path blobs b rel p :
  let s := run provider ops new_Vfs in
  open s (PStr path) = Ok (VNode p) →
  last blobs = Some b → webkitRelativePath b = Some rel →
  Forall (λ b, ∃ rel, webkitRelativePath b = Some rel ∧
                      normalize_path (PStr rel) ≠ [] ∧
                      Forall (λ seg, JsObject.inherited seg = false)
                             (normalize_path (PStr rel))) blobs →
  ∃ c root_name s',
    mount_local_folder path (Some blobs) s = (Ok (VNode c), s') ∧
    head (normalize_path (PStr rel)) = Some root_name ∧
    open_loop (heap s') [root_name] (VNode p) = Ok (VNode c) ∧
    mount_points s' =
      mount_points s ++ [mkMount "local" (path +:+ "/" +:+ root_name) (VNode c)] ∧
    (∃ t nt q nq,
       open_loop (heap s') (normalize_path (PStr rel)) (VNode p) = Ok (VNode t) ∧
       heap s' !! t = Some nt ∧
       metadata nt !! "blob" = Some (MBlob b) ∧
       parent nt = Some q ∧
       heap s' !! q = Some nq ∧
       metadata nq !! "directoryHandle" = Some (handle_value (directoryHandle b))) ∧
    (∀ b0 rel0, b0 ∈ blobs → webkitRelativePath b0 = Some rel0 →
       ∃ t, open_loop (heap s') (normalize_path (PStr rel0)) (VNode p)
            = Ok (VNode t)).
Proof.
  intros s Hopen Hlast Hrel Hall.
  pose proof (wf_run provider ops) as Hwf. fold s in Hwf.
  pose proof (open_valid _ _ _ Hwf Hopen) as Hp.
  destruct (folder_loop_total s p blobs None Hwf Hp Hall)
    as (s1 & lp' & Hloop & Hwf1 & Hl & Hres).
  destruct (Hl b Hlast) as (-> & rel' & t & nt & q & nq & Hrel' & Hfacts).
  rewrite Hrel in Hrel'. injection Hrel' as <-.
  pose proof (respects_mount_folder_loop_tree (VNode p) blobs None s) as He.
  rewrite Hloop in He. cbn [snd] in He.
  apply tree_only_keeps in He as (_ & Hmp & _).
  destruct Hfacts as (Ht_open & Hfacts).
  assert (∃ root_name rest c n1,
            normalize_path (PStr rel) = root_name :: rest ∧
            heap s1 !! p = Some n1 ∧
            JsObject.has (_children n1) root_name = true ∧
            get_property (_children n1) root_name = VNode c)
    as (root_name & rest & c & n1 & Hsegs & Hp1 & Hhas & Hget).
  { apply last_Some in Hlast as [pre ->].
    apply Forall_app in Hall as [_ Hb'].
    apply Forall_singleton in Hb' as (rel' & Hrel' & Hne & Hsafe).
    rewrite Hrel in Hrel'. injection Hrel' as <-.
    destruct (normalize_path (PStr rel)) as [|root_name rest] eqn:Hsegs; [done|].
    cbn [open_loop children_of] in Ht_open.
    destruct (heap s1 !! p) as [n1|] eqn:Hp1; [|done].
    destruct (JsObject.has (_children n1) root_name) eqn:Hhas; [|done].
    apply Forall_cons in Hsafe as [Hinh _].
    destruct (get_property_wf _ _ _ _ Hwf1 Hp1 Hinh Hhas) as (c & cn & Hget & _).
    by exists root_name, rest, c, n1. }
  exists c, root_name,
    (mkVfs (node_id s1) (root s1)
       (mount_points s1 ++ [mkMount "local" (path +:+ "/" +:+ root_name) (VNode c)])
       (heap s1) (requests s1)).
  split_and!.
  - unfold mount_local_folder, try_catch, mbind, M_bind, bind, gets.
    rewrite Hopen. cbn [from_option]. unfold mret, M_ret, ret at 1.
    rewrite Hloop, Hrel. cbn [as_node]. unfold mret, M_ret, ret at 1, read.
    rewrite Hp1, Hsegs. cbn [head default]. unfold id. rewrite Hget. done.
  - by rewrite Hsegs.
  - cbn [heap open_loop children_of]. by rewrite Hp1, Hhas, Hget.
  - cbn [mount_points]. by rewrite Hmp.
  - by exists t, nt, q, nq.
  - exact Hres.
Qed.

Lemma mount_local_folder_mounts_witness :
  let provider : list Request → Request → option handle := λ _ _, None in
  let b1 := mkBlob "x" "text/plain" "f" (Some "d/f") (Some 7) in
  let b2 := mkBlob "y" "text/plain" "g" (Some "d/e/g") (Some 8) in
  let s := run provider [Mkdir "/home"] new_Vfs in
  let s' := (mount_local_folder "/home" (Some [b1; b2]) s).2 in
  open s (PStr "/home") = Ok (VNode 1) ∧
  (mount_local_folder "/home" (Some [b1; b2]) s).1 = Ok (VNode 2) ∧
  mount_points s' = [mkMount "local" "/home/d" (VNode 2)] ∧
  ∃ t nt q nq,
    open_loop (heap s') ["d"; "e"; "g"] (VNode 1) = Ok (VNode t) ∧
    heap s' !! t = Some nt ∧
    metadata nt !! "blob" = Some (MBlob b2) ∧
    parent nt = Some q ∧
    heap s' !! q = Some nq ∧
    metadata nq !! "directoryHandle" = Some (MHandle 8).
Proof.
  intros provider b1 b2 s s'.
  assert (Forall (λ b, ∃ rel, webkitRelativePath b = Some rel ∧
                        normalize_path (PStr rel) ≠ [] ∧
                        Forall (λ seg, JsObject.inherited seg = false)
                               (normalize_path (PStr rel))) [b1; b2]) as Hall.
  { repeat constructor.
    - exists "d/f". split; [done|]. split; [done|]. repeat constructor.
    - exists "d/e/g". split; [done|]. split; [done|]. repeat constructor. }
  destruct (mount_local_folder_mounts provider [Mkdir "/home"] "/home" [b1; b2]
              b2 "d/e/g" 1 eq_refl eq_refl eq_refl Hall)
    as (c & root_name & s1 & Hcall & Hhead & Hroot & Hmp & Hfacts & _).
  injection Hhead as <-.
  pose proof (f_equal fst Hcall) as H1. vm_compute in H1. injection H1 as <-.
  pose proof (f_equal snd Hcall : s' = s1) as Hs. rewrite Hs.
  split; [reflexivity|]. split; [reflexivity|]. split; [exact Hmp|].
  exact Hfacts.
Defined.

Lemma bind_Ok {A B} (m : M A) (k : A → M B) s r s' :
  (x ← m; k x) s = (Ok r, s') →
  ∃ a s1, m s = (Ok a, s1) ∧ k a s1 = (Ok r, s').
Proof.
  unfold mbind, M_bind, bind. destruct (m s) as [[a|] s1]; [|done]. eauto.
Qed.

(** When the loop of [mount_local_folder] goes through, [last_path] is the
    relative path of the last blob. *)
Lemma folder_loop_last _root blobs lp s lp' s1 :
  mount_folder_loop _root blobs lp s = (Ok lp', s1) →
  match last blobs with
  | Some b => lp' = webkitRelativePath b ∧ is_Some lp'
  | None => lp' = lp
  end.
Proof.
  revert lp s. induction blobs as [|b bs IH]; intros lp s; simpl.
  { by intros [= -> _]. }
  destruct (webkitRelativePath b) as [rel|] eqn:Hrel; [|done].
  intros H.
  apply bind_Ok in H as (node & s2 & _ & H).
  apply bind_Ok in H as (t & s3 & _ & H).
  apply bind_Ok in H as (n & s4 & _ & H).
  apply bind_Ok in H as (q & s5 & _ & H).
  apply bind_Ok in H as ([] & s6 & _ & H).
  apply IH in H. destruct bs as [|b' bs'].
  - simpl in H. subst lp'. simpl. rewrite Hrel. eauto.
  - change (last (b :: b' :: bs')) with (last (b' :: bs')).
    destruct (last (b' :: bs')) eqn:E; [exact H|]. by apply last_None in E.
Qed.

(** X19: [mount_local_folder] never throws and sends no request.  Either it
    returns [false] and registers nothing, which is what it does when the
    directory picker fails or gives no blob; or the path opened to a node,
    the relative path of the last blob is defined, and the call returns
    what the [_children] of that node hold under the first segment of that
    relative path (under ["undefined"] when it has no segment), after
    appending to the mount table the mount point of type ["local"] rooted
    at the value returned, whose path is the path given, a slash and that
    segment. *)
Theorem mount_local_folder_outcome path directoryOpen s :
  ∃ r s',
    mount_local_folder path directoryOpen s = (Ok r, s') ∧
    requests s' = requests s ∧
    ((r = VFalse ∧ mount_points s' = mount_points s) ∨
     ∃ p n' blobs b rel,
       open s (PStr path) = Ok (VNode p) ∧
       directoryOpen = Some blobs ∧ last blobs = Some b ∧
       webkitRelativePath b = Some rel ∧
       heap s' !! p = Some n' ∧
       let root_name := default "undefined" (head (normalize_path (PStr rel))) in
       r = get_property (_children n') root_name ∧
       mount_points s' =
         mount_points s ++ [mkMount "local" (path +:+ "/" +:+ root_name) r]) ∧
    (directoryOpen = None ∨ directoryOpen = Some [] → r = VFalse ∧ s' = s).
Proof.
  unfold mount_local_folder, try_catch, mbind, M_bind, bind, gets.
  destruct (open s (PStr path)) as [v|] eqn:Hopen.
  2:{ eexists _, _. split_and!; [done | done | by left | done]. }
  destruct directoryOpen as [blobs|]; cbn [from_option].
  2:{ eexists _, _. split_and!; [done | done | by left | done]. }
  unfold mret, M_ret, ret at 1.
  pose proof (respects_mount_folder_loop_tree v blobs None s) as He.
  apply tree_only_keeps in He as (Hreq & Hmp & _).
  destruct (mount_folder_loop v blobs None s) as [[lp|] s1] eqn:Hloop;
    cbn [snd] in Hreq, Hmp.
  2:{ eexists _, _. split_and!; [done | done | by left |].
      intros [? | [= ->]]; [done|]. discriminate Hloop. }
  apply folder_loop_last in Hloop as Hlast.
  destruct (last blobs) as [b|] eqn:Hb.
  2:{ subst lp. eexists _, _. split_and!; [done | done | by left |].
      intros _. apply last_None in Hb as ->. simpl in Hloop.
      by injection Hloop as <-. }
  destruct Hlast as [-> [rel Hrel]]. rewrite Hrel.
  destruct v as [| | |p|]; cbn [as_node];
    try (eexists _, _; split_and!; [done | done | by left |];
         intros [? | [= ->]]; done).
  unfold mret, M_ret, ret at 1, read.
  destruct (heap s1 !! p) as [n1|] eqn:Hp1.
  2:{ eexists _, _. split_and!; [done | done | by left |].
      intros [? | [= ->]]; done. }
  eexists _, _. split_and!; [done | done | right |].
  - exists p, n1, blobs, b, rel. split_and!; try done.
    cbn [mount_points]. by rewrite Hmp.
  - intros [? | [= ->]]; done.
Qed.

(** ** Types of nodes and requests sent *)

Lemma push_labels_orderly md l :
  md !! "type" = None ∨ md !! "type" = Some (MStr "file") ∨
    md !! "type" = Some (MStr "folder") →
  push_labels md l → orderly l.
Proof.
  intros Hmd. destruct l as [| p old new | |]; cbn [push_labels orderly]; try done.
  intros ->. rewrite Object_assign_lookup.
  destruct Hmd as [-> | [-> | ->]]; auto.
Qed.

Lemma respects_push_orderly mount segments md :
  md !! "type" = None ∨ md !! "type" = Some (MStr "file") ∨
    md !! "type" = Some (MStr "folder") →
  respects (evolves orderly) (_push mount segments md).
Proof.
  intros Hmd. eapply respects_weaken; [|apply respects_push].
  intros l. by apply push_labels_orderly.
Qed.

Lemma respects_write_file_orderly path file_name content md :
  respects (evolves orderly) (write_file path file_name content md).
Proof.
  intros s. unfold write_file.
  destruct (get_mount s path) as [[mp|] rest].
  - destruct (String.eqb (mp_type mp) "local"); [|reflexivity].
    eapply evolves_weaken; [|apply respects_write_file_local].
    intros l. apply push_labels_orderly. auto.
  - apply respects_push_orderly. auto.
Qed.

Lemma respects_mount_local_file_orderly path fileOpen :
  respects (evolves orderly) (mount_local_file path fileOpen).
Proof.
  unfold mount_local_file. respects_walk.
  - apply respects_push_orderly. auto.
  - by apply respects_push_mount.
Qed.

Lemma respects_mount_folder_loop_orderly _root blobs last_path :
  respects (evolves orderly) (mount_folder_loop _root blobs last_path).
Proof.
  revert last_path. induction blobs as [|blob blobs IH]; intros last_path; simpl.
  { apply respects_ret, _. }
  destruct (webkitRelativePath blob) as [rel|]; respects_walk.
  - apply respects_push_orderly. auto.
  - apply (respects_modify_metadata _ _
             (λ old, Object_assign old
                       [ {[ "directoryHandle" := handle_value (directoryHandle blob) ]} ])).
    intros old. left. by rewrite Object_assign_one_lookup.
  - apply IH.
Qed.

Lemma respects_mount_local_folder_orderly path directoryOpen :
  respects (evolves orderly) (mount_local_folder path directoryOpen).
Proof.
  unfold mount_local_folder. respects_walk.
  - apply respects_mount_folder_loop_orderly.
  - by apply respects_push_mount.
Qed.

Lemma respects_getDirectoryHandle_create provider handler nm :
  respects (evolves orderly) (getDirectoryHandle provider handler nm true).
Proof.
  intros s. unfold getDirectoryHandle.
  destruct handler as [| | |h|]; try reflexivity.
  assert (evolves orderly s (add_request (mkRequest h nm true) s)) as H.
  { eapply evolves_once; [|constructor]. done. }
  by destruct (provider _ _).
Qed.

Lemma respects_mkdir_local_loop_orderly provider rest handler node :
  respects (evolves orderly) (mkdir_local_loop provider rest handler node).
Proof.
  revert handler node.
  induction rest as [|pdir rest IH]; intros handler node; simpl.
  { apply respects_ret, _. }
  respects_walk.
  - apply respects_getDirectoryHandle_create.
  - apply (respects_modify_metadata _ _
             (λ old, <[ "directoryHandle" := MHandle _ ]> old)).
    intros old. left. by rewrite lookup_insert_ne.
  - apply IH.
Qed.

Lemma respects_mkdir_local_orderly provider mount path :
  respects (evolves orderly) (_mkdir_local provider mount path).
Proof.
  unfold _mkdir_local. respects_walk.
  - apply respects_push_orderly. auto.
  - apply respects_mkdir_local_loop_orderly.
Qed.

Lemma respects_mkdir_orderly provider path :
  respects (evolves orderly) (mkdir provider path).
Proof.
  intros s. unfold mkdir.
  destruct (get_mount s path) as [[mp|] rest].
  - destruct (String.eqb (mp_type mp) "local"); [|reflexivity].
    apply respects_mkdir_local_orderly.
  - apply respects_push_orderly. auto.
Qed.

Lemma evolves_run_orderly provider ops s :
  evolves orderly s (run provider ops s).
Proof.
  revert s. induction ops as [|o ops IH]; intros s; simpl; [reflexivity|].
  etrans; [|apply IH]. destruct o; simpl.
  - apply respects_mkdir_orderly.
  - apply respects_write_file_orderly.
  - apply respects_mount_local_file_orderly.
  - apply respects_mount_local_folder_orderly.
Qed.

Lemma types_atomic l s s' :
  orderly l → atomic l s s' →
  (∀ p n, heap s !! p = Some n →
     metadata n !! "type" = Some (MStr "file") ∨
     metadata n !! "type" = Some (MStr "folder") ∨
     (p = root s ∧ metadata n !! "type" = None)) →
  ∀ p n, heap s' !! p = Some n →
    metadata n !! "type" = Some (MStr "file") ∨
    metadata n !! "type" = Some (MStr "folder") ∨
    (p = root s' ∧ metadata n !! "type" = None).
Proof.
  intros Hl Ha. revert Hl.
  destruct Ha as [s q nq seg Hq Hhas | s q nq m' Hq | s mp | s r];
    intros Hl I p n; simpl; try apply I.
  - pose proof (lookup_lt_Some _ _ _ Hq) as Hlt.
    intros Hp. apply lookup_app_Some in Hp as [Hp | [Hlen Hp]].
    + destruct (decide (p = q)) as [->|Hne].
      * rewrite list_lookup_insert_eq in Hp by done. injection Hp as <-.
        apply (I _ _ Hq).
      * rewrite list_lookup_insert_ne in Hp by done. by apply I.
    + apply list_lookup_singleton_Some in Hp as [_ <-]. right. left. done.
  - pose proof (lookup_lt_Some _ _ _ Hq) as Hlt.
    destruct (decide (p = q)) as [->|Hne].
    + rewrite list_lookup_insert_eq by done. intros [= <-]. simpl.
      cbn [orderly] in Hl. destruct Hl as [-> | [-> | ->]]; auto.
    + rewrite list_lookup_insert_ne by done. apply I.
Qed.

Lemma types_evolves s s' :
  evolves orderly s s' →
  (∀ p n, heap s !! p = Some n →
     metadata n !! "type" = Some (MStr "file") ∨
     metadata n !! "type" = Some (MStr "folder") ∨
     (p = root s ∧ metadata n !! "type" = None)) →
  ∀ p n, heap s' !! p = Some n →
    metadata n !! "type" = Some (MStr "file") ∨
    metadata n !! "type" = Some (MStr "folder") ∨
    (p = root s' ∧ metadata n !! "type" = None).
Proof.
  induction 1 as [|s1 s2 s3 (l & Hl & Ha) _ IH]; [done|].
  intros I. apply IH. by eapply types_atomic.
Qed.

Lemma requests_evolves s s' :
  evolves orderly s s' →
  ∃ more, requests s' = requests s ++ more ∧
          Forall (λ r, req_create r = true) more.
Proof.
  induction 1 as [|s1 s2 s3 (l & Hl & Ha) _ (more & -> & Hmore)].
  { exists []. by rewrite app_nil_r. }
  destruct Ha; simpl; try by exists more.
  exists (r :: more). rewrite <- app_assoc. split; [done|]. by constructor.
Qed.

(** X20: along every sequence of calls, every node other than the root has
    the [type] ["file"] or ["folder"] in its metadata; the root has one of
    them, or none as long as no call has pushed the empty path. *)
Theorem node_types_file_or_folder provider ops :
  let s := run provider ops new_Vfs in
  ∀ p n, heap s !! p = Some n →
    metadata n !! "type" = Some (MStr "file") ∨
    metadata n !! "type" = Some (MStr "folder") ∨
    (p = root s ∧ metadata n !! "type" = None).
Proof.
  intros s. apply (types_evolves new_Vfs s (evolves_run_orderly provider ops _)).
  intros p n Hp. right. right.
  destruct p as [|p]; [|done]. simpl in Hp. by injection Hp as <-.
Qed.

(** X21: every request that a sequence of calls sends to a directory
    handle asks with [create: true]; the requests sent before stay in the
    log, in order, and the new ones follow them. *)
Theorem requests_always_create provider ops s :
  ∃ more, requests (run provider ops s) = requests s ++ more ∧
          Forall (λ r, req_create r = true) more.
Proof. apply requests_evolves, evolves_run_orderly. Qed.

(** ** What [mkdir] returns *)

Lemma run_mounts_local provider ops :
  Forall (λ m, mp_type m = "local") (mount_points (run provider ops new_Vfs)).
Proof.
  eapply evolves_mounts_local; [apply evolves_run_local | constructor].
Qed.

Lemma get_mount_elem s path m rest :
  get_mount s path = (Some m, rest) → m ∈ mount_points s.
Proof.
  intros H. pose proof (get_mount_loop_spec (mount_points s) path) as Hs.
  unfold get_mount in H. rewrite H in Hs.
  destruct Hs as (before & after & -> & _). set_solver.
Qed.

Lemma push_result mount path md s r s1 :
  _push mount path md s = (Ok r, s1) →
  ∃ t, r = VNode t ∧ is_Some (heap s1 !! t) ∧
       ∀ p, is_Some (heap s !! p) → is_Some (heap s1 !! p).
Proof.
  intros Hpush.
  pose proof (respects_push_tree mount path md s) as He.
  rewrite Hpush in He. cbn [snd] in He. apply evolves_persists in He.
  destruct (push_ok _ _ _ _ _ _ Hpush) as (t & n0 & s0 & -> & _ & Ht & ->).
  exists t. split; [done|]. split.
  - simpl. apply lookup_lt_is_Some. rewrite length_insert.
    by eapply lookup_lt_Some.
  - intros p [n Hp]. destruct (He _ _ Hp) as (n' & Hp' & _). eauto.
Qed.

Lemma mkdir_local_loop_result provider rest handler p s r s' :
  mkdir_local_loop provider rest handler (VNode p) s = (Ok r, s') →
  is_Some (heap s !! p) →
  ∃ t, r = VNode t ∧ is_Some (heap s' !! t).
Proof.
  revert handler p s. induction rest as [|pdir rest IH]; intros handler p s; simpl.
  { intros [= <- <-] Hp. eauto. }
  intros H _.
  apply bind_Ok in H as (h' & s1 & _ & H).
  apply bind_Ok in H as (p' & s2 & _ & H).
  apply bind_Ok in H as (n & s3 & _ & H).
  apply bind_Ok in H as (q & s4 & Hq & H).
  apply bind_Ok in H as ([] & s5 & Hmod & H).
  destruct (get_property (_children n) pdir) as [| | |c|] eqn:Hget; try done.
  apply IH in H; [done|].
  unfold modify in Hmod. destruct (heap s4 !! q) as [nq|] eqn:Hnq; [|done].
  injection Hmod as <-. injection Hq as <- <-. simpl.
  apply lookup_lt_is_Some. rewrite length_insert. by eapply lookup_lt_Some.
Qed.

(** X22: along every sequence of calls, [mkdir] either throws (its promise
    rejects), or returns a node of the tree, or returns [null]; it returns
    [null] only on a path that a mount point matches, and then it has
    changed nothing and sent no request.  It never returns [undefined]:
    every mount point is of type ["local"]. *)
Theorem mkdir_returns_node_or_null provider ops path :
  let s := run provider ops new_Vfs in
  match mkdir provider path s with
  | (Ok (VNode t), s') => is_Some (heap s' !! t)
  | (Ok VNull, s') => (get_mount s path).1 ≠ None ∧ s' = s
  | (Ok _, _) => False
  | (Throw, _) => True
  end.
Proof.
  intros s. unfold mkdir.
  destruct (get_mount s path) as [[m|] rest] eqn:Hm.
  - pose proof (run_mounts_local provider ops) as Hloc.
    rewrite Forall_forall in Hloc.
    rewrite (Hloc m (get_mount_elem _ _ _ _ Hm)). cbn [String.eqb].
    change (String.eqb "local" "local") with true. cbv iota.
    unfold _mkdir_local, mbind, M_bind, bind, gets.
    destruct (_closest_directory_handler_local (heap s) (mp_root m) (PStr rest))
      as [[[[hd node] pending]|]|] eqn:Hfound; [| |done].
    2:{ simpl. done. }
    apply closest_some in Hfound as (j & n & _ & _ & Hnode & _).
    destruct (_push (VNode node) (PSegs pending) {[ "type" := MStr "folder" ]} s)
      as [[r|] s1] eqn:Hpush; [|done].
    apply push_result in Hpush as (t & -> & _ & Hkeep).
    destruct (mkdir_local_loop provider pending hd (VNode node) s1)
      as [[r|] s2] eqn:Hloop; [|done].
    apply mkdir_local_loop_result in Hloop as (t' & -> & Ht'); [done|].
    apply Hkeep. eauto.
  - unfold _mkdir_memfs.
    destruct (_push (VNode (root s)) (PStr rest) {[ "type" := MStr "folder" ]} s)
      as [[r|] s1] eqn:Hpush; [|done].
    by apply push_result in Hpush as (t & -> & Ht & _).
Qed.

Lemma node_types_file_or_folder_witness :
  let provider : list Request → Request → option handle := λ _ _, None in
  let s := run provider [Mkdir "/a"; WriteFile "/a/b" "b" "x" None] new_Vfs in
  ∃ n, heap s !! 2 = Some n ∧
       (metadata n !! "type" = Some (MStr "file") ∨
        metadata n !! "type" = Some (MStr "folder") ∨
        (2 = root s ∧ metadata n !! "type" = None)).
Proof.
  intros provider s. eexists. split; [reflexivity|].
  apply (node_types_file_or_folder provider
           [Mkdir "/a"; WriteFile "/a/b" "b" "x" None] 2).
  reflexivity.
Defined.

(** ** Finding the deepest handle *)

Lemma handle_at_carrier h p n hd :
  h !! p = Some n → metadata n !! "directoryHandle" = Some hd →
  truthy hd = true → handle_at h (VNode p) = Ok (Some (hd, p)).
Proof. intros Hp Hhd Ht. simpl. by rewrite Hp, Hhd, Ht. Qed.

Lemma closest_loop_found h mount segs j p n hd k tc :
  j ≤ k → k ≤ length segs → rev tc = drop k segs →
  _open h mount (PSegs (take j segs)) = Ok (VNode p) →
  h !! p = Some n → metadata n !! "directoryHandle" = Some hd →
  truthy hd = true →
  (∀ i, j < i ≤ k →
     ∃ v, _open h mount (PSegs (take i segs)) = Ok v ∧ handle_at h v = Ok None) →
  closest_loop h mount (rev (take k segs)) tc = Ok (Some (hd, p, drop j segs)).
Proof.
  intros Hjk Hk Htc Hopen Hp Hhd Ht. revert tc Hjk Hk Htc.
  induction k as [|k IH]; intros tc Hjk Hk Htc Hbelow.
  - assert (j = 0) as -> by lia. rewrite take_0 in *. cbn [rev closest_loop].
    rewrite Hopen, (handle_at_carrier _ _ _ _ Hp Hhd Ht). by rewrite Htc.
  - destruct (lookup_lt_is_Some_2 segs k) as [seg Hseg]; [lia|].
    rewrite (rev_take_S _ _ _ Hseg). cbn [closest_loop].
    rewrite <- (rev_take_S _ _ _ Hseg), rev_involutive.
    destruct (decide (j = S k)) as [->|Hne].
    + rewrite Hopen, (handle_at_carrier _ _ _ _ Hp Hhd Ht). by rewrite Htc.
    + destruct (Hbelow (S k)) as (v & -> & ->); [lia|].
      apply IH; [lia | lia | |].
      * rewrite rev_app_distr. simpl. rewrite Htc. symmetry. by apply drop_S.
      * intros i Hi. apply Hbelow. lia.
Qed.

(** X23: the search for the closest directory handle finds the deepest
    handle on the walk: when the node that the first [j] segments of the
    path lead to carries a truthy [directoryHandle], and every longer
    prefix of the path leads, without throwing, to nothing or to a node
    without a truthy handle, the search returns that handle, that node and
    the segments after the first [j]. *)
Theorem closest_handle_found h mount path j p n hd :
  let segs := normalize_path path in
  j ≤ length segs →
  _open h mount (PSegs (take j segs)) = Ok (VNode p) →
  h !! p = Some n → metadata n !! "directoryHandle" = Some hd →
  truthy hd = true →
  (∀ i, j < i ≤ length segs →
     ∃ v, _open h mount (PSegs (take i segs)) = Ok v ∧ handle_at h v = Ok None) →
  _closest_directory_handler_local h mount path = Ok (Some (hd, p, drop j segs)).
Proof.
  intros segs Hj Hopen Hp Hhd Ht Hbelow.
  unfold _closest_directory_handler_local. fold segs.
  replace (rev segs) with (rev (take (length segs) segs))
    by (by rewrite firstn_all).
  eapply closest_loop_found; try done. by rewrite drop_all.
Qed.

Lemma closest_handle_found_witness :
  let provider : list Request → Request → option handle := λ _ _, None in
  let b := mkBlob "x" "text/plain" "f" (Some "d/f") (Some 7) in
  let s := run provider [MountLocalFolder "" (Some [b])] new_Vfs in
  ∃ n, heap s !! 1 = Some n ∧
       metadata n !! "directoryHandle" = Some (MHandle 7) ∧
       _closest_directory_handler_local (heap s) (VNode 0) (PStr "d/x/y") =
         Ok (Some (MHandle 7, 1, ["x"; "y"])).
Proof.
  intros provider b s.
  assert (∃ n, heap s !! 1 = Some n ∧
               metadata n !! "directoryHandle" = Some (MHandle 7))
    as (n & Hn & Hhd) by (eexists; split; reflexivity).
  exists n. split; [exact Hn|]. split; [exact Hhd|].
  apply (closest_handle_found (heap s) (VNode 0) (PStr "d/x/y") 1 1 n (MHandle 7));
    [simpl; lia | reflexivity | exact Hn | exact Hhd | reflexivity |].
  intros i Hi. simpl in Hi.
  assert (i = 2 ∨ i = 3) as [-> | ->] by lia; by exists VNull.
Defined.
